(** * hex-game: the board, the win check and the Monte Carlo move search

    A shallow embedding of position.h, node.h, graph.h, probability.h,
    hex_game.h and the game loop of main.cpp, followed by the properties
    of the engine: the adjacency built by [Node]'s constructor, the move
    interface, the border-to-border search of [checkWin], the playout loop
    of [testPlay], the move selection of [computerPlay], the picture drawn
    by [display] and the loop of [main].  [std::sort], to which
    [computerPlay] leaves the order of its estimates, is embedded as
    libstdc++ implements it.

    Conventions of the embedding.
    - [Coordinate], [MapSize] and [BoardSize] are [uint8_t] in the source.
      Every value the program stores in one is a loop counter below the
      board size, a [rand() % m_size], or the size itself, so they are kept
      as [nat]; differences of coordinates are taken in [int] after the
      integer promotions, hence in [Z].
    - [int] counters ([PlayCount], [m_play_total]) are [Z].
    - [ProbabilityValue] is [float] in the source; the embedding computes
      with exact rationals [Q], that is, without the rounding of [float]
      arithmetic.  The properties below are limited to what rounding to
      nearest does not disturb: [compareProbability] as an order on the
      values it is given, the value of [testPlay] as the quotient that is
      rounded, an estimate that is 0, and the bounds [0 <= value < 1].
    - A failed [assert] of [Graph::getNode], an access outside a vector and
      a loop that runs out of the supplied random draws are the result
      [None]. *)

From Stdlib Require Import ZArith QArith Lia Lqa Bool Permutation Sorted Ascii.
From stdpp Require Import base tactics option list list_numbers strings pretty.

Local Open Scope nat_scope.

(** A [for] loop over [l] whose body may fail: the state is threaded
    through the iterations. *)
Fixpoint for_each {S A : Type} (body : S → A → option S) (s : S) (l : list A) : option S :=
  match l with
  | [] => Some s
  | x :: l' => s' ← body s x; for_each body s' l'
  end.

(** ** position.h *)

(** [using Coordinate = uint8_t]. *)
Abbreviation Coordinate := nat (only parsing).

Record Position := mkPosition { m_row : Coordinate; m_col : Coordinate }.

Definition getRow (p : Position) : Coordinate := m_row p.
Definition getCol (p : Position) : Coordinate := m_col p.

#[global] Instance Position_eq_dec : EqDecision Position.
Proof. solve_decision. Defined.

(** ** node.h *)

(** [using MapSize = uint8_t; using Connections = std::vector<Position>]. *)
Abbreviation MapSize := nat (only parsing).
Abbreviation Connections := (list Position) (only parsing).

Inductive NodeColour := WHITE | RED | GREEN.

#[global] Instance NodeColour_eq_dec : EqDecision NodeColour.
Proof. solve_decision. Defined.

(** [Node] derives from [Position]; the base object is the field [n_pos]. *)
Record Node := mkNode {
  n_pos : Position;
  m_colour : NodeColour;
  m_traversed : bool;
  m_connections : Connections
}.

(** The rule of the constructor's inner loop body for one candidate
    [(row_idx, col_idx)], seen from the node at [(row, col)]. *)
Definition connected (row col row_idx col_idx : Coordinate) : bool :=
  let dRow := (Z.of_nat row_idx - Z.of_nat row)%Z in
  let dCol := (Z.of_nat col_idx - Z.of_nat col)%Z in
  if ((dRow =? -1)%Z && (dCol =? -1)%Z) || ((dRow =? 1)%Z && (dCol =? 1)%Z)
  then false
  else if (Z.abs dRow <? 2)%Z && (Z.abs dCol <? 2)%Z
       then negb ((row_idx =? row) && (col_idx =? col))
       else false.

(** The connection list the constructor pushes, in the order of its two
    nested loops. *)
Definition Node_connections (row col : Coordinate) (board : MapSize) : Connections :=
  row_idx ← seq 0 board;
  col_idx ← seq 0 board;
  if connected row col row_idx col_idx then [mkPosition row_idx col_idx] else [].

(** [Node(row, col, board)].  The constructor initialises the position and
    the colour and fills the connections; it does not initialise
    [m_traversed], whose value [uninit] is whatever the storage held. *)
Definition Node_ctor (uninit : bool) (row col : Coordinate) (board : MapSize) : Node :=
  {| n_pos := mkPosition row col;
     m_colour := WHITE;
     m_traversed := uninit;
     m_connections := Node_connections row col board |}.

Definition setColour (colour : NodeColour) (n : Node) : Node :=
  {| n_pos := n_pos n; m_colour := colour;
     m_traversed := m_traversed n; m_connections := m_connections n |}.

Definition Node_setTraverse (value : bool) (n : Node) : Node :=
  {| n_pos := n_pos n; m_colour := m_colour n;
     m_traversed := value; m_connections := m_connections n |}.

(** ** graph.h *)

Record Graph := mkGraph { m_size : MapSize; m_tree : list (list Node) }.

Definition Graph_ctor (uninit : Coordinate → Coordinate → bool) (size : MapSize) : Graph :=
  {| m_size := size;
     m_tree := (λ row_idx, (λ col_idx, Node_ctor (uninit row_idx col_idx) row_idx col_idx size)
                             <$> seq 0 size) <$> seq 0 size |}.

(** [getNode]: the assertion, then [m_tree[row][col]]. *)
Definition getNode (row col : Coordinate) (g : Graph) : option Node :=
  if (row <? m_size g) && (col <? m_size g)
  then row_v ← m_tree g !! row; row_v !! col
  else None.

(** A member call on the reference [getNode] returns: the node is changed
    in place. *)
Definition updNode (f : Node → Node) (row col : Coordinate) (g : Graph) : option Graph :=
  _ ← getNode row col g;
  Some {| m_size := m_size g; m_tree := alter (alter f col) row (m_tree g) |}.

Definition isNodeColour (colour : NodeColour) (row col : Coordinate) (g : Graph) : option bool :=
  n ← getNode row col g; Some (bool_decide (m_colour n = colour)).

Definition isNodeFree (row col : Coordinate) (g : Graph) : option bool :=
  isNodeColour WHITE row col g.

Definition setNode (colour : NodeColour) (row col : Coordinate) (g : Graph) : option Graph :=
  updNode (setColour colour) row col g.

Definition setTraverse (row col : Coordinate) (g : Graph) : option Graph :=
  updNode (Node_setTraverse true) row col g.

Definition clearTraverse (row col : Coordinate) (g : Graph) : option Graph :=
  updNode (Node_setTraverse false) row col g.

Definition getTraverse (row col : Coordinate) (g : Graph) : option bool :=
  n ← getNode row col g; Some (m_traversed n).

Definition getConnections (row col : Coordinate) (g : Graph) : option Connections :=
  n ← getNode row col g; Some (m_connections n).

(** ** probability.h *)

(** [using ProbabilityValue = float; using PlayCount = int]. *)
Abbreviation ProbabilityValue := Q (only parsing).
Abbreviation PlayCount := Z (only parsing).

(** [Probability] derives from [Position]; the base object is [pr_pos]. *)
Record Probability := mkProbability { pr_pos : Position; m_value : ProbabilityValue }.

Definition getProb (p : Probability) : ProbabilityValue := m_value p.

(** [compareProbability::operator()]: [first.getProb() > second.getProb()]. *)
Definition compareProbability (first second : Probability) : bool :=
  negb (Qle_bool (getProb first) (getProb second)).

(** ** hex_game.h *)

Inductive Player := FIRST | SECOND.

#[global] Instance Player_eq_dec : EqDecision Player.
Proof. solve_decision. Defined.

Definition cn_MAX_GAME_SIZE : nat := 11.
Definition cn_MIN_GAME_SIZE : nat := 3.
Definition cn_DEFAULT_GAME_SIZE : nat := 7.
Definition cn_NUM_OF_THREADS : nat := 10.
Definition cn_MAXIMUM_PLAY_LIMIT : PlayCount := 150%Z.

(** [HexGame] derives from [Graph]; the base object is the field [base]. *)
Record HexGame := mkHexGame {
  base : Graph;
  m_limits : Position;
  m_play_total : Z;
  m_play_maximum : Z
}.

Definition to_Coordinate (z : Z) : Coordinate := Z.to_nat (z mod 256).

Definition HexGame_ctor (uninit : Coordinate → Coordinate → bool) (size : MapSize) : HexGame :=
  {| base := Graph_ctor uninit size;
     m_limits := mkPosition (to_Coordinate (Z.of_nat size - 1))
                            (to_Coordinate (Z.of_nat size - 1));
     m_play_total := 0%Z;
     m_play_maximum := (Z.of_nat size * Z.of_nat size)%Z |}.

Definition with_base (b : Graph) (g : HexGame) : HexGame :=
  {| base := b; m_limits := m_limits g;
     m_play_total := m_play_total g; m_play_maximum := m_play_maximum g |}.

Definition getSize (g : HexGame) : MapSize := m_size (base g).

Definition convertPlayer (player : Player) : NodeColour :=
  match player with FIRST => GREEN | SECOND => RED end.

Definition checkRangeSingle (input : Coordinate) (g : HexGame) : bool :=
  input <? m_size (base g).

Definition checkInputRange (row col : Coordinate) (g : HexGame) : bool :=
  checkRangeSingle row g && checkRangeSingle col g.

(** [addPlay]: colour the node and count the play when the node is free. *)
Definition addPlay (player : Player) (row col : Coordinate) (g : HexGame)
  : option (bool * HexGame) :=
  free ← isNodeFree row col (base g);
  if (free : bool)
  then b ← setNode (convertPlayer player) row col (base g);
       Some (true, {| base := b; m_limits := m_limits g;
                      m_play_total := (m_play_total g + 1)%Z;
                      m_play_maximum := m_play_maximum g |})
  else Some (false, g).

Definition playInterface (player : Player) (row col : Coordinate) (g : HexGame)
  : option (bool * HexGame) :=
  if checkInputRange row col g then addPlay player row col g else Some (false, g).

(** [clearAllTraverse]: the two nested loops over the board. *)
Definition clearAllTraverse (g : HexGame) : option HexGame :=
  b ← for_each (λ b row_idx,
        for_each (λ b col_idx, clearTraverse row_idx col_idx b)
                 b (seq 0 (m_size (base g))))
      (base g) (seq 0 (m_size (base g)));
  Some (with_base b g).

(** [findPath]'s loop over [net]; [rec] is the recursive call.  [ret] is
    the flag the loop accumulates; finding a border node of the colour
    sets it and leaves the loop. *)
Fixpoint findPath_loop (rec : Connections → HexGame → option (bool * HexGame))
    (colour : NodeColour) (net : Connections) (ret : bool) (g : HexGame)
  : option (bool * HexGame) :=
  match net with
  | [] => Some (ret, g)
  | node :: net' =>
      temp ← getNode (getRow node) (getCol node) (base g);
      let result : Z * Z :=
        if bool_decide (colour = GREEN)
        then (Z.of_nat (getCol (n_pos temp)), Z.of_nat (getCol (m_limits g)))
        else (Z.of_nat (getRow (n_pos temp)), Z.of_nat (getRow (m_limits g))) in
      if (result.1 =? result.2)%Z && bool_decide (m_colour temp = colour)
      then Some (true, g)
      else if bool_decide (m_colour temp = colour) && negb (m_traversed temp)
      then b ← updNode (Node_setTraverse true) (getRow node) (getCol node) (base g);
           '(r, g') ← rec (m_connections temp) (with_base b g);
           findPath_loop rec colour net' (ret || r) g'
      else findPath_loop rec colour net' ret g
  end.

(** [findPath].  The recursion of the source is bounded by the number of
    nodes it can still mark; [depth] bounds its depth here, and [None] is
    the result when the bound is reached. *)
Fixpoint findPath (depth : nat) (colour : NodeColour) (net : Connections) (g : HexGame)
  : option (bool * HexGame) :=
  match depth with
  | O => None
  | S depth' => findPath_loop (findPath depth' colour) colour net false g
  end.

(** The loop of [checkWin] over the starting border, with its [break].
    The depth it allows [findPath] is one more than the number of nodes;
    [findPath_total] shows that the recursion stays below it. *)
Fixpoint checkWin_loop (player : Player) (colour : NodeColour) (idxs : list Coordinate)
    (g : HexGame) : option (bool * HexGame) :=
  match idxs with
  | [] => Some (false, g)
  | idx :: idxs' =>
      let row_idx := match player with FIRST => idx | SECOND => 0 end in
      let col_idx := match player with FIRST => 0 | SECOND => idx end in
      is_colour ← isNodeColour colour row_idx col_idx (base g);
      not_traversed ← (if (is_colour : bool)
                       then negb <$> getTraverse row_idx col_idx (base g)
                       else Some false);
      if (not_traversed : bool)
      then b ← setTraverse row_idx col_idx (base g);
           net ← getConnections row_idx col_idx b;
           '(ret, g') ← findPath (S (m_size b * m_size b)) colour net (with_base b g);
           if (ret : bool) then Some (true, g') else checkWin_loop player colour idxs' g'
      else checkWin_loop player colour idxs' g
  end.

Definition checkWin (player : Player) (g : HexGame) : option (bool * HexGame) :=
  '(ret, g1) ← checkWin_loop player (convertPlayer player) (seq 0 (m_size (base g))) g;
  g2 ← clearAllTraverse g1;
  Some (ret, g2).

(** ** The playouts of [testPlay]

    [rand()] is a process-wide generator.  The populating loop calls it
    twice in the argument list of one call,
    [addPlay(player, (rand() % m_size), (rand() % m_size))], and C++ does
    not fix which of the two calls runs first.  A run of [testPlay] is
    therefore given the values by argument: [draws] lists, pair by pair,
    the value the row argument received and then the value the column
    argument received.  [by_argument] gives this list from the values in
    the order [rand()] returned them, for either order of evaluation.  A
    run that needs more values than [draws] holds has the result
    [None]. *)

(** The order in which a build evaluates the two [rand()] calls of one
    [addPlay] call. *)
Inductive ArgumentOrder := RowFirst | ColumnFirst.

Fixpoint by_argument (order : ArgumentOrder) (calls : list nat) : list nat :=
  match calls with
  | c1 :: c2 :: calls' =>
      match order with
      | RowFirst => c1 :: c2 :: by_argument order calls'
      | ColumnFirst => c2 :: c1 :: by_argument order calls'
      end
  | _ => calls
  end.

Definition next_player (player : Player) : Player :=
  match player with FIRST => SECOND | SECOND => FIRST end.

(** The loop that populates the board: [idx] runs from [m_play_total] to
    [m_play_maximum] and advances, with the player, on a valid play only. *)
Fixpoint fill (draws : list nat) (idx : PlayCount) (player : Player) (g : HexGame)
  : option (list nat * Player * HexGame) :=
  if (idx <? m_play_maximum g)%Z
  then match draws with
       | r1 :: r2 :: draws' =>
           '(valid, g') ← addPlay player (r1 mod m_size (base g)) (r2 mod m_size (base g)) g;
           if (valid : bool)
           then fill draws' (idx + 1)%Z (next_player player) g'
           else fill draws' idx player g'
       | _ => None
       end
  else Some (draws, player, g).

(** [this->m_tree = temp.getTree(); this->m_play_total = total_temp;] *)
Definition reset_tree (temp : Graph) (total_temp : PlayCount) (g : HexGame) : HexGame :=
  {| base := {| m_size := m_size (base g); m_tree := m_tree temp |};
     m_limits := m_limits g;
     m_play_total := total_temp;
     m_play_maximum := m_play_maximum g |}.

(** The [while (count++ < limit)] loop.  [n] bounds the number of
    iterations; [testPlay] passes [limit], and [testPlay_loop_bound] shows
    that from there on the bound makes no difference. *)
Fixpoint testPlay_loop (n : nat) (draws : list nat) (count wins limit : PlayCount)
    (player : Player) (temp : Graph) (total_temp : PlayCount) (g : HexGame)
  : option (list nat * PlayCount * PlayCount * HexGame) :=
  let test := (count <? limit)%Z in
  let count := (count + 1)%Z in
  if test
  then match n with
       | O => None
       | S n' =>
           '(draws, player, g) ← fill draws (m_play_total g) player g;
           '(won, g) ← checkWin SECOND g;
           let wins := if (won : bool) then (wins + 1)%Z else wins in
           let player := SECOND in
           testPlay_loop n' draws count wins limit player temp total_temp
                         (reset_tree temp total_temp g)
       end
  else Some (draws, count, wins, g).

Definition play_limit (size : MapSize) : PlayCount :=
  if 5 <? size
  then (cn_MAXIMUM_PLAY_LIMIT - 10 * (Z.of_nat size - 6))%Z
  else cn_MAXIMUM_PLAY_LIMIT.

(** The two operands of the division [testPlay] returns, with the state
    it leaves. *)
Definition testPlay_counts (row_idx col_idx : Coordinate) (draws : list nat) (g : HexGame)
  : option (PlayCount * PlayCount * list nat * HexGame) :=
  '(_, g) ← addPlay SECOND row_idx col_idx g;
  let temp := base g in
  let player := SECOND in
  let total_temp := m_play_total g in
  let limit := play_limit (getSize g) in
  '(draws, count, wins, g) ←
     testPlay_loop (Z.to_nat limit) draws 0%Z 0%Z limit player temp total_temp g;
  Some (wins, count, draws, g).

Definition testPlay (row_idx col_idx : Coordinate) (draws : list nat) (g : HexGame)
  : option (Probability * list nat * HexGame) :=
  '(wins, count, draws, g) ← testPlay_counts row_idx col_idx draws g;
  Some (mkProbability (mkPosition row_idx col_idx) (inject_Z wins / inject_Z count)%Q,
        draws, g).

(** [averageResults]; the first element of an empty vector is [None].
    The sum and the quotient are exact here, where the source rounds
    after every addition and after the division. *)
Definition averageResults (results : list Probability) : option Probability :=
  let total := foldl (λ total a, total + getProb a)%Q (0%Q) results in
  first ← head results;
  Some (mkProbability (mkPosition (getRow (pr_pos first)) (getCol (pr_pos first)))
                      (total / inject_Z (Z.of_nat (length results)))%Q).

(** [testPlay_threaded]: every worker runs [testPlay] on a copy of the
    game, so the game itself is not changed.  The workers share [rand()];
    [rnd k] is the list of values worker [k] draws from it, by argument
    as above. *)
Definition testPlay_threaded (row_idx col_idx : Coordinate) (rnd : nat → list nat)
    (g : HexGame) : option Probability :=
  results ← mapM (λ k, '(p, _, _) ← testPlay row_idx col_idx (rnd k) g; Some p)
                 (seq 0 cn_NUM_OF_THREADS);
  averageResults results.

(** The two loops of [computerPlay] that collect one estimate per free
    node, in row-major order. *)
Definition computerPlay_outputs (rnd : Coordinate → Coordinate → nat → list nat)
    (g : HexGame) : option (list Probability * HexGame) :=
  let temp_graph := base g in
  let total_temp := m_play_total g in
  for_each (λ s row_idx,
    for_each (λ '(outputs, g) col_idx,
      free ← isNodeFree row_idx col_idx (base g);
      if (free : bool)
      then p ← testPlay_threaded row_idx col_idx (rnd row_idx col_idx) g;
           Some (outputs ++ [p], reset_tree temp_graph total_temp g)
      else Some (outputs, g))
      s (seq 0 (getSize g)))
    ([], g) (seq 0 (getSize g)).

(** [computerPlay].  [sort] stands for
    [std::sort(first, last, compareProbability())], of which the standard
    fixes the contract [std_sort_contract] and libstdc++ gives the
    implementation [libstdcxx_sort] below; the first element of an empty
    [outputs] is [None]. *)
Definition computerPlay (sort : list Probability → list Probability)
    (rnd : Coordinate → Coordinate → nat → list nat) (g : HexGame) : option HexGame :=
  '(outputs, g) ← computerPlay_outputs rnd g;
  best ← head (sort outputs);
  '(_, g) ← addPlay SECOND (getRow (pr_pos best)) (getCol (pr_pos best)) g;
  Some g.

(** What the C++ standard promises of [std::sort] with the comparison
    [compareProbability]: the result is a rearrangement of the input in
    which no element compares before an earlier one.  The order of
    elements that compare equal is not promised. *)
Definition std_sort_contract (sort : list Probability → list Probability) : Prop :=
  ∀ l, Permutation (sort l) l ∧
       StronglySorted (λ a b, compareProbability b a = false) (sort l).

(** ** [std::sort] in libstdc++

    [computerPlay] leaves the order of its estimates to [std::sort], and
    which of several equal estimates comes first is a matter of the
    library.  The functions of this section follow [std::__sort] of GCC's
    libstdc++ (bits/stl_algo.h, GCC 12), function by function.  An
    iterator is an index into the vector [v]; dereferencing an iterator
    outside the vector, or moving one below [begin()], is [None].  The
    heap sort [__partial_sort] that [__introsort_loop] falls back to at
    depth limit 0 is not embedded: a run that reaches it is [None]. *)

Section libstdcxx_sort.
Context {A : Type} (comp : A → A → bool).

(** [enum { _S_threshold = 16 };] *)
Definition S_threshold : nat := 16.

(** [std::iter_swap(a, b)]. *)
Definition iter_swap (a b : nat) (v : list A) : option (list A) :=
  x ← v !! a; y ← v !! b; Some (<[b := x]> (<[a := y]> v)).

(** [__comp(a, b)] for two iterators: [comp] of the two elements. *)
Definition comp_iter (a b : nat) (v : list A) : option bool :=
  x ← v !! a; y ← v !! b; Some (comp x y).

Definition move_median_to_first (result a b c : nat) (v : list A) : option (list A) :=
  ab ← comp_iter a b v;
  if (ab : bool)
  then bc ← comp_iter b c v;
       if (bc : bool)
       then iter_swap result b v
       else ac ← comp_iter a c v;
            if (ac : bool) then iter_swap result c v else iter_swap result a v
  else ac ← comp_iter a c v;
       if (ac : bool)
       then iter_swap result a v
       else bc ← comp_iter b c v;
            if (bc : bool) then iter_swap result c v else iter_swap result b v.

(** The loop of [__unguarded_linear_insert]: [next] is [last - 1]. *)
Fixpoint unguarded_linear_insert_loop (val : A) (last : nat) (v : list A)
  : option (list A) :=
  match last with
  | O => None
  | S next =>
      y ← v !! next;
      if comp val y
      then unguarded_linear_insert_loop val next (<[last := y]> v)
      else Some (<[last := val]> v)
  end.

Definition unguarded_linear_insert (last : nat) (v : list A) : option (list A) :=
  val ← v !! last;
  unguarded_linear_insert_loop val last v.

(** [__insertion_sort]; [_GLIBCXX_MOVE_BACKWARD3(first, i, i + 1)]
    followed by [*first = val] moves the element at [i] to [first] and
    the elements of [[first, i)] one place up. *)
Definition insertion_sort (first last : nat) (v : list A) : option (list A) :=
  if decide (first = last)
  then Some v
  else for_each (λ v i,
         c ← comp_iter i first v;
         if (c : bool)
         then val ← v !! i;
              Some (take first v ++ val :: take (i - first) (drop first v) ++ drop (S i) v)
         else unguarded_linear_insert i v)
       v (seq (S first) (last - S first)).

Definition unguarded_insertion_sort (first last : nat) (v : list A) : option (list A) :=
  for_each (λ v i, unguarded_linear_insert i v) v (seq first (last - first)).

Definition final_insertion_sort (first last : nat) (v : list A) : option (list A) :=
  if S_threshold <? last - first
  then v ← insertion_sort first (first + S_threshold) v;
       unguarded_insertion_sort (first + S_threshold) last v
  else insertion_sort first last v.

(** [while (__comp(__first, __pivot)) ++__first;] with [n] a bound on
    the iterations; the loop leaves the vector before [n] reaches the
    length of [v]. *)
Fixpoint partition_up (n first pivot : nat) (v : list A) : option nat :=
  match n with
  | O => None
  | S n' =>
      c ← comp_iter first pivot v;
      if (c : bool) then partition_up n' (S first) pivot v else Some first
  end.

(** [while (__comp(__pivot, __last)) --__last;] *)
Fixpoint partition_down (pivot last : nat) (v : list A) : option nat :=
  c ← comp_iter pivot last v;
  if (c : bool)
  then match last with
       | O => None
       | S last' => partition_down pivot last' v
       end
  else Some last.

(** [__unguarded_partition]; [n] bounds the iterations of the outer
    loop, each of which advances [first]. *)
Fixpoint unguarded_partition (n first last pivot : nat) (v : list A)
  : option (nat * list A) :=
  match n with
  | O => None
  | S n' =>
      first ← partition_up (S (length v)) first pivot v;
      match last with
      | O => None
      | S last =>
          last ← partition_down pivot last v;
          if negb (first <? last)
          then Some (first, v)
          else v ← iter_swap first last v;
               unguarded_partition n' (S first) last pivot v
      end
  end.

Definition unguarded_partition_pivot (first last : nat) (v : list A)
  : option (nat * list A) :=
  let mid := first + (last - first) / 2 in
  v ← move_median_to_first first (first + 1) mid (last - 1) v;
  unguarded_partition (S (length v)) (first + 1) last first v.

(** [__introsort_loop]: every iteration of the [while] loop takes one
    from [depth_limit], and goes on with [last = cut]. *)
Fixpoint introsort_loop (depth_limit first last : nat) (v : list A) : option (list A) :=
  if S_threshold <? last - first
  then match depth_limit with
       | O => None
       | S depth_limit =>
           '(cut, v) ← unguarded_partition_pivot first last v;
           v ← introsort_loop depth_limit cut last v;
           introsort_loop depth_limit first cut v
       end
  else Some v.

(** [std::__sort(v.begin(), v.end(), comp)]; [std::__lg] is the binary
    logarithm rounded down. *)
Definition std_sort_run (v : list A) : option (list A) :=
  let first := 0 in
  let last := length v in
  if decide (first = last)
  then Some v
  else v ← introsort_loop (Nat.log2 (last - first) * 2) first last v;
       final_insertion_sort first last v.
End libstdcxx_sort.

(** [std::sort(outputs.begin(), outputs.end(), compareProbability())] as
    libstdc++ runs it. *)
Definition libstdcxx_sort (outputs : list Probability) : list Probability :=
  default outputs (std_sort_run compareProbability outputs).

(** ** main.cpp

    The program reads the board size and, on each human turn, a line from
    which it extracts the two [int]s [row_idx] and [col_idx]; what it
    prints is not part of the embedding.  The numbers read are the inputs
    of the definitions below. *)

(** The argument of [HexGame hex_game(...)]: the number read into
    [game_size] when it lies between the two limits, the default size
    otherwise, converted to [BoardSize]. *)
Definition main_board_size (game_size : Z) : MapSize :=
  to_Coordinate
    (if (game_size <=? Z.of_nat cn_MAX_GAME_SIZE)%Z &&
        (game_size >=? Z.of_nat cn_MIN_GAME_SIZE)%Z
     then game_size
     else Z.of_nat cn_DEFAULT_GAME_SIZE).

(** Where the program is: at the head of the [while (true)] loop with
    [player] to move, or past the [break] with [player] the winner it
    announces. *)
Inductive MainState :=
  | Playing (player : Player) (g : HexGame)
  | Finished (player : Player) (g : HexGame).

(** One pass through the body of the loop.  On the computer's turn the
    move is made by [computerPlay], with [rnd] the values [rand()] returns
    during that call, and the test [||] does not reach [playInterface];
    on a human turn [row_idx] and [col_idx] are converted to [Coordinate]
    to be passed to [playInterface]. *)
Definition main_turn (computer : bool) (sort : list Probability → list Probability)
    (rnd : Coordinate → Coordinate → nat → list nat) (row_idx col_idx : Z)
    (player : Player) (g : HexGame) : option MainState :=
  let computer_turn := bool_decide (player = SECOND) && computer in
  g ← (if computer_turn then computerPlay sort rnd g else Some g);
  '(moved, g) ← (if computer_turn then Some (true, g)
                 else playInterface player (to_Coordinate row_idx)
                                    (to_Coordinate col_idx) g);
  if (moved : bool)
  then '(won, g) ← checkWin player g;
       Some (if (won : bool) then Finished player g else Playing (next_player player) g)
  else Some (Playing player g).

(** The states the program goes through from [s0], whatever is typed and
    whatever [rand()] returns. *)
Inductive main_reaches (computer : bool) (sort : list Probability → list Probability)
    (s0 : MainState) : MainState → Prop :=
  | main_reaches_start : main_reaches computer sort s0 s0
  | main_reaches_turn player g rnd row_idx col_idx s :
      main_reaches computer sort s0 (Playing player g) →
      main_turn computer sort rnd row_idx col_idx player g = Some s →
      main_reaches computer sort s0 s.

(** The state in which [main] enters the loop. *)
Definition main_start (uninit : Coordinate → Coordinate → bool) (game_size : Z)
  : MainState :=
  Playing FIRST (HexGame_ctor uninit (main_board_size game_size)).

(** The loop run for one pass per element of [turns], or until the
    [break].  An element is the pair of numbers extracted from the line
    read in that pass; on the computer's turn no line is read and the
    element is not looked at. *)
Fixpoint main_run (computer : bool) (sort : list Probability → list Probability)
    (rnd : Coordinate → Coordinate → nat → list nat) (turns : list (Z * Z))
    (s : MainState) : option MainState :=
  match turns, s with
  | (row_idx, col_idx) :: turns', Playing player g =>
      s' ← main_turn computer sort rnd row_idx col_idx player g;
      main_run computer sort rnd turns' s'
  | _, _ => Some s
  end.

(** ** hex_game.h: [display]

    A [std::string] is the list of its characters, and what [display]
    writes to [std::cout] is the list of the characters written, [endl]
    being the newline character.  [CLEAR_SCREEN()] runs a command of the
    system and is not part of the embedding. *)

(** A string literal. *)
Definition str (s : string) : list ascii := String.list_ascii_of_string s.

(** [std::to_string] of an [int]. *)
Definition to_string (n : Z) : list ascii := str (pretty n).

Arguments to_string : simpl never.

Definition endl : list ascii := ["010"%char].

(** The lambda [buildLine]: [append] is appended [size] times, no time
    when [size] is not positive. *)
Definition buildLine (st append : list ascii) (size : Z) : list ascii :=
  Nat.iter (Z.to_nat size) (λ st, st ++ append) st.

(** The lambda [buildColNum].  The state of its loop is [ret], [col_mod]
    and [row_print_val]; [col_mod++ == 1] increments [col_mod] whatever
    the test gives. *)
Definition buildColNum (top : list ascii) (limit : Z) : list ascii :=
  (foldl (λ '(ret, col_mod, row_print_val) a,
            if Ascii.eqb a " "
            then (ret ++ [a], col_mod, row_print_val)
            else if (col_mod =? 1)%Z
                 then if negb (row_print_val =? limit)%Z
                      then (ret ++ to_string row_print_val, 0%Z, (row_print_val + 1)%Z)
                      else (ret, 0%Z, row_print_val)
                 else (ret ++ str " ", (col_mod + 1)%Z, row_print_val))
         ([], 0%Z, 0%Z) top).1.1.

(** [drawNode]. *)
Definition drawNode (row col : Coordinate) (g : HexGame) : option NodeColour :=
  n ← getNode row col (base g); Some (m_colour n).

(** The character written for a node. *)
Definition symbol (state : NodeColour) : ascii :=
  match state with WHITE => "." | GREEN => "G" | RED => "R" end%char.

(** The loop over the characters of [first] for the row [row_idx]: the
    state is what has been written and [col_idx]. *)
Definition display_row (row_idx : Coordinate) (first : list ascii) (g : HexGame)
    (out : list ascii) : option (list ascii * Coordinate) :=
  for_each (λ '(out, col_idx) a,
              if Ascii.eqb a "%"
              then state ← drawNode row_idx col_idx g;
                   Some (out ++ [symbol state], S col_idx)
              else Some (out ++ [a], col_idx))
           (out, 0) first.

(** [display]: the characters it writes.  The escape in the literal
    [" \%  G"] of the source stands for the character [%]. *)
Definition display (g : HexGame) : option (list ascii) :=
  let size := getSize g in
  let topBottom := buildLine (str " ") (str "R ") ((Z.of_nat size + 1) * 2) in
  let columnNumbering := buildColNum topBottom (Z.of_nat size) in
  let out := columnNumbering ++ endl ++ topBottom ++ endl in
  let first := buildLine (str " G ") (str " % _") (Z.of_nat size - 1) ++ str " %  G" in
  let second := buildLine (str " G ") (str " \ /") (Z.of_nat size - 1) ++ str " \  G" in
  '(out, space_idx, space) ←
    for_each (λ '(out, space_idx, space) row_idx,
                let out := out ++ to_string (Z.of_nat row_idx) in
                '(out, _) ← display_row row_idx first g out;
                let out := out ++ str " " ++ to_string (Z.of_nat row_idx) ++ endl in
                let space := replicate (Z.to_nat space_idx) " "%char in
                let space_idx := (space_idx + 1)%Z in
                let out := out ++ space ++ str " " in
                if negb (row_idx + 1 =? size)
                then let out := out ++ second ++ endl in
                     let space := replicate (Z.to_nat space_idx) " "%char in
                     let space_idx := (space_idx + 1)%Z in
                     Some (out ++ space, space_idx, space)
                else Some (out, space_idx, space))
             (out, 1%Z, []) (seq 0 size);
  Some (out ++ topBottom ++ endl ++ str " " ++ space ++ columnNumbering ++ endl).

(** ** Observations of a game

    The properties below read a game through its public view: the colour
    and the traverse mark of the node at a coordinate. *)

Definition colour_at (g : HexGame) (p : Position) : NodeColour :=
  match getNode (getRow p) (getCol p) (base g) with
  | Some n => m_colour n
  | None => WHITE
  end.

Definition traversed_at (g : HexGame) (p : Position) : bool :=
  match getNode (getRow p) (getCol p) (base g) with
  | Some n => m_traversed n
  | None => false
  end.

Definition on_board (size : MapSize) (p : Position) : Prop :=
  m_row p < size ∧ m_col p < size.

(** The number of nodes of the tree whose colour is not [WHITE]. *)
Definition played_nodes (b : Graph) : Z :=
  Z.of_nat (length (filter (λ n, m_colour n ≠ WHITE) (concat (m_tree b)))).

(** What a node adds to [played_nodes]. *)
Definition played_weight (n : Node) : Z :=
  if decide (m_colour n ≠ WHITE) then 1%Z else 0%Z.

(** The shape the [Graph] constructor gives the tree and no operation
    changes: [size] rows of [size] nodes, each node holding its own
    coordinates and the connections its constructor computed. *)
Definition wf_graph (b : Graph) : Prop :=
  length (m_tree b) = m_size b ∧
  ∀ i row_v, m_tree b !! i = Some row_v →
    length row_v = m_size b ∧
    ∀ j n, row_v !! j = Some n →
      n_pos n = mkPosition i j ∧
      m_connections n = Node_connections i j (m_size b).

Definition wf_game (g : HexGame) : Prop :=
  wf_graph (base g) ∧
  m_limits g = mkPosition (to_Coordinate (Z.of_nat (getSize g) - 1))
                          (to_Coordinate (Z.of_nat (getSize g) - 1)).

(** No node carries a traverse mark. *)
Definition marks_clear (g : HexGame) : Prop :=
  ∀ p, traversed_at g p = false.

(** No node is [WHITE]. *)
Definition board_full (g : HexGame) : Prop :=
  ∀ p, on_board (getSize g) p → colour_at g p ≠ WHITE.

(** The invariant of the play counters. *)
Definition counters_ok (g : HexGame) : Prop :=
  m_play_total g = played_nodes (base g) ∧
  m_play_maximum g = (Z.of_nat (getSize g) * Z.of_nat (getSize g))%Z.

(** Two games with the same size, limits, counters and colours: what an
    operation that only touches traverse marks preserves. *)
Definition same_colours (g g' : HexGame) : Prop :=
  getSize g' = getSize g ∧ m_limits g' = m_limits g ∧
  m_play_total g' = m_play_total g ∧ m_play_maximum g' = m_play_maximum g ∧
  played_nodes (base g') = played_nodes (base g) ∧
  ∀ p, colour_at g' p = colour_at g p.

Definition all_positions (size : MapSize) : list Position :=
  row ← seq 0 size; col ← seq 0 size; [mkPosition row col].

(** ** The six-offset adjacency and chains *)

Definition six_offsets : list (Z * Z) :=
  [(-1, 0); (1, 0); (0, -1); (0, 1); (-1, 1); (1, -1)]%Z.

Definition offset (p q : Position) : Z * Z :=
  (Z.of_nat (m_row q) - Z.of_nat (m_row p), Z.of_nat (m_col q) - Z.of_nat (m_col p))%Z.

Definition adjacent (p q : Position) : Prop := offset p q ∈ six_offsets.

(** Consecutive cells of [l] are adjacent. *)
Fixpoint chain_adjacent (l : list Position) : Prop :=
  match l with
  | p :: l' => match l' with q :: _ => adjacent p q | [] => True end ∧ chain_adjacent l'
  | [] => True
  end.

(** The border [checkWin] seeds its search from, and the border whose
    nodes [findPath] accepts as the goal: columns [0] and [size - 1] for
    the first player, rows [0] and [size - 1] for the second. *)
Definition starting_border (player : Player) (p : Position) : Prop :=
  match player with FIRST => m_col p = 0 | SECOND => m_row p = 0 end.

Definition ending_border (player : Player) (size : MapSize) (p : Position) : Prop :=
  match player with FIRST => m_col p = size - 1 | SECOND => m_row p = size - 1 end.

(** A chain of [player]'s colour from its starting to its ending border. *)
Definition winning_chain (g : HexGame) (player : Player) (l : list Position) : Prop :=
  (∀ p, p ∈ l → on_board (getSize g) p ∧ colour_at g p = convertPlayer player) ∧
  chain_adjacent l ∧
  ∃ a b, head l = Some a ∧ last l = Some b ∧
         starting_border player a ∧ ending_border player (getSize g) b.

(** Connection of two cells through adjacent cells that all satisfy [ok]. *)
Inductive conn (ok : Position → Prop) : Position → Position → Prop :=
  | conn_refl p : ok p → conn ok p p
  | conn_step p q r : ok p → adjacent p q → conn ok q r → conn ok p r.

(** ** Neighbour counts, checked by evaluation for the sizes of the game *)

Definition border_index (size : MapSize) (x : Coordinate) : bool :=
  (x =? 0) || (x =? size - 1).

(** Six neighbours inside the board, four on an edge, and at the corners
    two where row and column agree and three where they differ. *)
Definition expected_neighbours (size : MapSize) (row col : Coordinate) : nat :=
  match border_index size row, border_index size col with
  | false, false => 6
  | true, true => if row =? col then 2 else 3
  | _, _ => 4
  end.

Definition neighbour_counts_ok (size : MapSize) : bool :=
  forallb (λ row, forallb (λ col,
      length (Node_connections row col size) =? expected_neighbours size row col)
    (seq 0 size)) (seq 0 size).

(** ** Notions used to state what the search does *)

(** [p] is a node of the board of colour [colour]. *)
Definition holds (g : HexGame) (colour : NodeColour) (p : Position) : Prop :=
  on_board (getSize g) p ∧ colour_at g p = colour.

(** The comparison [findPath] makes to recognise a border node. *)
Definition is_goal (colour : NodeColour) (g : HexGame) (p : Position) : Prop :=
  if bool_decide (colour = GREEN)
  then getCol p = getCol (m_limits g)
  else getRow p = getRow (m_limits g).

#[global] Instance is_goal_dec colour g p : Decision (is_goal colour g p).
Proof. unfold is_goal. destruct (bool_decide (colour = GREEN)); apply _. Defined.

(** What a call of [findPath] on [net] from [g] guarantees of its result
    [r] and of the game [g'] it leaves. *)
Definition findPath_post (colour : NodeColour) (net : Connections) (g : HexGame)
    (r : bool) (g' : HexGame) : Prop :=
  wf_game g' ∧ same_colours g g' ∧
  (∀ p, traversed_at g p = true → traversed_at g' p = true) ∧
  (r = true → ∃ p e, p ∈ net ∧ conn (holds g colour) p e ∧ is_goal colour g e) ∧
  (r = false →
     (∀ p, p ∈ net → holds g colour p →
           traversed_at g' p = true ∧ ¬ is_goal colour g p) ∧
     (∀ p, traversed_at g' p = true → traversed_at g p = false →
           ∀ q, adjacent p q → holds g colour q →
                traversed_at g' q = true ∧ ¬ is_goal colour g q)).

(** The number of nodes of the board without a traverse mark. *)
Definition unmarked (g : HexGame) : nat :=
  length (filter (λ p, traversed_at g p = false) (all_positions (getSize g))).

(** The node of the starting border [checkWin] looks at for index [idx]. *)
Definition seed (player : Player) (idx : Coordinate) : Position :=
  match player with FIRST => mkPosition idx 0 | SECOND => mkPosition 0 idx end.

(** ** Move selection: the estimates and a sort that meets the contract *)

(** The first element of [outputs] whose estimate no other exceeds: the
    candidate the row-major tie-break would choose. *)
Fixpoint earliest_best (outputs : list Probability) : option Probability :=
  match outputs with
  | [] => None
  | x :: outputs' =>
      match earliest_best outputs' with
      | Some y => if compareProbability y x then Some y else Some x
      | None => Some x
      end
  end.

(** The tie-break rule "the earliest of the best estimates is played",
    as a property of [computerPlay] run with the sort [sort]. *)
Definition earliest_tie_break (sort : list Probability → list Probability) : Prop :=
  ∀ rnd g outputs g1 g' first,
    wf_game g →
    computerPlay_outputs rnd g = Some (outputs, g1) →
    computerPlay sort rnd g = Some g' →
    earliest_best outputs = Some first →
    colour_at g' (pr_pos first) = convertPlayer SECOND.

(** An insertion sort by [compareProbability] that places an element
    after the elements it does not compare before.  It meets
    [std_sort_contract]; among elements that compare equal the one that
    came last in the input comes first in the result. *)
Fixpoint insert_after (x : Probability) (l : list Probability) : list Probability :=
  match l with
  | [] => [x]
  | y :: l' => if compareProbability x y then x :: y :: l' else y :: insert_after x l'
  end.

Definition sort_ties_last (l : list Probability) : list Probability :=
  foldr insert_after [] l.

(** ** The states a game goes through *)

(** The games reachable from [g0] through the public operations, each
    taken when it returns. *)
Inductive reachable_from (g0 : HexGame) : HexGame → Prop :=
  | reachable_start :
      reachable_from g0 g0
  | reachable_playInterface g player row col valid g' :
      reachable_from g0 g → playInterface player row col g = Some (valid, g') →
      reachable_from g0 g'
  | reachable_computerPlay g sort rnd g' :
      reachable_from g0 g → computerPlay sort rnd g = Some g' → reachable_from g0 g'
  | reachable_testPlay g row col draws p draws' g' :
      reachable_from g0 g → testPlay row col draws g = Some (p, draws', g') →
      reachable_from g0 g'
  | reachable_checkWin g player r g' :
      reachable_from g0 g → checkWin player g = Some (r, g') → reachable_from g0 g'.

(** The games reachable from construction. *)
Definition reachable (g : HexGame) : Prop :=
  ∃ uninit size, reachable_from (HexGame_ctor uninit size) g.

(** ** The no-draw property: definitions

    The proof that a full board has exactly one winner goes through the
    game of Y on a triangular board, whose winner is found by shrinking
    the board one row at a time.  Boards are colourings of positions by a
    boolean; cells keep the six-offset adjacency. *)

(** The triangular board of size [n]: the cells with [row + col < n].
    Its three sides are [row = 0], [col = 0] and [row + col = n - 1]. *)
Definition y_cell (n : nat) (f : Position → bool) (x : bool) (p : Position) : Prop :=
  m_row p + m_col p < n ∧ f p = x.

(** Colour [x] wins the Y board: one connected group of its cells
    touches the three sides. *)
Definition y_wins (n : nat) (f : Position → bool) (x : bool) : Prop :=
  ∃ a b c, conn (y_cell n f x) a b ∧ conn (y_cell n f x) a c ∧
           m_row a = 0 ∧ m_col b = 0 ∧ m_row c + m_col c + 1 = n.

Definition majority (a b c : bool) : bool := (a && b) || (a && c) || (b && c).

(** The board one size smaller: each cell takes the majority colour of
    the small triangle of three cells it stands for. *)
Definition y_reduce (f : Position → bool) (t : Position) : bool :=
  majority (f t)
           (f (mkPosition (S (m_row t)) (m_col t)))
           (f (mkPosition (m_row t) (S (m_col t)))).

(** [p] is one of the three cells the cell [t] of the smaller board
    stands for. *)
Definition in_triangle (t p : Position) : Prop :=
  p = t ∨ p = mkPosition (S (m_row t)) (m_col t) ∨ p = mkPosition (m_row t) (S (m_col t)).

(** The square board of size [size] with colouring [h]. *)
Definition hex_cell (size : nat) (h : Position → bool) (x : bool) (p : Position) : Prop :=
  on_board size p ∧ h p = x.

(** Colour [x] joins row 0 to row [size - 1]. *)
Definition wins_rows (size : nat) (h : Position → bool) (x : bool) : Prop :=
  ∃ a b, conn (hex_cell size h x) a b ∧ m_row a = 0 ∧ m_row b + 1 = size.

(** Colour [x] joins column 0 to column [size - 1]. *)
Definition wins_cols (size : nat) (h : Position → bool) (x : bool) : Prop :=
  ∃ a b, conn (hex_cell size h x) a b ∧ m_col a = 0 ∧ m_col b + 1 = size.

(** The square board inside the Y board of size [2 * size - 1]: the cells
    below the square belong to the colour [x] that plays the rows, the
    cells to its right to the other colour. *)
Definition y_embed (size : nat) (x : bool) (h : Position → bool) (p : Position) : bool :=
  if size <=? m_row p then x else if size <=? m_col p then negb x else h p.

Definition transpose (p : Position) : Position := mkPosition (m_col p) (m_row p).

(** The colouring of a full board: red or not. *)
Definition is_red (g : HexGame) (p : Position) : bool :=
  bool_decide (colour_at g p = RED).

(** ** The games of the examples *)

(** The game on which the closing examples are run: a board of size 3
    whose storage held no traverse marks. *)
Definition game3 : HexGame := HexGame_ctor (λ _ _, false) 3.

(** A game after a list of moves made through [playInterface]. *)
Definition play_moves (moves : list (Player * Coordinate * Coordinate)) (g : HexGame)
  : HexGame :=
  foldl (λ g '(player, row, col),
           match playInterface player row col g with
           | Some (_, g') => g'
           | None => g
           end) g moves.

(** The first player holds row 0 of [game3]: a chain from column 0 to
    column 2. *)
Definition game3_green_row : HexGame :=
  play_moves [(FIRST, 0, 0); (FIRST, 0, 1); (FIRST, 0, 2)] game3.

(** The same moves on a game built over storage that held a traverse
    mark in every node. *)
Definition game3_marked_green_row : HexGame :=
  play_moves [(FIRST, 0, 0); (FIRST, 0, 1); (FIRST, 0, 2)]
             (HexGame_ctor (λ _ _, true) 3).

(** A full board of size 3 played over such storage: the colours are
    those of [game3_full] below.

<<
        G R G        row 0
         R G R       row 1
          G R G      row 2
>>
    Green joins column 0 to column 2 through [(2, 0)], [(1, 1)] and
    [(0, 2)]; red has no chain from row 0 to row 2. *)
Definition game3_marked_full : HexGame :=
  play_moves [(FIRST, 0, 0); (SECOND, 0, 1); (FIRST, 0, 2);
              (SECOND, 1, 0); (FIRST, 1, 1); (SECOND, 1, 2);
              (FIRST, 2, 0); (SECOND, 2, 1); (FIRST, 2, 2)]
             (HexGame_ctor (λ _ _, true) 3).

(** Random draws that visit the nine cells of a board of size 3 in
    row-major order, again and again. *)
Definition cycle3 (rounds : nat) : list nat :=
  concat (replicate rounds [0; 0; 0; 1; 0; 2; 1; 0; 1; 1; 1; 2; 2; 0; 2; 1; 2; 2]).

(** The draws every worker sees in the closing examples. *)
Definition draws3 : Coordinate → Coordinate → nat → list nat :=
  λ _ _ _, cycle3 200.

(** A position with the second player to move: four green and three red
    nodes, [(0, 2)] and [(1, 1)] empty.

<<
        G G .        row 0
         G . G       row 1
          R R R      row 2
>>
    Red joins row 0 to row 2 once it holds both [(0, 2)] and [(1, 1)];
    green joins column 0 to column 2 once it holds either of them. *)
Definition game3_two_left : HexGame :=
  play_moves [(FIRST, 0, 0); (SECOND, 2, 1); (FIRST, 0, 1); (SECOND, 2, 2);
              (FIRST, 1, 0); (SECOND, 2, 0); (FIRST, 1, 2)] game3.

(** A full board of size 3. *)
Definition game3_full : HexGame :=
  play_moves [(FIRST, 0, 0); (SECOND, 0, 1); (FIRST, 0, 2);
              (SECOND, 1, 0); (FIRST, 1, 1); (SECOND, 1, 2);
              (FIRST, 2, 0); (SECOND, 2, 1); (FIRST, 2, 2)] game3.

(** A board of size 5 on which the first player holds row 0, a chain
    from column 0 to column 4, and the other twenty nodes are empty. *)
Definition game5_green_row : HexGame :=
  play_moves [(FIRST, 0, 0); (FIRST, 0, 1); (FIRST, 0, 2); (FIRST, 0, 3); (FIRST, 0, 4)]
             (HexGame_ctor (λ _ _, false) 5).

(** Random draws that visit the twenty-five cells of a board of size 5
    in row-major order, again and again. *)
Definition cycle5 (rounds : nat) : list nat :=
  concat (replicate rounds
    (concat ((λ row, concat ((λ col, [row; col]) <$> seq 0 5)) <$> seq 0 5))).

Definition draws5 : Coordinate → Coordinate → nat → list nat :=
  λ _ _ _, cycle5 160.

(** The estimates [computerPlay] collects on [game5_green_row], one for
    each of the twenty empty nodes in row-major order.  Every worker
    returns 0/151, and the mean of the ten values is kept as the fraction
    [averageResults] computes, 0/(10 * 151^10). *)
Definition game5_estimates : list Probability :=
  (λ p, mkProbability p (0 # 61626779503367185140010)) <$>
    filter (λ p, 0 <? getRow p) (all_positions 5).

(** ** Counting stones and reading the random draws *)

(** The number of nodes of the board whose colour is [colour]. *)
Definition count_colour (colour : NodeColour) (g : HexGame) : nat :=
  length (filter (λ p, colour_at g p = colour) (all_positions (getSize g))).

(** The cells the values [calls], in the order [rand()] returned them,
    select on a board of size [size] in a build that evaluates the two
    arguments of [addPlay] in the order [order]: two values for each cell,
    each reduced modulo the size. *)
Fixpoint drawn_cells (order : ArgumentOrder) (size : MapSize) (calls : list nat)
  : list Position :=
  match calls with
  | c1 :: c2 :: calls' =>
      match order with
      | RowFirst => mkPosition (c1 mod size) (c2 mod size)
      | ColumnFirst => mkPosition (c2 mod size) (c1 mod size)
      end :: drawn_cells order size calls'
  | _ => []
  end.

(** ** The invariant of the loop of [main] *)

Definition no_winner (g : HexGame) : Prop :=
  ∀ player l, ¬ winning_chain g player l.

(** At the head of the loop nobody has won, the board is not full and
    green has placed as many stones as red, or one more when red is to
    move; a traverse mark can be present only before the first stone is
    placed.  Past the [break] the winner has a chain and the other player
    has none. *)
Definition main_invariant (s : MainState) : Prop :=
  match s with
  | Playing player g =>
      wf_game g ∧ counters_ok g ∧
      cn_MIN_GAME_SIZE ≤ getSize g ≤ cn_MAX_GAME_SIZE ∧
      count_colour GREEN g =
        count_colour RED g + match player with FIRST => 0 | SECOND => 1 end ∧
      (marks_clear g ∨ count_colour GREEN g = 0) ∧
      no_winner g ∧ ¬ board_full g
  | Finished player g =>
      wf_game g ∧ counters_ok g ∧
      cn_MIN_GAME_SIZE ≤ getSize g ≤ cn_MAX_GAME_SIZE ∧
      count_colour GREEN g =
        count_colour RED g + match player with FIRST => 1 | SECOND => 0 end ∧
      marks_clear g ∧
      (∃ l, winning_chain g player l) ∧
      ∀ l, ¬ winning_chain g (next_player player) l
  end.

(** [game3] after the first player has opened at the centre. *)
Definition game3_centre : HexGame := play_moves [(FIRST, 1, 1)] game3.

(** ** The picture [display] draws *)

(** The border line: a space and, for each of the [size + 1] pairs, the
    four characters [R R ] (the last a space). *)
Definition display_border (size : MapSize) : list ascii :=
  str " " ++ concat (replicate (size + 1) (str "R R ")).

(** The line of column numbers. *)
Definition display_columns (size : MapSize) : list ascii :=
  str " " ++ concat ((λ col, str "  " ++ to_string (Z.of_nat col) ++ str " ") <$> seq 0 size)
          ++ str "   ".

(** The nodes of row [row] between the two [G] of its line. *)
Definition display_cells (g : HexGame) (row : Coordinate) : list ascii :=
  str " G " ++
  concat ((λ col, str " " ++ [symbol (colour_at g (mkPosition row col))] ++ str " _")
            <$> seq 0 (getSize g - 1)) ++
  str " " ++ [symbol (colour_at g (mkPosition row (getSize g - 1)))] ++ str "  G".

(** The line of slashes between two rows. *)
Definition display_slashes (size : MapSize) : list ascii :=
  str " G " ++ concat (replicate (size - 1) (str " \ /")) ++ str " \  G".

(** What the pass of the loop for row [row] writes: the rest of the line
    of the row, the line of slashes unless the row is the last, and the
    indentation of the line that follows. *)
Definition display_block (g : HexGame) (row : Coordinate) : list ascii :=
  to_string (Z.of_nat row) ++ display_cells g row ++ str " " ++
  to_string (Z.of_nat row) ++ endl ++ replicate (2 * row + 2) " "%char ++
  (if row + 1 =? getSize g then []
   else display_slashes (getSize g) ++ endl ++ replicate (2 * row + 2) " "%char).

(** The whole picture. *)
Definition display_layout (g : HexGame) : list ascii :=
  display_columns (getSize g) ++ endl ++ display_border (getSize g) ++ endl ++
  concat (display_block g <$> seq 0 (getSize g)) ++
  display_border (getSize g) ++ endl ++
  str " " ++ replicate (2 * getSize g - 1) " "%char ++ display_columns (getSize g) ++ endl.

(** The bodies of the two loops of [display], named to state what one
    pass does. *)
Definition display_step (row_idx : Coordinate) (g : HexGame)
  : list ascii * Coordinate → ascii → option (list ascii * Coordinate) :=
  λ '(out, col_idx) a,
    if Ascii.eqb a "%"
    then state ← drawNode row_idx col_idx g;
         Some (out ++ [symbol state], S col_idx)
    else Some (out ++ [a], col_idx).

Definition display_pass (g : HexGame) (first second : list ascii)
  : list ascii * Z * list ascii → Coordinate → option (list ascii * Z * list ascii) :=
  λ '(out, space_idx, space) row_idx,
    let out := out ++ to_string (Z.of_nat row_idx) in
    '(out, _) ← display_row row_idx first g out;
    let out := out ++ str " " ++ to_string (Z.of_nat row_idx) ++ endl in
    let space := replicate (Z.to_nat space_idx) " "%char in
    let space_idx := (space_idx + 1)%Z in
    let out := out ++ space ++ str " " in
    if negb (row_idx + 1 =? getSize g)
    then let out := out ++ second ++ endl in
         let space := replicate (Z.to_nat space_idx) " "%char in
         let space_idx := (space_idx + 1)%Z in
         Some (out ++ space, space_idx, space)
    else Some (out, space_idx, space).

(** * Properties *)

(** ** The tree and its accessors *)

Lemma getNode_Some row col b n :
  getNode row col b = Some n →
  row < m_size b ∧ col < m_size b ∧
  ∃ row_v, m_tree b !! row = Some row_v ∧ row_v !! col = Some n.
Proof.
  unfold getNode. intros H.
  destruct (row <? m_size b) eqn:Hr; [|done].
  destruct (col <? m_size b) eqn:Hc; [|done].
  apply Nat.ltb_lt in Hr, Hc. simpl in H.
  destruct (m_tree b !! row) as [row_v|] eqn:Hrow; [|done].
  simpl in H. eauto.
Qed.

Lemma getNode_wf row col b :
  wf_graph b → row < m_size b → col < m_size b →
  ∃ n, getNode row col b = Some n ∧ n_pos n = mkPosition row col ∧
       m_connections n = Node_connections row col (m_size b).
Proof.
  intros [Hlen Hrows] Hr Hc. unfold getNode.
  apply Nat.ltb_lt in Hr as Hr', Hc as Hc'. rewrite Hr', Hc'. cbn [andb].
  destruct (lookup_lt_is_Some_2 (m_tree b) row) as [row_v Hrow]; [lia|].
  rewrite Hrow. cbn [mbind option_bind].
  destruct (Hrows _ _ Hrow) as [Hl Hn].
  destruct (lookup_lt_is_Some_2 row_v col) as [n Hcol]; [lia|].
  exists n. split; [done|]. eauto.
Qed.

Lemma getNode_wf_inv row col b n :
  wf_graph b → getNode row col b = Some n →
  n_pos n = mkPosition row col ∧
  m_connections n = Node_connections row col (m_size b).
Proof.
  intros Hwf H. destruct (getNode_Some _ _ _ _ H) as (Hr & Hc & _).
  destruct (getNode_wf row col b Hwf Hr Hc) as (n' & Hn' & ?).
  rewrite H in Hn'. by simplify_eq.
Qed.

Lemma getNode_None row col b :
  wf_graph b → getNode row col b = None → ¬ (row < m_size b ∧ col < m_size b).
Proof.
  intros Hwf H [Hr Hc].
  destruct (getNode_wf row col b Hwf Hr Hc) as (n & Hn & _). congruence.
Qed.

(** [updNode] changes the one node and nothing else. *)
Lemma getNode_updNode f row col b b' r c :
  updNode f row col b = Some b' →
  getNode r c b' =
    if bool_decide (r = row ∧ c = col) then f <$> getNode r c b else getNode r c b.
Proof.
  unfold updNode. intros H.
  destruct (getNode row col b) as [n0|] eqn:Hn0; [|done]. simpl in H.
  injection H as <-. unfold getNode. simpl.
  destruct ((r <? m_size b) && (c <? m_size b)) eqn:Hin; [|by case_bool_decide].
  destruct (decide (r = row)) as [->|Hr].
  - rewrite list_lookup_alter_eq.
    destruct (m_tree b !! row) as [row_v|]; simpl; [|by case_bool_decide].
    destruct (decide (c = col)) as [->|Hc].
    + rewrite list_lookup_alter_eq. by rewrite bool_decide_eq_true_2.
    + rewrite list_lookup_alter_ne by done. rewrite bool_decide_eq_false_2; [done|]. tauto.
  - rewrite list_lookup_alter_ne by done. rewrite bool_decide_eq_false_2; [done|]. tauto.
Qed.

Lemma updNode_size f row col b b' :
  updNode f row col b = Some b' → m_size b' = m_size b.
Proof.
  unfold updNode. destruct (getNode row col b); [|done]. simpl. by intros [= <-].
Qed.

Lemma updNode_is_Some f row col b :
  wf_graph b → row < m_size b → col < m_size b → is_Some (updNode f row col b).
Proof.
  intros Hwf Hr Hc. destruct (getNode_wf _ _ _ Hwf Hr Hc) as (n & Hn & _).
  unfold updNode. rewrite Hn. simpl. eauto.
Qed.

Lemma updNode_in_range f row col b b' :
  updNode f row col b = Some b' → row < m_size b ∧ col < m_size b.
Proof.
  unfold updNode. destruct (getNode row col b) eqn:Hn; [|done].
  intros _. apply getNode_Some in Hn. tauto.
Qed.

Lemma updNode_wf f row col b b' :
  (∀ n, n_pos (f n) = n_pos n ∧ m_connections (f n) = m_connections n) →
  wf_graph b → updNode f row col b = Some b' → wf_graph b'.
Proof.
  intros Hf [Hlen Hrows]. unfold updNode.
  destruct (getNode row col b) as [old|]; [|done]. simpl. intros [= <-].
  split; simpl.
  - by rewrite length_alter.
  - intros i row_v. destruct (decide (i = row)) as [->|Hi].
    + rewrite list_lookup_alter_eq.
      destruct (m_tree b !! row) as [row0|] eqn:Hrow; [|done]. simpl. intros [= <-].
      destruct (Hrows _ _ Hrow) as [Hl Hn]. split; [by rewrite length_alter|].
      intros j n. destruct (decide (j = col)) as [->|Hj].
      * rewrite list_lookup_alter_eq.
        destruct (row0 !! col) as [n0|] eqn:Hn0; [|done]. simpl. intros [= <-].
        destruct (Hf n0) as [-> ->]. eauto.
      * rewrite list_lookup_alter_ne by done. eauto.
    + rewrite list_lookup_alter_ne by done. eauto.
Qed.

Lemma setColour_keeps colour n :
  n_pos (setColour colour n) = n_pos n ∧
  m_connections (setColour colour n) = m_connections n.
Proof. done. Qed.

Lemma Node_setTraverse_keeps value n :
  n_pos (Node_setTraverse value n) = n_pos n ∧
  m_connections (Node_setTraverse value n) = m_connections n.
Proof. done. Qed.

(** The tree of the constructor is well formed. *)
Lemma Graph_ctor_wf uninit size : wf_graph (Graph_ctor uninit size).
Proof.
  split; simpl.
  - by rewrite length_fmap, length_seq.
  - intros i row_v. rewrite list_lookup_fmap.
    destruct (seq 0 size !! i) as [i'|] eqn:Hi; [|done]. simpl. intros [= <-].
    apply lookup_seq in Hi as [-> Hi]. simpl.
    split; [by rewrite length_fmap, length_seq|].
    intros j n. rewrite list_lookup_fmap.
    destruct (seq 0 size !! j) as [j'|] eqn:Hj; [|done]. simpl. intros [= <-].
    apply lookup_seq in Hj as [-> Hj]. done.
Qed.

Lemma to_Coordinate_pred size :
  0 < size → size ≤ 256 → to_Coordinate (Z.of_nat size - 1) = size - 1.
Proof.
  intros. unfold to_Coordinate. rewrite Z.mod_small by lia. lia.
Qed.

Lemma HexGame_ctor_wf uninit size : wf_game (HexGame_ctor uninit size).
Proof. split; [apply Graph_ctor_wf|done]. Qed.

Lemma getNode_Graph_ctor uninit size row col :
  row < size → col < size →
  getNode row col (Graph_ctor uninit size) = Some (Node_ctor (uninit row col) row col size).
Proof.
  intros Hr Hc. unfold getNode. simpl.
  apply Nat.ltb_lt in Hr as Hr', Hc as Hc'. rewrite Hr', Hc'. simpl.
  rewrite list_lookup_fmap, lookup_seq_lt by done. simpl.
  by rewrite list_lookup_fmap, lookup_seq_lt.
Qed.

(** ** Counting the played nodes *)

Lemma alter_middle {A} (f : A → A) (l : list A) i x :
  l !! i = Some x → ∃ l1 l2, l = l1 ++ x :: l2 ∧ alter f i l = l1 ++ f x :: l2.
Proof.
  revert i. induction l as [|y l IH]; intros [|i] H; simplify_eq/=.
  - by exists [], l.
  - destruct (IH _ H) as (l1 & l2 & -> & ->). by exists (y :: l1), l2.
Qed.

Lemma played_nodes_updNode f row col b b' n :
  getNode row col b = Some n → updNode f row col b = Some b' →
  played_nodes b' = (played_nodes b - played_weight n + played_weight (f n))%Z.
Proof.
  intros Hn Hupd. unfold updNode in Hupd. rewrite Hn in Hupd. simpl in Hupd.
  injection Hupd as <-.
  apply getNode_Some in Hn as (_ & _ & row_v & Hrow & Hcol).
  destruct (alter_middle (alter f col) _ _ _ Hrow) as (t1 & t2 & Ht & Ht').
  destruct (alter_middle f _ _ _ Hcol) as (r1 & r2 & Hr & Hr').
  unfold played_nodes. simpl. rewrite Ht', Ht, Hr', Hr.
  rewrite !concat_app. simpl. rewrite !filter_app, !filter_cons.
  unfold played_weight.
  repeat case_decide; rewrite ?length_app; simpl; rewrite ?length_app; simpl; lia.
Qed.

(** ** Operations seen through the observations *)

Lemma same_colours_refl g : same_colours g g.
Proof. by repeat split. Qed.

Lemma same_colours_trans g1 g2 g3 :
  same_colours g1 g2 → same_colours g2 g3 → same_colours g1 g3.
Proof.
  intros (?&?&?&?&?&Hc1) (?&?&?&?&?&Hc2).
  repeat split; try congruence; intros p; by rewrite Hc2, Hc1.
Qed.

Lemma same_colours_board_full g g' :
  same_colours g g' → board_full g → board_full g'.
Proof.
  intros (Hs&_&_&_&_&Hc) Hfull p Hp. rewrite Hc. apply Hfull. by rewrite <-Hs.
Qed.

Lemma colour_at_off_board g p :
  ¬ on_board (getSize g) p → colour_at g p = WHITE.
Proof.
  intros Hp. unfold colour_at.
  destruct (getNode _ _ _) eqn:Hn; [|done].
  apply getNode_Some in Hn. destruct Hp. unfold on_board, getSize, getRow, getCol in *. lia.
Qed.

Lemma traversed_at_off_board g p :
  ¬ on_board (getSize g) p → traversed_at g p = false.
Proof.
  intros Hp. unfold traversed_at.
  destruct (getNode _ _ _) eqn:Hn; [|done].
  apply getNode_Some in Hn. destruct Hp. unfold on_board, getSize, getRow, getCol in *. lia.
Qed.

Lemma getNode_obs g row col n :
  getNode row col (base g) = Some n →
  colour_at g (mkPosition row col) = m_colour n ∧
  traversed_at g (mkPosition row col) = m_traversed n.
Proof. intros H. unfold colour_at, traversed_at. simpl. by rewrite H. Qed.

(** Setting the traverse mark of one node. *)
Lemma mark_spec value row col g b :
  wf_game g →
  updNode (Node_setTraverse value) row col (base g) = Some b →
  wf_game (with_base b g) ∧ same_colours g (with_base b g) ∧
  ∀ q, traversed_at (with_base b g) q =
       if decide (q = mkPosition row col) then value else traversed_at g q.
Proof.
  intros [Hwf Hlim] Hupd.
  pose proof (updNode_size _ _ _ _ _ Hupd) as Hsize.
  pose proof (updNode_in_range _ _ _ _ _ Hupd) as [Hr Hc].
  destruct (getNode_wf _ _ _ Hwf Hr Hc) as (n & Hn & _).
  split; [|split].
  - split; [by eapply updNode_wf; [apply Node_setTraverse_keeps|..]|].
    unfold getSize. simpl. by rewrite Hsize.
  - repeat split; simpl; try done.
    + by rewrite (played_nodes_updNode _ _ _ _ _ _ Hn Hupd); unfold played_weight; simpl; lia.
    + intros p. unfold colour_at. simpl.
      rewrite (getNode_updNode _ _ _ _ _ _ _ Hupd).
      case_bool_decide; [|done]. by destruct (getNode (getRow p) (getCol p) (base g)).
  - intros [r c]. unfold traversed_at. simpl. unfold getRow, getCol. simpl.
    rewrite (getNode_updNode _ _ _ _ _ _ _ Hupd).
    case_decide as Hd; [injection Hd as -> ->|].
    + rewrite bool_decide_eq_true_2 by done. by rewrite Hn.
    + rewrite bool_decide_eq_false_2; [done|]. by intros [-> ->].
Qed.

Lemma mark_is_Some value row col g :
  wf_game g → row < getSize g → col < getSize g →
  is_Some (updNode (Node_setTraverse value) row col (base g)).
Proof. intros [Hwf _] ??. by apply updNode_is_Some. Qed.

(** [addPlay] on a node of the board. *)
Lemma addPlay_spec player row col g :
  wf_game g → row < getSize g → col < getSize g →
  ∃ valid g', addPlay player row col g = Some (valid, g') ∧
    valid = bool_decide (colour_at g (mkPosition row col) = WHITE) ∧
    wf_game g' ∧ getSize g' = getSize g ∧ m_limits g' = m_limits g ∧
    m_play_maximum g' = m_play_maximum g ∧
    (∀ q, traversed_at g' q = traversed_at g q) ∧
    if valid
    then m_play_total g' = (m_play_total g + 1)%Z ∧
         played_nodes (base g') = (played_nodes (base g) + 1)%Z ∧
         ∀ q, colour_at g' q =
              if decide (q = mkPosition row col) then convertPlayer player else colour_at g q
    else g' = g.
Proof.
  intros [Hwf Hlim] Hr Hc.
  destruct (getNode_wf _ _ _ Hwf Hr Hc) as (n & Hn & _).
  unfold addPlay, isNodeFree, isNodeColour. rewrite Hn. simpl.
  destruct (getNode_obs _ _ _ _ Hn) as [Hcol _]. rewrite Hcol.
  case_bool_decide as Hw.
  - destruct (updNode_is_Some (setColour (convertPlayer player)) _ _ _ Hwf Hr Hc) as [b Hb].
    unfold setNode. rewrite Hb. simpl. eexists _, _. split; [done|].
    pose proof (updNode_size _ _ _ _ _ Hb) as Hsize.
    split; [done|]. split.
    { split; simpl; [by eapply updNode_wf; [apply setColour_keeps|..]|].
      unfold getSize. simpl. by rewrite Hsize. }
    unfold getSize. simpl. repeat split; try done.
    + intros [r c]. unfold traversed_at. simpl. unfold getRow, getCol. simpl.
      rewrite (getNode_updNode _ _ _ _ _ _ _ Hb).
      case_bool_decide; [|done]. by destruct (getNode r c (base g)).
    + rewrite (played_nodes_updNode _ _ _ _ _ _ Hn Hb). unfold played_weight. simpl.
      rewrite Hw. repeat case_decide; try done; try lia. by destruct player.
    + intros [r c]. unfold colour_at. simpl. unfold getRow, getCol. simpl.
      rewrite (getNode_updNode _ _ _ _ _ _ _ Hb).
      case_decide as Hd; [injection Hd as -> ->|].
      * rewrite bool_decide_eq_true_2 by done. by rewrite Hn.
      * rewrite bool_decide_eq_false_2; [done|]. by intros [-> ->].
  - exists false, g. split; [done|]. split; [done|]. split; [by split|]. done.
Qed.

Lemma addPlay_off_board player row col g :
  ¬ (row < getSize g ∧ col < getSize g) → addPlay player row col g = None.
Proof.
  intros Hout. unfold addPlay, isNodeFree, isNodeColour.
  destruct (getNode row col (base g)) eqn:Hn; [|done].
  apply getNode_Some in Hn. unfold getSize in Hout. tauto.
Qed.

(** ** The adjacency of the board *)

Lemma adjacent_cases p q :
  adjacent p q ↔
  let dr := (Z.of_nat (m_row q) - Z.of_nat (m_row p))%Z in
  let dc := (Z.of_nat (m_col q) - Z.of_nat (m_col p))%Z in
  ((dr = -1 ∧ dc = 0) ∨ (dr = 1 ∧ dc = 0) ∨ (dr = 0 ∧ dc = -1) ∨
   (dr = 0 ∧ dc = 1) ∨ (dr = -1 ∧ dc = 1) ∨ (dr = 1 ∧ dc = -1))%Z.
Proof.
  unfold adjacent, offset, six_offsets. cbv zeta.
  rewrite !elem_of_cons, elem_of_nil.
  split.
  - intros H. repeat (destruct H as [H|H]; [injection H as -> ->; tauto|]). done.
  - intros H. repeat (destruct H as [[-> ->]|H]; [tauto|]). destruct H as [-> ->]. tauto.
Qed.

Lemma adjacent_sym p q : adjacent p q → adjacent q p.
Proof. rewrite !adjacent_cases. cbv zeta. lia. Qed.

Lemma adjacent_irrefl p : ¬ adjacent p p.
Proof. rewrite adjacent_cases. cbv zeta. lia. Qed.

Lemma connected_adjacent row col row_idx col_idx :
  connected row col row_idx col_idx = true ↔
  adjacent (mkPosition row col) (mkPosition row_idx col_idx).
Proof.
  rewrite adjacent_cases. unfold connected. cbv zeta. simpl.
  destruct (Z.of_nat row_idx - Z.of_nat row =? -1)%Z eqn:E1;
  destruct (Z.of_nat col_idx - Z.of_nat col =? -1)%Z eqn:E2;
  destruct (Z.of_nat row_idx - Z.of_nat row =? 1)%Z eqn:E3;
  destruct (Z.of_nat col_idx - Z.of_nat col =? 1)%Z eqn:E4;
  destruct (Z.abs (Z.of_nat row_idx - Z.of_nat row) <? 2)%Z eqn:E5;
  destruct (Z.abs (Z.of_nat col_idx - Z.of_nat col) <? 2)%Z eqn:E6;
  destruct (row_idx =? row) eqn:E7; destruct (col_idx =? col) eqn:E8;
  simpl;
  rewrite ?Z.eqb_eq, ?Z.eqb_neq, ?Z.ltb_lt, ?Z.ltb_ge, ?Nat.eqb_eq, ?Nat.eqb_neq in *;
  split; intros; try done; lia.
Qed.

(** The connection list holds exactly the cells of the board at one of
    the six offsets. *)
Lemma elem_of_Node_connections row col board p :
  p ∈ Node_connections row col board ↔
  on_board board p ∧ adjacent (mkPosition row col) p.
Proof.
  unfold Node_connections, on_board. rewrite list_elem_of_bind. split.
  - intros (r & Hp & Hr). apply list_elem_of_bind in Hp as (c & Hp & Hc).
    apply elem_of_seq in Hr, Hc.
    destruct (connected row col r c) eqn:E; [|by apply elem_of_nil in Hp].
    apply list_elem_of_singleton in Hp as ->. simpl.
    apply connected_adjacent in E. split; [lia|done].
  - intros [[Hr Hc] Hadj]. destruct p as [r c]. simpl in *.
    exists r. split; [|apply elem_of_seq; lia].
    apply list_elem_of_bind. exists c. split; [|apply elem_of_seq; lia].
    apply connected_adjacent in Hadj. rewrite Hadj. by apply list_elem_of_singleton.
Qed.

Lemma NoDup_Node_connections row col board : NoDup (Node_connections row col board).
Proof.
  unfold Node_connections.
  apply NoDup_bind; [| |apply NoDup_seq].
  - intros r1 r2 p _ _ H1 H2.
    apply list_elem_of_bind in H1 as (c1 & H1 & _), H2 as (c2 & H2 & _).
    destruct (connected row col r1 c1); [|by apply elem_of_nil in H1].
    destruct (connected row col r2 c2); [|by apply elem_of_nil in H2].
    apply list_elem_of_singleton in H1, H2. congruence.
  - intros r _. apply NoDup_bind; [| |apply NoDup_seq].
    + intros c1 c2 p _ _ H1 H2.
      destruct (connected row col r c1); [|by apply elem_of_nil in H1].
      destruct (connected row col r c2); [|by apply elem_of_nil in H2].
      apply list_elem_of_singleton in H1, H2. congruence.
    + intros c _. destruct (connected row col r c); [apply NoDup_singleton|apply NoDup_nil_2].
Qed.

(** ** Connection *)

Section Connection.

Context (ok : Position → Prop).

Lemma conn_ok_l p q : conn ok p q → ok p.
Proof. by destruct 1. Qed.

Lemma conn_ok_r p q : conn ok p q → ok q.
Proof. induction 1; auto. Qed.

Lemma conn_trans p q r : conn ok p q → conn ok q r → conn ok p r.
Proof. induction 1; intros; [done|]. eapply conn_step; eauto. Qed.

Lemma conn_step_r p q r : conn ok p q → adjacent q r → ok r → conn ok p r.
Proof.
  intros Hpq Hqr Hr. eapply conn_trans; [done|].
  eapply conn_step; [by eapply conn_ok_r|done|by apply conn_refl].
Qed.

Lemma conn_sym p q : conn ok p q → conn ok q p.
Proof.
  induction 1 as [p Hp|p q r Hp Hadj Hqr IH]; [by apply conn_refl|].
  eapply conn_step_r; [done|by apply adjacent_sym|done].
Qed.

End Connection.

Lemma conn_impl (ok ok' : Position → Prop) p q :
  (∀ x, ok x → ok' x) → conn ok p q → conn ok' p q.
Proof.
  intros Himpl. induction 1; [apply conn_refl; auto|].
  eapply conn_step; eauto.
Qed.

(** A connection is a chain, and a chain is a connection. *)
Lemma conn_chain ok p q :
  conn ok p q ↔
  ∃ l, head l = Some p ∧ last l = Some q ∧ (∀ x, x ∈ l → ok x) ∧ chain_adjacent l.
Proof.
  split.
  - induction 1 as [p Hp|p q r Hp Hadj Hqr (l & Hh & Hl & Hok & Hch)].
    + exists [p]. split; [done|]. split; [done|]. split; [|done].
      by intros x ->%list_elem_of_singleton.
    + exists (p :: l). destruct l as [|q' l]; [done|]. simpl in Hh. simplify_eq.
      split; [done|]. split; [done|]. split; [|by split].
      intros x [-> |Hx]%elem_of_cons; auto.
  - intros (l & Hh & Hl & Hok & Hch). revert p Hh Hl Hok Hch.
    induction l as [|x l IH]; intros p Hh Hl Hok Hch; [done|].
    simpl in Hh. simplify_eq. destruct l as [|y l].
    + simpl in Hl. simplify_eq. apply conn_refl. apply Hok. by left.
    + destruct Hch as [Hadj Hch]. eapply conn_step; [apply Hok; by left|done|].
      apply IH; try done. intros z Hz. apply Hok. by right.
Qed.

(** ** The search of [findPath] *)

Lemma holds_same g g' colour p :
  same_colours g g' → holds g' colour p ↔ holds g colour p.
Proof. intros (Hs&_&_&_&_&Hc). unfold holds. by rewrite Hs, Hc. Qed.

Lemma is_goal_same g g' colour p :
  same_colours g g' → is_goal colour g' p ↔ is_goal colour g p.
Proof. intros (_&Hl&_). unfold is_goal. by rewrite Hl. Qed.

Lemma holds_fwd g g' colour p :
  same_colours g g' → holds g colour p → holds g' colour p.
Proof. intros Hs H. by apply (holds_same g g' colour p Hs). Qed.

Lemma holds_bwd g g' colour p :
  same_colours g g' → holds g' colour p → holds g colour p.
Proof. intros Hs H. by apply (holds_same g g' colour p Hs). Qed.

Lemma is_goal_fwd g g' colour p :
  same_colours g g' → is_goal colour g p → is_goal colour g' p.
Proof. intros Hs H. by apply (is_goal_same g g' colour p Hs). Qed.

Lemma is_goal_bwd g g' colour p :
  same_colours g g' → is_goal colour g' p → is_goal colour g p.
Proof. intros Hs H. by apply (is_goal_same g g' colour p Hs). Qed.

Lemma conn_same g g' colour p q :
  same_colours g g' → conn (holds g' colour) p q → conn (holds g colour) p q.
Proof. intros Hs. apply conn_impl. intros x. by apply holds_bwd. Qed.

(** The node [getNode] returns for a position of the board. *)
Lemma getNode_pos g p :
  wf_game g → on_board (getSize g) p →
  ∃ temp, getNode (getRow p) (getCol p) (base g) = Some temp ∧
    n_pos temp = p ∧
    m_connections temp = Node_connections (m_row p) (m_col p) (getSize g) ∧
    m_colour temp = colour_at g p ∧ m_traversed temp = traversed_at g p.
Proof.
  intros [Hwf _] [Hr Hc]. destruct p as [row col]. simpl in *.
  destruct (getNode_wf _ _ _ Hwf Hr Hc) as (n & Hn & Hpos & Hconn).
  exists n. unfold colour_at, traversed_at, getRow, getCol. simpl. by rewrite Hn.
Qed.

Lemma goal_test colour g node :
  ((if bool_decide (colour = GREEN)
    then (Z.of_nat (getCol node), Z.of_nat (getCol (m_limits g)))
    else (Z.of_nat (getRow node), Z.of_nat (getRow (m_limits g)))).1 =?
   (if bool_decide (colour = GREEN)
    then (Z.of_nat (getCol node), Z.of_nat (getCol (m_limits g)))
    else (Z.of_nat (getRow node), Z.of_nat (getRow (m_limits g)))).2)%Z
  = bool_decide (is_goal colour g node).
Proof.
  destruct (decide (is_goal colour g node)) as [H|H];
    [rewrite (bool_decide_eq_true_2 _ H)|rewrite (bool_decide_eq_false_2 _ H)];
    unfold is_goal in H; destruct (bool_decide (colour = GREEN)); simpl;
    try (apply Z.eqb_eq; lia); apply Z.eqb_neq; lia.
Qed.

(** One step of the loop of [findPath], with its tests read as
    propositions. *)
Lemma findPath_loop_cons rec colour node net ret g temp :
  getNode (getRow node) (getCol node) (base g) = Some temp → n_pos temp = node →
  findPath_loop rec colour (node :: net) ret g =
    if decide (is_goal colour g node ∧ m_colour temp = colour)
    then Some (true, g)
    else if decide (m_colour temp = colour ∧ m_traversed temp = false)
    then b ← updNode (Node_setTraverse true) (getRow node) (getCol node) (base g);
         '(r, g') ← rec (m_connections temp) (with_base b g);
         findPath_loop rec colour net (ret || r) g'
    else findPath_loop rec colour net ret g.
Proof.
  intros Htemp Hpos. simpl. rewrite Htemp. simpl. rewrite Hpos, goal_test.
  repeat case_bool_decide; repeat case_decide;
    destruct (m_traversed temp); simpl; try done; exfalso; intuition congruence.
Qed.

Lemma findPath_loop_post rec colour :
  (∀ net g r g', wf_game g → (∀ p, p ∈ net → on_board (getSize g) p) →
     rec net g = Some (r, g') → findPath_post colour net g r g') →
  ∀ net ret g r g', wf_game g → (∀ p, p ∈ net → on_board (getSize g) p) →
    findPath_loop rec colour net ret g = Some (r, g') →
    wf_game g' ∧ same_colours g g' ∧
    (∀ p, traversed_at g p = true → traversed_at g' p = true) ∧
    (r = true →
       ret = true ∨ ∃ p e, p ∈ net ∧ conn (holds g colour) p e ∧ is_goal colour g e) ∧
    (r = false →
       ret = false ∧
       (∀ p, p ∈ net → holds g colour p →
             traversed_at g' p = true ∧ ¬ is_goal colour g p) ∧
       (∀ p, traversed_at g' p = true → traversed_at g p = false →
             ∀ q, adjacent p q → holds g colour q →
                  traversed_at g' q = true ∧ ¬ is_goal colour g q)).
Proof.
  intros Hrec. induction net as [|node net IH]; intros ret g r g' Hwf Hnet Hrun.
  { simpl in Hrun. injection Hrun as <- <-.
    split; [done|]. split; [apply same_colours_refl|]. split; [done|].
    split; [by left|]. intros ->. split; [done|]. split.
    - intros p Hp. by apply elem_of_nil in Hp.
    - intros p H1 H2. congruence. }
  assert (on_board (getSize g) node) as Hnode by (apply Hnet; by left).
  destruct (getNode_pos g node Hwf Hnode) as (temp & Htemp & Hpos & Hconn & Hcol & Htrav).
  rewrite (findPath_loop_cons _ _ _ _ _ _ _ Htemp Hpos) in Hrun.
  rewrite Hcol, Htrav in Hrun.
  destruct (decide _) as [[Hgoal Hc]|Hnogoal] in Hrun.
  { (* a border node of the colour *)
    injection Hrun as <- <-.
    split; [done|]. split; [apply same_colours_refl|]. split; [done|].
    split; [|done]. intros _. right. exists node, node.
    split; [by left|]. split; [|done]. by apply conn_refl. }
  destruct (decide _) as [[Hc Hunmarked]|Hskip] in Hrun.
  2:{ (* not of the colour, or traversed already *)
    destruct (IH ret g r g' Hwf) as (Hwf' & Hsame & Hmono & Htrue & Hfalse); [|done|].
    { intros p Hp. apply Hnet. by right. }
    split; [done|]. split; [done|]. split; [done|]. split.
    - intros Hr. destruct (Htrue Hr) as [?|(p & e & Hp & ?)]; [by left|].
      right. exists p, e. split; [by right|done].
    - intros Hr. destruct (Hfalse Hr) as (Hret & H3 & H4).
      split; [done|]. split; [|done].
      intros p [-> |Hp]%elem_of_cons Hh; [|by apply H3].
      destruct Hh as [_ Hh].
      split; [|intros Hg; by apply Hnogoal].
      apply Hmono. destruct (traversed_at g node) eqn:E; [done|]. by destruct Hskip. }
  (* of the colour and not traversed: mark it and search its connections *)
  destruct (mark_is_Some true (getRow node) (getCol node) g Hwf) as [b Hb];
    [apply Hnode..|].
  rewrite Hb in Hrun. simpl in Hrun.
  destruct (mark_spec _ _ _ _ _ Hwf Hb) as (Hwf1 & Hsame1 & Hm1).
  assert (mkPosition (getRow node) (getCol node) = node) as Heta by by destruct node.
  rewrite Heta in Hm1. clear Heta.
  destruct (rec (m_connections temp) (with_base b g)) as [[r1 g2]|] eqn:Hr1; [|done].
  simpl in Hrun.
  assert (∀ p, p ∈ m_connections temp ↔ on_board (getSize g) p ∧ adjacent node p) as Hnbr.
  { intros p. rewrite Hconn, elem_of_Node_connections. by destruct node. }
  destruct (Hrec (m_connections temp) (with_base b g) r1 g2 Hwf1)
    as (Hwf2 & Hsame2 & Hmono2 & Htrue2 & Hfalse2); [|done|].
  { intros p Hp. destruct Hsame1 as [-> _]. by apply Hnbr. }
  pose proof (same_colours_trans _ _ _ Hsame1 Hsame2) as Hsame12.
  destruct (IH (ret || r1) g2 r g' Hwf2) as (Hwf' & Hsame' & Hmono' & Htrue' & Hfalse');
    [|done|].
  { intros p Hp. destruct Hsame12 as [-> _]. apply Hnet. by right. }
  assert (∀ p, traversed_at g p = true → traversed_at g2 p = true) as Hmono02.
  { intros p Hp. apply Hmono2. rewrite Hm1. by case_decide. }
  assert (traversed_at g2 node = true) as Hnode2.
  { apply Hmono2. rewrite Hm1. by rewrite decide_True. }
  split; [done|]. split; [by eapply same_colours_trans|]. split; [by auto|]. split.
  - intros Hr. destruct (Htrue' Hr) as [Hor|(p & e & Hp & Hpe & He)].
    + apply orb_true_iff in Hor as [?| ->]; [by left|]. right.
      destruct (Htrue2 eq_refl) as (p & e & Hp & Hpe & He).
      exists node, e. split; [by left|].
      split; [|by apply (is_goal_bwd _ _ _ _ Hsame1)].
      eapply conn_step; [done| |by apply (conn_same _ _ _ _ _ Hsame1)].
      by apply Hnbr.
    + right. exists p, e. split; [by right|].
      split; [by apply (conn_same _ _ _ _ _ Hsame12)|by apply (is_goal_bwd _ _ _ _ Hsame12)].
  - intros Hr. destruct (Hfalse' Hr) as (Hret & H3' & H4').
    apply orb_false_iff in Hret as [-> ->].
    destruct (Hfalse2 eq_refl) as (H3 & H4).
    split; [done|]. split.
    + intros p [-> |Hp]%elem_of_cons Hh.
      * split; [by apply Hmono'|]. intros Hg. apply Hnogoal. by destruct Hh.
      * destruct (H3' p Hp) as [? Hng]; [by apply (holds_fwd _ _ _ _ Hsame12)|].
        split; [done|]. intros Hg. apply Hng. by apply (is_goal_fwd _ _ _ _ Hsame12).
    + intros p Hp' Hp q Hadj Hq.
      destruct (decide (p = node)) as [->|Hne].
      { destruct (H3 q) as [? Hng];
          [apply Hnbr; split; [apply Hq|done] |by apply (holds_fwd _ _ _ _ Hsame1)|].
        split; [by apply Hmono'|]. intros Hg. apply Hng.
        by apply (is_goal_fwd _ _ _ _ Hsame1). }
      destruct (traversed_at g2 p) eqn:Hp2.
      { destruct (H4 p Hp2) with (q := q) as [? Hng];
          [by rewrite Hm1, decide_False|done|by apply (holds_fwd _ _ _ _ Hsame1)|].
        split; [by apply Hmono'|]. intros Hg. apply Hng.
        by apply (is_goal_fwd _ _ _ _ Hsame1). }
      destruct (H4' p Hp' Hp2 q Hadj) as [? Hng]; [by apply (holds_fwd _ _ _ _ Hsame12)|].
      split; [done|]. intros Hg. apply Hng. by apply (is_goal_fwd _ _ _ _ Hsame12).
Qed.

Lemma findPath_spec depth colour net g r g' :
  wf_game g → (∀ p, p ∈ net → on_board (getSize g) p) →
  findPath depth colour net g = Some (r, g') → findPath_post colour net g r g'.
Proof.
  revert net g r g'. induction depth as [|depth IH]; intros net g r g' Hwf Hnet Hrun; [done|].
  simpl in Hrun.
  destruct (findPath_loop_post _ colour IH _ _ _ _ _ Hwf Hnet Hrun)
    as (Hwf' & Hsame & Hmono & Htrue & Hfalse).
  split; [done|]. split; [done|]. split; [done|]. split.
  - intros Hr. by destruct (Htrue Hr).
  - intros Hr. by destruct (Hfalse Hr) as (_ & ? & ?).
Qed.

(** ** The search terminates: the depth [checkWin] allows is never reached *)

Lemma filter_length_le {A} (P Q : A → Prop) `{∀ x, Decision (P x)} `{∀ x, Decision (Q x)}
    (l : list A) :
  (∀ x, x ∈ l → P x → Q x) → length (filter P l) ≤ length (filter Q l).
Proof.
  induction l as [|x l IH]; intros Himpl; [done|].
  rewrite !filter_cons.
  assert (length (filter P l) ≤ length (filter Q l)) as Hle.
  { apply IH. intros y Hy. apply Himpl. by right. }
  destruct (decide (P x)) as [HP|HP]; destruct (decide (Q x)) as [HQ|HQ]; simpl; try lia.
  destruct HQ. apply Himpl; [by left|done].
Qed.

Lemma filter_length_lt {A} (P Q : A → Prop) `{∀ x, Decision (P x)} `{∀ x, Decision (Q x)}
    (l : list A) (a : A) :
  (∀ x, x ∈ l → P x → Q x) → a ∈ l → Q a → ¬ P a →
  length (filter P l) < length (filter Q l).
Proof.
  induction l as [|x l IH]; intros Himpl Ha HQa HPa; [by apply elem_of_nil in Ha|].
  rewrite !filter_cons.
  assert (length (filter P l) ≤ length (filter Q l)) as Hle.
  { apply filter_length_le. intros y Hy. apply Himpl. by right. }
  apply elem_of_cons in Ha as [<-|Ha].
  - rewrite decide_False, decide_True by done. simpl. lia.
  - assert (length (filter P l) < length (filter Q l)) as Hlt.
    { apply IH; try done. intros y Hy. apply Himpl. by right. }
    destruct (decide (P x)) as [HP|HP]; destruct (decide (Q x)) as [HQ|HQ]; simpl; try lia.
    destruct HQ. apply Himpl; [by left|done].
Qed.

Lemma elem_of_all_positions size p : p ∈ all_positions size ↔ on_board size p.
Proof.
  unfold all_positions, on_board. rewrite list_elem_of_bind. split.
  - intros (r & Hp & Hr). apply list_elem_of_bind in Hp as (c & Hp & Hc).
    apply list_elem_of_singleton in Hp as ->. apply elem_of_seq in Hr, Hc. simpl. lia.
  - intros [Hr Hc]. destruct p as [r c]. simpl in *.
    exists r. split; [|apply elem_of_seq; lia].
    apply list_elem_of_bind. exists c. split; [by apply list_elem_of_singleton|].
    apply elem_of_seq. lia.
Qed.

Lemma length_all_positions size : length (all_positions size) = size * size.
Proof.
  unfold all_positions.
  assert (∀ l : list nat, length (l ≫= λ row, seq 0 size ≫= λ col, [mkPosition row col])
                           = length l * size) as Hgen.
  { induction l as [|x l IH]; [done|]. rewrite bind_cons, length_app, IH.
    assert (∀ l' : list nat, length (l' ≫= λ col, [mkPosition x col]) = length l') as ->.
    { induction l' as [|y l' IH']; [done|]. rewrite bind_cons. simpl. by rewrite IH'. }
    rewrite length_seq. simpl. lia. }
  by rewrite Hgen, length_seq.
Qed.

Lemma unmarked_bound g : unmarked g ≤ getSize g * getSize g.
Proof. unfold unmarked. rewrite <-length_all_positions. apply length_filter. Qed.

Lemma unmarked_le g g' :
  getSize g' = getSize g →
  (∀ p, traversed_at g p = true → traversed_at g' p = true) →
  unmarked g' ≤ unmarked g.
Proof.
  intros Hs Hmono. unfold unmarked. rewrite Hs. apply filter_length_le.
  intros p _ Hp. destruct (traversed_at g p) eqn:E; [|done].
  apply Hmono in E. congruence.
Qed.

Lemma unmarked_lt g g' p :
  getSize g' = getSize g →
  (∀ p, traversed_at g p = true → traversed_at g' p = true) →
  on_board (getSize g) p → traversed_at g p = false → traversed_at g' p = true →
  unmarked g' < unmarked g.
Proof.
  intros Hs Hmono Hp Hp0 Hp1. unfold unmarked. rewrite Hs.
  apply filter_length_lt with (a := p); [|by apply elem_of_all_positions|done|congruence].
  intros q _ Hq. destruct (traversed_at g q) eqn:E; [|done].
  apply Hmono in E. congruence.
Qed.

Lemma findPath_loop_total rec colour bound :
  (∀ net g r g', wf_game g → (∀ p, p ∈ net → on_board (getSize g) p) →
     rec net g = Some (r, g') → findPath_post colour net g r g') →
  (∀ net g, wf_game g → (∀ p, p ∈ net → on_board (getSize g) p) →
     unmarked g < bound → is_Some (rec net g)) →
  ∀ net ret g, wf_game g → (∀ p, p ∈ net → on_board (getSize g) p) →
    unmarked g < S bound → is_Some (findPath_loop rec colour net ret g).
Proof.
  intros Hpost Hrec. induction net as [|node net IH]; intros ret g Hwf Hnet Hfuel; [by eexists|].
  assert (on_board (getSize g) node) as Hnode by (apply Hnet; by left).
  destruct (getNode_pos g node Hwf Hnode) as (temp & Htemp & Hpos & Hconn & Hcol & Htrav).
  rewrite (findPath_loop_cons _ _ _ _ _ _ _ Htemp Hpos).
  destruct (decide _) as [?|_]; [by eexists|].
  destruct (decide _) as [[Hc Hunmarked]|_].
  2:{ apply IH; [done| |done]. intros p Hp. apply Hnet. by right. }
  destruct (mark_is_Some true (getRow node) (getCol node) g Hwf) as [b Hb];
    [apply Hnode..|].
  rewrite Hb. simpl.
  destruct (mark_spec _ _ _ _ _ Hwf Hb) as (Hwf1 & Hsame1 & Hm1).
  assert (mkPosition (getRow node) (getCol node) = node) as Heta by by destruct node.
  rewrite Heta in Hm1. clear Heta.
  assert (getSize (with_base b g) = getSize g) as Hs1 by apply Hsame1.
  assert (unmarked (with_base b g) < unmarked g) as Hlt.
  { apply unmarked_lt with (p := node); try done.
    - intros p Hp. rewrite Hm1. by case_decide.
    - congruence.
    - by rewrite Hm1, decide_True. }
  assert (∀ p, p ∈ m_connections temp → on_board (getSize (with_base b g)) p) as Hnet1.
  { intros p. rewrite Hs1, Hconn, elem_of_Node_connections. tauto. }
  destruct (Hrec (m_connections temp) (with_base b g) Hwf1 Hnet1) as [[r1 g2] Hr1]; [lia|].
  rewrite Hr1. simpl.
  destruct (Hpost _ _ _ _ Hwf1 Hnet1 Hr1) as (Hwf2 & Hsame2 & Hmono2 & _).
  assert (getSize g2 = getSize (with_base b g)) as Hs2 by apply Hsame2.
  apply IH; [done| |].
  - intros p Hp. rewrite Hs2, Hs1. apply Hnet. by right.
  - pose proof (unmarked_le _ _ Hs2 Hmono2). lia.
Qed.

Lemma findPath_total depth colour net g :
  wf_game g → (∀ p, p ∈ net → on_board (getSize g) p) →
  unmarked g < depth → is_Some (findPath depth colour net g).
Proof.
  revert net g. induction depth as [|depth IH]; intros net g Hwf Hnet Hfuel; [lia|].
  simpl. apply findPath_loop_total with (bound := depth); try done.
  intros. by eapply findPath_spec.
Qed.

(** ** [clearAllTraverse] *)

Lemma for_each_invariant {S A} (Inv : list A → S → Prop) (body : S → A → option S)
    (l : list A) (s : S) :
  Inv [] s →
  (∀ prefix x s, Inv prefix s → x ∈ l →
     ∃ s', body s x = Some s' ∧ Inv (prefix ++ [x]) s') →
  ∃ s', for_each body s l = Some s' ∧ Inv l s'.
Proof.
  intros H0 Hstep.
  assert (∀ rest prefix s, Inv prefix s → (∀ x, x ∈ rest → x ∈ l) →
            ∃ s', for_each body s rest = Some s' ∧ Inv (prefix ++ rest) s') as Hgen.
  { induction rest as [|x rest IH]; intros prefix s1 Hinv Hsub.
    - exists s1. by rewrite app_nil_r.
    - destruct (Hstep prefix x s1 Hinv) as (s2 & Hbody & Hinv2); [apply Hsub; by left|].
      destruct (IH (prefix ++ [x]) s2 Hinv2) as (s' & Hrun & Hinv').
      { intros y Hy. apply Hsub. by right. }
      exists s'. simpl. rewrite Hbody. simpl. by rewrite <-app_assoc in Hinv'. }
  by apply (Hgen l [] s).
Qed.

Lemma clearAllTraverse_spec g :
  wf_game g →
  ∃ g', clearAllTraverse g = Some g' ∧ wf_game g' ∧ same_colours g g' ∧ marks_clear g'.
Proof.
  intros Hwf. unfold clearAllTraverse.
  set (size := m_size (base g)).
  pose (Inv := λ (rows : list nat) (cols : option (nat * list nat)) (b : Graph),
    wf_game (with_base b g) ∧ same_colours g (with_base b g) ∧
    ∀ p, (m_row p ∈ rows ∨
          match cols with Some (r, cs) => m_row p = r ∧ m_col p ∈ cs | None => False end) →
         traversed_at (with_base b g) p = false).
  destruct (for_each_invariant (λ rows b, Inv rows None b)
    (λ b row_idx, for_each (λ b col_idx, clearTraverse row_idx col_idx b) b (seq 0 size))
    (seq 0 size) (base g)) as (b & Hrun & Hwf' & Hsame & Hclear).
  - split; [by destruct g|]. split; [by destruct g; apply same_colours_refl|].
    intros p [Hp|[]]. by apply elem_of_nil in Hp.
  - intros rows r b (Hwf1 & Hsame1 & Hclear1) Hr. apply elem_of_seq in Hr.
    destruct (for_each_invariant (λ cs b, Inv rows (Some (r, cs)) b)
      (λ b col_idx, clearTraverse r col_idx b) (seq 0 size) b)
      as (b' & Hrun' & Hwf' & Hsame' & Hclear').
    + split; [done|]. split; [done|]. intros p [Hp|[_ Hp]]; [by apply Hclear1; left|].
      by apply elem_of_nil in Hp.
    + intros cs c b1 (Hwf2 & Hsame2 & Hclear2) Hc. apply elem_of_seq in Hc.
      assert (getSize (with_base b1 g) = size) as Hs2 by apply Hsame2.
      destruct (mark_is_Some false r c (with_base b1 g) Hwf2) as [b2 Hb2]; [lia..|].
      exists b2. split; [done|].
      destruct (mark_spec _ _ _ _ _ Hwf2 Hb2) as (Hwf3 & Hsame3 & Hm3). simpl in *.
      split; [done|]. split; [by eapply same_colours_trans|].
      intros p Hp. rewrite Hm3. case_decide; [done|]. apply Hclear2.
      destruct Hp as [?|[Hpr Hpc]]; [by left|]. right. split; [done|].
      apply elem_of_app in Hpc as [?|Hpc]; [done|].
      apply list_elem_of_singleton in Hpc. destruct p. simpl in *. congruence.
    + exists b'. split; [done|]. split; [done|]. split; [done|].
      intros p [Hp|[]]. apply elem_of_app in Hp as [Hp|Hp]; [by apply Hclear'; left|].
      apply list_elem_of_singleton in Hp.
      destruct (decide (m_col p < size)) as [Hc|Hc].
      * apply Hclear'. right. split; [done|]. apply elem_of_seq. lia.
      * apply traversed_at_off_board. destruct Hsame' as [-> _].
        unfold on_board, getSize. fold size. lia.
  - rewrite Hrun. simpl. eexists. split; [done|]. split; [done|]. split; [done|].
    intros p. destruct (decide (on_board size p)) as [[Hr Hc]|Hp].
    + apply Hclear. left. apply elem_of_seq. lia.
    + apply traversed_at_off_board. by destruct Hsame as [-> _].
Qed.

(** ** The loop of [checkWin] over the starting border *)

Lemma checkWin_loop_cons player colour idx idxs g :
  wf_game g → on_board (getSize g) (seed player idx) →
  checkWin_loop player colour (idx :: idxs) g =
    if decide (colour_at g (seed player idx) = colour ∧
               traversed_at g (seed player idx) = false)
    then b ← setTraverse (getRow (seed player idx)) (getCol (seed player idx)) (base g);
         net ← getConnections (getRow (seed player idx)) (getCol (seed player idx)) b;
         '(ret, g') ← findPath (S (m_size b * m_size b)) colour net (with_base b g);
         if (ret : bool) then Some (true, g') else checkWin_loop player colour idxs g'
    else checkWin_loop player colour idxs g.
Proof.
  intros Hwf Hs.
  destruct (getNode_pos g _ Hwf Hs) as (temp & Htemp & _ & _ & Hcol & Htrav).
  rewrite <-Hcol, <-Htrav.
  assert (getRow (seed player idx) = match player with FIRST => idx | SECOND => 0 end)
    as Hrow by by destruct player.
  assert (getCol (seed player idx) = match player with FIRST => 0 | SECOND => idx end)
    as Hcl by by destruct player.
  rewrite Hrow, Hcl in *. simpl.
  unfold isNodeColour, getTraverse. rewrite Htemp. simpl.
  case_bool_decide; case_decide; destruct (m_traversed temp); simpl;
    try done; exfalso; intuition congruence.
Qed.

Lemma checkWin_loop_spec player idxs g :
  wf_game g → (∀ idx, idx ∈ idxs → on_board (getSize g) (seed player idx)) →
  ∃ r g', checkWin_loop player (convertPlayer player) idxs g = Some (r, g') ∧
    wf_game g' ∧ same_colours g g' ∧
    (∀ p, traversed_at g p = true → traversed_at g' p = true) ∧
    (r = true → ∃ idx e, idx ∈ idxs ∧
       conn (holds g (convertPlayer player)) (seed player idx) e ∧
       is_goal (convertPlayer player) g e) ∧
    (r = false →
       (∀ idx, idx ∈ idxs → holds g (convertPlayer player) (seed player idx) →
               traversed_at g' (seed player idx) = true) ∧
       (∀ p, traversed_at g' p = true → traversed_at g p = false →
             ∀ q, adjacent p q → holds g (convertPlayer player) q →
                  traversed_at g' q = true ∧ ¬ is_goal (convertPlayer player) g q)).
Proof.
  set (colour := convertPlayer player).
  revert g. induction idxs as [|idx idxs IH]; intros g Hwf Hidxs.
  { exists false, g. split; [done|]. split; [done|]. split; [apply same_colours_refl|].
    split; [done|]. split; [done|]. intros _. split.
    - intros idx Hidx. by apply elem_of_nil in Hidx.
    - intros p H1 H2. congruence. }
  assert (on_board (getSize g) (seed player idx)) as Hs by (apply Hidxs; by left).
  set (s := seed player idx) in *.
  rewrite (checkWin_loop_cons _ _ _ _ _ Hwf Hs). fold s.
  destruct (decide _) as [[Hc Hunmarked]|Hskip].
  2:{ destruct (IH g Hwf) as (r & g' & Hrun & Hwf' & Hsame & Hmono & Htrue & Hfalse).
    { intros i Hi. apply Hidxs. by right. }
    exists r, g'. split; [done|]. split; [done|]. split; [done|]. split; [done|]. split.
    - intros Hr. destruct (Htrue Hr) as (i & e & Hi & ?). exists i, e. split; [by right|done].
    - intros Hr. destruct (Hfalse Hr) as [Hseeds Hclosed]. split; [|done].
      intros i [-> |Hi]%elem_of_cons Hh; [|by apply Hseeds].
      fold s in Hh |- *. apply Hmono. destruct (traversed_at g s) eqn:E; [done|].
      destruct Hskip. split; [apply Hh|done]. }
  destruct (mark_is_Some true (getRow s) (getCol s) g Hwf) as [b Hb]; [apply Hs..|].
  unfold setTraverse. rewrite Hb. simpl.
  destruct (mark_spec _ _ _ _ _ Hwf Hb) as (Hwf1 & Hsame1 & Hm1).
  assert (mkPosition (getRow s) (getCol s) = s) as Heta by by destruct s.
  rewrite Heta in Hm1. clear Heta.
  assert (getSize (with_base b g) = getSize g) as Hs1 by apply Hsame1.
  assert (on_board (getSize (with_base b g)) s) as Hsb by by rewrite Hs1.
  destruct (getNode_pos _ s Hwf1 Hsb) as (temp & Htemp & _ & Hconn & _).
  unfold getConnections. simpl in Htemp. rewrite Htemp. simpl.
  assert (∀ p, p ∈ m_connections temp ↔ on_board (getSize g) p ∧ adjacent s p) as Hnbr.
  { intros p. rewrite Hconn, elem_of_Node_connections, Hs1. by destruct s. }
  assert (∀ p, p ∈ m_connections temp → on_board (getSize (with_base b g)) p) as Hnet.
  { intros p Hp. rewrite Hs1. by apply Hnbr. }
  destruct (findPath_total (S (m_size b * m_size b)) colour (m_connections temp)
              (with_base b g) Hwf1 Hnet) as [[r1 g2] Hr1].
  { pose proof (unmarked_bound (with_base b g)) as Hb'. unfold getSize in Hb'. simpl in Hb'. lia. }
  pose proof Hr1 as Hr1'. simpl in Hr1'. rewrite Hr1'. clear Hr1'. simpl.
  destruct (findPath_spec _ _ _ _ _ _ Hwf1 Hnet Hr1)
    as (Hwf2 & Hsame2 & Hmono2 & Htrue2 & Hfalse2).
  pose proof (same_colours_trans _ _ _ Hsame1 Hsame2) as Hsame12.
  assert (∀ p, traversed_at g p = true → traversed_at g2 p = true) as Hmono02.
  { intros p Hp. apply Hmono2. rewrite Hm1. by case_decide. }
  destruct r1.
  { (* the search from this seed reaches the ending border *)
    exists true, g2. split; [done|]. split; [done|]. split; [done|]. split; [done|].
    split; [|done]. intros _.
    destruct (Htrue2 eq_refl) as (p & e & Hp & Hpe & He).
    exists idx, e. split; [by left|]. fold s.
    split; [|by apply (is_goal_bwd _ _ _ _ Hsame1)].
    eapply conn_step; [by split| |by apply (conn_same _ _ _ _ _ Hsame1)].
    by apply Hnbr. }
  destruct (IH g2 Hwf2) as (r & g' & Hrun & Hwf' & Hsame' & Hmono' & Htrue' & Hfalse').
  { intros i Hi. destruct Hsame12 as [-> _]. apply Hidxs. by right. }
  exists r, g'. split; [done|]. split; [done|].
  split; [by eapply same_colours_trans|]. split; [by auto|]. split.
  - intros Hr. destruct (Htrue' Hr) as (i & e & Hi & Hie & He).
    exists i, e. split; [by right|].
    split; [by apply (conn_same _ _ _ _ _ Hsame12)|by apply (is_goal_bwd _ _ _ _ Hsame12)].
  - intros Hr. destruct (Hfalse' Hr) as [Hseeds' H4'].
    destruct (Hfalse2 eq_refl) as [H3 H4]. split.
    + intros i [-> |Hi]%elem_of_cons Hh.
      * fold s. apply Hmono', Hmono2. by rewrite Hm1, decide_True.
      * apply Hseeds'; [done|]. by apply (holds_fwd _ _ _ _ Hsame12).
    + intros p Hp' Hp q Hadj Hq.
      destruct (decide (p = s)) as [->|Hne].
      { destruct (H3 q) as [? Hng];
          [apply Hnbr; split; [apply Hq|done] |by apply (holds_fwd _ _ _ _ Hsame1)|].
        split; [by apply Hmono'|]. intros Hg. apply Hng.
        by apply (is_goal_fwd _ _ _ _ Hsame1). }
      destruct (traversed_at g2 p) eqn:Hp2.
      { destruct (H4 p Hp2) with (q := q) as [? Hng];
          [by rewrite Hm1, decide_False|done|by apply (holds_fwd _ _ _ _ Hsame1)|].
        split; [by apply Hmono'|]. intros Hg. apply Hng.
        by apply (is_goal_fwd _ _ _ _ Hsame1). }
      destruct (H4' p Hp' Hp2 q Hadj) as [? Hng]; [by apply (holds_fwd _ _ _ _ Hsame12)|].
      split; [done|]. intros Hg. apply Hng. by apply (is_goal_fwd _ _ _ _ Hsame12).
Qed.

(** ** [checkWin] *)

Lemma seed_on_board player idx size : idx < size → on_board size (seed player idx).
Proof. intros. destruct player; unfold on_board; simpl; lia. Qed.

Lemma seed_starting player a :
  starting_border player a ↔ a = seed player (match player with FIRST => m_row a | SECOND => m_col a end).
Proof. destruct player, a as [r c]; simpl; split; intros; simplify_eq; done. Qed.

(** A set of marked nodes that is closed under adjacency within the colour
    and whose neighbours are never goals holds no goal but its entry. *)
Lemma closed_marks_no_goal (marked goal ok : Position → Prop) p q :
  (∀ x, marked x → ∀ y, adjacent x y → ok y → marked y ∧ ¬ goal y) →
  conn ok p q → marked p → p = q ∨ ¬ goal q.
Proof.
  intros Hclosed. induction 1 as [p Hp|p q r Hp Hadj Hqr IH]; intros Hm; [by left|].
  destruct (Hclosed p Hm q Hadj (conn_ok_l _ _ _ Hqr)) as [Hmq Hgq].
  right. destruct (IH Hmq) as [<-|?]; done.
Qed.

Lemma checkWin_spec player g :
  wf_game g →
  ∃ r g', checkWin player g = Some (r, g') ∧
    wf_game g' ∧ same_colours g g' ∧ marks_clear g' ∧
    (r = true → ∃ a e, on_board (getSize g) a ∧ starting_border player a ∧
       conn (holds g (convertPlayer player)) a e ∧ is_goal (convertPlayer player) g e) ∧
    (marks_clear g → r = false → ∀ a e, starting_border player a →
       conn (holds g (convertPlayer player)) a e →
       a = e ∨ ¬ is_goal (convertPlayer player) g e).
Proof.
  intros Hwf. unfold checkWin.
  destruct (checkWin_loop_spec player (seq 0 (m_size (base g))) g Hwf)
    as (r & g1 & Hrun & Hwf1 & Hsame1 & Hmono & Htrue & Hfalse).
  { intros idx Hidx%elem_of_seq. apply seed_on_board. unfold getSize. lia. }
  rewrite Hrun. simpl.
  destruct (clearAllTraverse_spec g1 Hwf1) as (g2 & Hclear & Hwf2 & Hsame2 & Hmarks).
  rewrite Hclear. simpl. exists r, g2. split; [done|]. split; [done|].
  split; [by eapply same_colours_trans|]. split; [done|]. split.
  - intros Hr. destruct (Htrue Hr) as (idx & e & Hidx%elem_of_seq & Hconn & He).
    exists (seed player idx), e. split; [apply seed_on_board; unfold getSize; lia|].
    split; [by destruct player|done].
  - intros Hm0 Hr a e Ha Hae. destruct (Hfalse Hr) as [Hseeds Hclosed].
    apply closed_marks_no_goal with (marked := λ p, traversed_at g1 p = true)
      (ok := holds g (convertPlayer player)) (p := a); [|done|].
    + intros x Hx y Hadj Hy. by apply (Hclosed x Hx (Hm0 x) y).
    + apply seed_starting in Ha. rewrite Ha. apply Hseeds.
      * apply elem_of_seq. destruct (conn_ok_l _ _ _ Hae) as [[??] _].
        unfold getSize in *. destruct player; lia.
      * rewrite <-Ha. by eapply conn_ok_l.
Qed.

Lemma is_goal_ending player g p :
  wf_game g → 0 < getSize g ≤ 256 →
  is_goal (convertPlayer player) g p ↔ ending_border player (getSize g) p.
Proof.
  intros [_ Hlim] Hsize. unfold is_goal. rewrite Hlim.
  rewrite to_Coordinate_pred by lia. by destruct player.
Qed.

(** [checkWin] answers whether a chain of the player's colour joins the
    two borders. *)
Lemma checkWin_chain player g :
  wf_game g → marks_clear g → 2 ≤ getSize g ≤ 256 →
  ∃ r g', checkWin player g = Some (r, g') ∧
    wf_game g' ∧ same_colours g g' ∧ marks_clear g' ∧
    (r = true ↔ ∃ l, winning_chain g player l).
Proof.
  intros Hwf Hm Hsize.
  destruct (checkWin_spec player g Hwf) as (r & g' & Hrun & Hwf' & Hsame & Hm' & Htrue & Hfalse).
  exists r, g'. split; [done|]. split; [done|]. split; [done|]. split; [done|]. split.
  - intros Hr. destruct (Htrue Hr) as (a & e & _ & Ha & Hae & He).
    apply conn_chain in Hae as (l & Hh & Hl & Hok & Hch).
    exists l. split; [done|]. split; [done|]. exists a, e.
    split; [done|]. split; [done|]. split; [done|]. apply is_goal_ending; [done|lia|done].
  - intros (l & Hok & Hch & a & e & Hh & Hl & Ha & He).
    destruct r; [done|]. exfalso.
    assert (conn (holds g (convertPlayer player)) a e) as Hae.
    { apply conn_chain. by exists l. }
    destruct (Hfalse Hm eq_refl a e Ha Hae) as [<-|Hng].
    + destruct player; simpl in *; lia.
    + apply Hng. apply is_goal_ending; [done|lia|done].
Qed.

(** Every node of a well-formed tree is the node of its coordinates. *)
Lemma elem_of_tree b n :
  wf_graph b → n ∈ concat (m_tree b) →
  getNode (m_row (n_pos n)) (m_col (n_pos n)) b = Some n.
Proof.
  intros [Hlen Hrows] Hn.
  apply list_elem_of_In, in_concat in Hn as (row_v & Hrow & Hn).
  apply list_elem_of_In in Hrow, Hn.
  apply list_elem_of_lookup in Hrow as [i Hi]. apply list_elem_of_lookup in Hn as [j Hj].
  destruct (Hrows _ _ Hi) as [Hl Hnode]. destruct (Hnode _ _ Hj) as [-> _]. simpl.
  apply lookup_lt_Some in Hi as Hi', Hj as Hj'.
  unfold getNode. apply Nat.ltb_lt in Hi' as Hi''. rewrite <-Hlen, Hi''.
  assert ((j <? length (m_tree b)) = true) as -> by (apply Nat.ltb_lt; lia).
  simpl. rewrite Hi. simpl. done.
Qed.

(** ** Games reached by moves through the interface *)

Lemma playInterface_wf player row col g valid g' :
  wf_game g → playInterface player row col g = Some (valid, g') →
  wf_game g' ∧ getSize g' = getSize g ∧ (marks_clear g → marks_clear g').
Proof.
  intros Hwf. unfold playInterface, checkInputRange, checkRangeSingle.
  destruct (row <? m_size (base g)) eqn:Hr; simpl;
    [destruct (col <? m_size (base g)) eqn:Hc; simpl|]; try by intros [= <- <-].
  apply Nat.ltb_lt in Hr, Hc.
  destruct (addPlay_spec player row col g Hwf Hr Hc)
    as (v & g1 & -> & _ & Hwf1 & Hs & _ & _ & Ht & _).
  intros [= <- <-]. split; [done|]. split; [done|]. intros Hm p. by rewrite Ht.
Qed.

Lemma play_moves_wf moves g :
  wf_game g →
  wf_game (play_moves moves g) ∧ getSize (play_moves moves g) = getSize g ∧
  (marks_clear g → marks_clear (play_moves moves g)).
Proof.
  revert g. induction moves as [|[[player row] col] moves IH]; intros g Hwf; [done|].
  change (play_moves ((player, row, col) :: moves) g)
    with (play_moves moves match playInterface player row col g with
                           | Some (_, g') => g'
                           | None => g
                           end).
  destruct (playInterface player row col g) as [[valid g']|] eqn:Hplay; [|by apply IH].
  destruct (playInterface_wf _ _ _ _ _ _ Hwf Hplay) as (Hwf' & Hs & Hm).
  destruct (IH g' Hwf') as (? & ? & ?). split; [done|]. split; [congruence|auto].
Qed.

Lemma marks_clear_ctor size : marks_clear (HexGame_ctor (λ _ _, false) size).
Proof.
  intros [r c]. unfold traversed_at. simpl.
  destruct (getNode r c (Graph_ctor (λ _ _, false) size)) as [n|] eqn:Hn; [|done].
  apply getNode_Some in Hn as Hrange. simpl in Hrange. destruct Hrange as (Hr & Hc & _).
  rewrite getNode_Graph_ctor in Hn by done. by injection Hn as <-.
Qed.

(** ** The play counters and the full board *)

Lemma length_filter_all {A} (P : A → Prop) `{∀ x, Decision (P x)} (l : list A) :
  length (filter P l) = length l ↔ ∀ x, x ∈ l → P x.
Proof.
  induction l as [|x l IH]; [split; [intros _ y Hy; by apply elem_of_nil in Hy|done]|].
  rewrite filter_cons. pose proof (length_filter P l) as Hle.
  destruct (decide (P x)) as [HP|HP]; simpl.
  - split.
    + intros Hlen y [-> |Hy]%elem_of_cons; [done|]. apply IH; [lia|done].
    + intros Hall. f_equal. apply IH. intros y Hy. apply Hall. by right.
  - split; [lia|]. intros Hall. destruct HP. apply Hall. by left.
Qed.

Lemma length_tree b : wf_graph b → length (concat (m_tree b)) = m_size b * m_size b.
Proof.
  intros [Hlen Hrows]. rewrite <-Hlen at 1.
  assert (∀ t : list (list Node), (∀ row_v, row_v ∈ t → length row_v = m_size b) →
            length (concat t) = length t * m_size b) as Hgen.
  { induction t as [|row_v t IH]; intros Hall; [done|]. simpl.
    rewrite length_app, IH, (Hall row_v) by (try (by left); intros; apply Hall; by right).
    done. }
  apply Hgen. intros row_v [i Hi]%list_elem_of_lookup. by destruct (Hrows _ _ Hi).
Qed.

Lemma played_nodes_bound b :
  wf_graph b → (0 ≤ played_nodes b ≤ Z.of_nat (m_size b) * Z.of_nat (m_size b))%Z.
Proof.
  intros Hwf. unfold played_nodes.
  pose proof (length_filter (λ n, m_colour n ≠ WHITE) (concat (m_tree b))) as Hle.
  rewrite (length_tree b Hwf) in Hle. lia.
Qed.

Lemma board_full_played g :
  wf_game g →
  board_full g ↔
  played_nodes (base g) = (Z.of_nat (getSize g) * Z.of_nat (getSize g))%Z.
Proof.
  intros [Hwf _]. unfold played_nodes, getSize.
  rewrite <-Nat2Z.inj_mul, <-(length_tree _ Hwf), Nat2Z.inj_iff, length_filter_all.
  split.
  - intros Hfull n Hn. apply elem_of_tree in Hn as Hn'; [|done].
    apply getNode_Some in Hn' as Hrange. destruct Hrange as (Hr & Hc & _).
    specialize (Hfull (n_pos n) (conj Hr Hc)).
    unfold colour_at, getRow, getCol in Hfull. by rewrite Hn' in Hfull.
  - intros Hall p [Hr Hc].
    destruct (getNode_wf _ _ _ Hwf Hr Hc) as (n & Hn & _).
    unfold colour_at, getRow, getCol. rewrite Hn. apply Hall.
    apply getNode_Some in Hn as (_ & _ & row_v & Hrow & Hcol).
    apply list_elem_of_In, in_concat. exists row_v.
    split; apply list_elem_of_In; by eapply list_elem_of_lookup_2.
Qed.

(** Under the invariant of the counters the test of the populating loop
    fails exactly on a full board. *)
Lemma counters_full g :
  wf_game g → counters_ok g →
  (m_play_total g ≤ m_play_maximum g)%Z ∧
  (board_full g ↔ ¬ (m_play_total g < m_play_maximum g)%Z).
Proof.
  intros Hwf [Htot Hmax]. pose proof (played_nodes_bound _ (proj1 Hwf)) as Hb.
  fold (getSize g) in Hb. rewrite (board_full_played g Hwf). lia.
Qed.

Lemma counters_ok_ctor uninit size : counters_ok (HexGame_ctor uninit size).
Proof.
  split; [|done]. simpl. unfold played_nodes. simpl.
  assert (∀ t : list (list Node), (∀ n, n ∈ concat t → m_colour n = WHITE) →
            length (filter (λ n, m_colour n ≠ WHITE) (concat t)) = 0) as Hnone.
  { intros t Hall. induction (concat t) as [|n l IH]; [done|].
    rewrite filter_cons, decide_False; [apply IH; intros; apply Hall; by right|].
    intros Hn. apply Hn, Hall. by left. }
  rewrite Hnone; [done|].
  intros n Hn. apply (elem_of_tree _ _ (Graph_ctor_wf uninit size)) in Hn.
  apply getNode_Some in Hn as Hrange. simpl in Hrange. destruct Hrange as (Hr & Hc & _).
  rewrite getNode_Graph_ctor in Hn by done. by injection Hn as <-.
Qed.

Lemma addPlay_counters player row col g valid g' :
  wf_game g → counters_ok g → addPlay player row col g = Some (valid, g') →
  wf_game g' ∧ counters_ok g' ∧ getSize g' = getSize g ∧ m_limits g' = m_limits g ∧
  (∀ q, traversed_at g' q = traversed_at g q) ∧
  (m_play_total g' = if valid then m_play_total g + 1 else m_play_total g)%Z.
Proof.
  intros Hwf [Htot Hmax] Hplay.
  destruct (decide (row < getSize g ∧ col < getSize g)) as [[Hr Hc]|Hout];
    [|by rewrite addPlay_off_board in Hplay].
  destruct (addPlay_spec player row col g Hwf Hr Hc)
    as (v & g1 & Hplay' & _ & Hwf1 & Hs & Hl & Hm & Ht & Hres).
  rewrite Hplay in Hplay'. injection Hplay' as <- <-.
  split; [done|]. split; [|split; [done|split; [done|split; [done|]]]].
  - destruct valid; [|by subst g'].
    destruct Hres as (Ht' & Hp' & _). split; [lia|]. by rewrite Hm, Hs.
  - destruct valid; [apply Hres|by subst g'].
Qed.

Lemma playInterface_counters player row col g valid g' :
  wf_game g → counters_ok g → playInterface player row col g = Some (valid, g') →
  wf_game g' ∧ counters_ok g'.
Proof.
  intros Hwf Hc. unfold playInterface.
  destruct (checkInputRange row col g); [|by intros [= <- <-]].
  intros Hplay. by destruct (addPlay_counters _ _ _ _ _ _ Hwf Hc Hplay) as (? & ? & _).
Qed.

Lemma same_colours_counters g g' :
  same_colours g g' → counters_ok g → counters_ok g'.
Proof. intros (Hs & _ & Ht & Hm & Hp & _) [? ?]. split; congruence. Qed.

(** ** The populating loop and the playouts of [testPlay] *)

Lemma list_pair_ind {A} (P : list A → Prop) :
  P [] → (∀ x, P [x]) → (∀ x y l, P l → P (x :: y :: l)) → ∀ l, P l.
Proof.
  intros H0 H1 H2 l.
  assert (P l ∧ ∀ x, P (x :: l)) as [? _]; [|done].
  induction l as [|y l [IH1 IH2]]; [by split|]. split; [apply IH2|]. intros x. by apply H2.
Qed.

(** What the populating loop preserves and establishes. *)
Lemma fill_spec draws player g draws' player' g' :
  wf_game g → counters_ok g →
  fill draws (m_play_total g) player g = Some (draws', player', g') →
  wf_game g' ∧ counters_ok g' ∧ getSize g' = getSize g ∧ m_limits g' = m_limits g ∧
  (∀ q, traversed_at g' q = traversed_at g q) ∧ board_full g'.
Proof.
  revert player g. induction draws as [| |r1 r2 draws IH] using list_pair_ind;
    intros player g Hwf Hc Hrun.
  1,2: simpl in Hrun;
    destruct (m_play_total g <? m_play_maximum g)%Z eqn:Hlt; [done|];
    injection Hrun as <- <- <-; apply Z.ltb_ge in Hlt;
    (split; [done|]); (split; [done|]); (split; [done|]); (split; [done|]);
    (split; [done|]); apply counters_full; [done..|lia].
  simpl in Hrun.
  destruct (m_play_total g <? m_play_maximum g)%Z eqn:Hlt.
  2:{ injection Hrun as <- <- <-. apply Z.ltb_ge in Hlt.
      split; [done|]. split; [done|]. split; [done|]. split; [done|].
      split; [done|]. apply counters_full; [done..|lia]. }
  destruct (addPlay player _ _ g) as [[valid g1]|] eqn:Hplay; [|done]. simpl in Hrun.
  destruct (addPlay_counters _ _ _ _ _ _ Hwf Hc Hplay) as (Hwf1 & Hc1 & Hs1 & Hl1 & Ht1 & Htot1).
  assert (fill draws (m_play_total g1) (if valid then next_player player else player) g1
          = Some (draws', player', g')) as Hrun'.
  { destruct valid; by rewrite Htot1. }
  destruct (IH _ _ Hwf1 Hc1 Hrun') as (? & ? & ? & ? & Ht' & ?).
  split; [done|]. split; [done|]. split; [congruence|]. split; [congruence|].
  split; [|done]. intros q. by rewrite Ht', Ht1.
Qed.

Lemma reset_tree_id g g' :
  getSize g' = getSize g → m_limits g' = m_limits g →
  m_play_maximum g' = m_play_maximum g →
  reset_tree (base g) (m_play_total g) g' = g.
Proof.
  unfold reset_tree, getSize. intros -> -> ->. by destruct g as [[??] ???].
Qed.

(** The [while] loop of [testPlay] started from the game [g] it saved in
    [temp] and [total_temp]: every playout starts from [g] and leaves [g];
    the loop makes [limit - count] playouts and leaves [count] one above
    the limit. *)
Lemma testPlay_loop_spec n draws count wins limit player g draws' count' wins' g' :
  wf_game g → counters_ok g →
  testPlay_loop n draws count wins limit player (base g) (m_play_total g) g
    = Some (draws', count', wins', g') →
  g' = g ∧ count' = (Z.max count limit + 1)%Z ∧
  (wins ≤ wins' ≤ wins + (Z.max count limit - count))%Z.
Proof.
  intros Hwf Hc. revert draws count wins player.
  induction n as [|n IH]; intros draws count wins player Hrun; simpl in Hrun.
  - destruct (count <? limit)%Z eqn:Hlt; [done|]. apply Z.ltb_ge in Hlt.
    injection Hrun as <- <- <- <-. split; [done|]. lia.
  - destruct (count <? limit)%Z eqn:Hlt.
    2:{ apply Z.ltb_ge in Hlt. injection Hrun as <- <- <- <-. split; [done|]. lia. }
    apply Z.ltb_lt in Hlt.
    destruct (fill draws (m_play_total g) player g) as [[[draws1 player1] g1]|] eqn:Hfill;
      [|done]. simpl in Hrun.
    destruct (fill_spec _ _ _ _ _ _ Hwf Hc Hfill) as (Hwf1 & Hc1 & Hs1 & Hl1 & _ & _).
    destruct (checkWin_spec SECOND g1 Hwf1) as (won & g2 & Hwin & Hwf2 & Hsame2 & _).
    rewrite Hwin in Hrun. simpl in Hrun.
    rewrite (reset_tree_id g g2) in Hrun.
    + apply IH in Hrun as (-> & -> & Hw). split; [done|]. split; [lia|].
      destruct won; lia.
    + destruct Hsame2 as (-> & _). done.
    + destruct Hsame2 as (_ & -> & _). done.
    + destruct Hsame2 as (_ & _ & _ & -> & _). by destruct Hc1 as [_ ->], Hc as [_ ->]; rewrite Hs1.
Qed.

(** The bound on the iterations is not felt once it covers the playouts
    that are left. *)
Lemma testPlay_loop_bound n draws count wins limit player temp total_temp g :
  Z.to_nat (limit - count) ≤ n →
  testPlay_loop (S n) draws count wins limit player temp total_temp g =
  testPlay_loop n draws count wins limit player temp total_temp g.
Proof.
  revert draws count wins player g.
  induction n as [|n IH]; intros draws count wins player g Hn.
  - simpl. destruct (count <? limit)%Z eqn:Hlt; [|done]. apply Z.ltb_lt in Hlt. lia.
  - change (testPlay_loop (S (S n)) draws count wins limit player temp total_temp g)
      with (if (count <? limit)%Z
            then '(draws, player, g) ← fill draws (m_play_total g) player g;
                 '(won, g) ← checkWin SECOND g;
                 testPlay_loop (S n) draws (count + 1)%Z
                   (if (won : bool) then (wins + 1)%Z else wins) limit SECOND temp total_temp
                   (reset_tree temp total_temp g)
            else Some (draws, (count + 1)%Z, wins, g)).
    change (testPlay_loop (S n) draws count wins limit player temp total_temp g)
      with (if (count <? limit)%Z
            then '(draws, player, g) ← fill draws (m_play_total g) player g;
                 '(won, g) ← checkWin SECOND g;
                 testPlay_loop n draws (count + 1)%Z
                   (if (won : bool) then (wins + 1)%Z else wins) limit SECOND temp total_temp
                   (reset_tree temp total_temp g)
            else Some (draws, (count + 1)%Z, wins, g)).
    destruct (count <? limit)%Z eqn:Hlt; [|done]. apply Z.ltb_lt in Hlt.
    destruct (fill draws (m_play_total g) player g) as [[[draws1 player1] g1]|]; [|done].
    cbn [mbind option_bind].
    destruct (checkWin SECOND g1) as [[won g2]|]; [|done].
    cbn [mbind option_bind]. apply IH. lia.
Qed.

(** [testPlay] leaves the game with the candidate placed, and divides
    the wins by one more than the number of playouts. *)
Lemma testPlay_counts_spec row col draws g wins count draws' g' :
  wf_game g → counters_ok g →
  testPlay_counts row col draws g = Some (wins, count, draws', g') →
  ∃ valid, addPlay SECOND row col g = Some (valid, g') ∧
    wf_game g' ∧ counters_ok g' ∧
    count = (Z.max 0 (play_limit (getSize g)) + 1)%Z ∧
    (0 ≤ wins ≤ Z.max 0 (play_limit (getSize g)))%Z.
Proof.
  intros Hwf Hc. unfold testPlay_counts.
  destruct (addPlay SECOND row col g) as [[valid g1]|] eqn:Hplay; [|done]. simpl.
  destruct (addPlay_counters _ _ _ _ _ _ Hwf Hc Hplay) as (Hwf1 & Hc1 & Hs1 & _).
  destruct (testPlay_loop _ _ _ _ _ _ _ _ g1) as [[[[draws1 count1] wins1] g2]|] eqn:Hloop;
    [|done]. simpl. intros [= <- <- <- <-].
  apply testPlay_loop_spec in Hloop as (-> & -> & Hw); [|done..].
  exists valid. rewrite Hs1 in Hw |- *. split; [done|]. split; [done|]. split; [done|]. lia.
Qed.

(** ** [computerPlay] *)

Lemma for_each_partial {S A} (Inv : list A → S → Prop) (body : S → A → option S)
    (l : list A) (s s' : S) :
  Inv [] s →
  (∀ prefix x s s', Inv prefix s → x ∈ l → body s x = Some s' → Inv (prefix ++ [x]) s') →
  for_each body s l = Some s' → Inv l s'.
Proof.
  intros H0 Hstep.
  assert (∀ rest prefix s, Inv prefix s → (∀ x, x ∈ rest → x ∈ l) →
            for_each body s rest = Some s' → Inv (prefix ++ rest) s') as Hgen.
  { induction rest as [|x rest IH]; intros prefix s1 Hinv Hsub Hrun.
    - simpl in Hrun. injection Hrun as <-. by rewrite app_nil_r.
    - simpl in Hrun. destruct (body s1 x) as [s2|] eqn:Hbody; [|done]. simpl in Hrun.
      replace (prefix ++ x :: rest) with ((prefix ++ [x]) ++ rest) by by rewrite <-app_assoc.
      apply (IH _ s2); [|intros y Hy; apply Hsub; by right|done].
      eapply Hstep; [done| |done]. apply Hsub. by left. }
  by apply (Hgen l [] s).
Qed.

Lemma testPlay_pos row col draws g p draws' g' :
  testPlay row col draws g = Some (p, draws', g') → pr_pos p = mkPosition row col.
Proof.
  unfold testPlay.
  destruct (testPlay_counts row col draws g) as [[[[wins count] d] g1]|]; [|done].
  simpl. by intros [= <- _ _].
Qed.

Lemma testPlay_threaded_pos row col rnd g p :
  testPlay_threaded row col rnd g = Some p → pr_pos p = mkPosition row col.
Proof.
  unfold testPlay_threaded.
  destruct (mapM _ _) as [results|] eqn:Hmap; [|done]. simpl.
  apply mapM_Some_1 in Hmap. unfold cn_NUM_OF_THREADS in Hmap. simpl in Hmap.
  apply Forall2_cons_inv_l in Hmap as (p0 & results' & Hp0 & _ & ->).
  unfold averageResults. simpl. intros [= <-]. simpl.
  destruct (testPlay row col (rnd 0) g) as [[[p1 d] g1]|] eqn:Htest; [|done].
  simpl in Hp0. injection Hp0 as <-. apply testPlay_pos in Htest.
  unfold getRow, getCol. rewrite Htest. done.
Qed.

Lemma isNodeFree_colour_at row col g free :
  isNodeFree row col (base g) = Some free →
  free = bool_decide (colour_at g (mkPosition row col) = WHITE).
Proof.
  unfold isNodeFree, isNodeColour, colour_at, getRow, getCol. simpl.
  destruct (getNode row col (base g)); [|done]. simpl. by intros [= <-].
Qed.

(** The estimates are those of the free nodes, in row-major order, and
    the game is the one [computerPlay] started from. *)
Lemma computerPlay_outputs_spec rnd g outputs g' :
  computerPlay_outputs rnd g = Some (outputs, g') →
  g' = g ∧
  pr_pos <$> outputs = filter (λ p, colour_at g p = WHITE) (all_positions (getSize g)).
Proof.
  unfold computerPlay_outputs, all_positions.
  set (size := getSize g).
  set (free := λ p : Position, colour_at g p = WHITE).
  set (row_cells := λ row : nat, seq 0 size ≫= λ col, [mkPosition row col]).
  intros Hrun.
  apply (for_each_partial (λ rows (s : list Probability * HexGame),
           s.2 = g ∧ pr_pos <$> s.1 = filter free (rows ≫= row_cells))) in Hrun;
    [done|done|].
  intros rows row [outs0 g0] s1 [Hg0 Hout0] _ Hrow. simpl in Hg0, Hout0. subst g0.
  apply (for_each_partial (λ cols (s : list Probability * HexGame),
           s.2 = g ∧ pr_pos <$> s.1 =
             filter free (rows ≫= row_cells) ++
             filter free (cols ≫= λ col, [mkPosition row col]))) in Hrow.
  - destruct Hrow as [-> ->]. split; [done|].
    unfold row_cells. by rewrite bind_app, filter_app, bind_singleton.
  - split; [done|]. simpl. by rewrite app_nil_r.
  - intros cols col [outs1 g1] s2 [Hg1 Hout1] _ Hbody. simpl in Hg1, Hout1. subst g1.
    destruct (isNodeFree row col (base g)) as [isfree|] eqn:Hfree; [|done]. simpl in Hbody.
    apply isNodeFree_colour_at in Hfree.
    rewrite bind_app, filter_app, bind_singleton, app_assoc.
    rewrite filter_cons, filter_nil.
    destruct isfree.
    + destruct (testPlay_threaded row col (rnd row col) g) as [p|] eqn:Hp; [|done].
      simpl in Hbody. injection Hbody as <-. simpl.
      split; [by apply reset_tree_id|].
      apply testPlay_threaded_pos in Hp. rewrite fmap_app, Hout1. simpl. rewrite Hp.
      symmetry in Hfree. apply bool_decide_eq_true in Hfree.
      by rewrite decide_True.
    + injection Hbody as <-. simpl. split; [done|].
      symmetry in Hfree. apply bool_decide_eq_false in Hfree.
      by rewrite decide_False, app_nil_r.
Qed.

(** A loop whose body returns on every element returns, and an invariant
    of the prefix handled so far holds of the result. *)
Lemma for_each_prefix {S A} (Inv : list A → S → Prop) (body : S → A → option S)
    (l : list A) (s : S) :
  Inv [] s →
  (∀ prefix x rest s, l = prefix ++ x :: rest → Inv prefix s →
     ∃ s', body s x = Some s' ∧ Inv (prefix ++ [x]) s') →
  ∃ s', for_each body s l = Some s' ∧ Inv l s'.
Proof.
  intros H0 Hstep.
  assert (∀ rest prefix s, l = prefix ++ rest → Inv prefix s →
            ∃ s', for_each body s rest = Some s' ∧ Inv l s') as Hgen.
  { induction rest as [|x rest IH]; intros prefix s1 Hl Hinv.
    - exists s1. rewrite app_nil_r in Hl. by subst prefix.
    - destruct (Hstep prefix x rest s1 Hl Hinv) as (s2 & Hbody & Hinv2).
      destruct (IH (prefix ++ [x]) s2) as (s' & Hrun & Hinv'); [by rewrite <-app_assoc|done|].
      exists s'. split; [|done]. simpl. by rewrite Hbody. }
  by apply (Hgen l [] s).
Qed.

(** The two loops of [computerPlay] return once [testPlay_threaded]
    returns for every free node, with the estimates in row-major order. *)
Lemma computerPlay_outputs_intro rnd g outputs :
  wf_game g →
  Forall2 (λ p o, testPlay_threaded (getRow p) (getCol p) (rnd (getRow p) (getCol p)) g
                  = Some o)
          (filter (λ p, colour_at g p = WHITE) (all_positions (getSize g))) outputs →
  computerPlay_outputs rnd g = Some (outputs, g).
Proof.
  intros Hwf. unfold computerPlay_outputs, all_positions.
  set (size := getSize g).
  set (free := λ p : Position, colour_at g p = WHITE).
  set (est := λ (p : Position) o,
         testPlay_threaded (getRow p) (getCol p) (rnd (getRow p) (getCol p)) g = Some o).
  set (row_cells := λ row : nat, seq 0 size ≫= λ col, [mkPosition row col]).
  intros Hall.
  destruct (for_each_prefix
    (λ rows (s : list Probability * HexGame),
       s.2 = g ∧ s.1 = take (length (filter free (rows ≫= row_cells))) outputs)
    (λ s row_idx,
       for_each (λ '(outputs, g0) col_idx,
         free ← isNodeFree row_idx col_idx (base g0);
         if (free : bool)
         then p ← testPlay_threaded row_idx col_idx (rnd row_idx col_idx) g0;
              Some (outputs ++ [p], reset_tree (base g) (m_play_total g) g0)
         else Some (outputs, g0)) s (seq 0 size))
    (seq 0 size) ([], g)) as ([outs g'] & Hrun & Hg & Houts).
  - done.
  - intros rows row rest_rows [outs0 g0] Hrows [Hg0 Hout0]. simpl in Hg0, Hout0. subst g0.
    destruct (for_each_prefix
      (λ cols (s : list Probability * HexGame),
         s.2 = g ∧ s.1 = take (length (filter free (rows ≫= row_cells) ++
                                        filter free (cols ≫= λ col, [mkPosition row col])))
                               outputs)
      (λ '(outputs, g0) col_idx,
         free ← isNodeFree row col_idx (base g0);
         if (free : bool)
         then p ← testPlay_threaded row col_idx (rnd row col_idx) g0;
              Some (outputs ++ [p], reset_tree (base g) (m_play_total g) g0)
         else Some (outputs, g0))
      (seq 0 size) (outs0, g)) as ([outs1 g1] & Hrun1 & Hg1 & Hout1).
    + split; [done|]. simpl. by rewrite app_nil_r.
    + intros cols col rest_cols [outs1 g1] Hcols [Hg1 Hout1]. simpl in Hg1, Hout1. subst g1.
      assert (row < size ∧ col < size) as [Hr Hc].
      { split; [apply (elem_of_seq 0 size row)|apply (elem_of_seq 0 size col)].
        - rewrite Hrows. apply elem_of_app. right. by left.
        - rewrite Hcols. apply elem_of_app. right. by left. }
      destruct (getNode_wf row col (base g) (proj1 Hwf) Hr Hc) as (n & Hn & _).
      pose proof (getNode_obs g row col n Hn) as [Hcol _].
      unfold isNodeFree, isNodeColour. rewrite Hn. cbn [mbind option_bind].
      rewrite bind_app, filter_app, bind_singleton, filter_cons, filter_nil.
      assert (Forall2 est
                ((filter free (rows ≫= row_cells) ++
                  filter free (cols ≫= λ col, [mkPosition row col])) ++
                 filter free (mkPosition row col ::
                              (rest_cols ≫= λ col, [mkPosition row col]) ++
                              (rest_rows ≫= row_cells))) outputs) as Hsplit.
      { rewrite <-!filter_app. revert Hall. rewrite Hrows, bind_app, bind_cons.
        unfold row_cells at 2. rewrite Hcols, bind_app, bind_cons.
        by rewrite <-!app_assoc. }
      apply Forall2_app_inv_l in Hsplit as (o1 & o2 & Ho1 & Ho2 & ->).
      rewrite (Forall2_length _ _ _ Ho1) in Hout1. rewrite take_app_length in Hout1.
      subst outs1. rewrite filter_cons in Ho2.
      destruct (decide (free (mkPosition row col))) as [Hfree|Hfree].
      * unfold free in Hfree. rewrite Hcol in Hfree.
        rewrite bool_decide_eq_true_2 by done.
        apply Forall2_cons_inv_l in Ho2 as (o & o2' & Ho & _ & ->).
        unfold est in Ho. simpl in Ho. rewrite Ho. cbn [mbind option_bind].
        eexists. split; [reflexivity|]. simpl. split; [by apply reset_tree_id|].
        symmetry. rewrite app_assoc, length_app, (Forall2_length _ _ _ Ho1).
        simpl. by rewrite take_app_add.
      * unfold free in Hfree. rewrite Hcol in Hfree.
        rewrite bool_decide_eq_false_2 by done.
        eexists. split; [reflexivity|]. simpl. split; [done|].
        rewrite app_nil_r. by rewrite (Forall2_length _ _ _ Ho1), take_app_length.
    + exists (outs1, g1). split; [exact Hrun1|]. simpl in *. split; [done|].
      rewrite Hout1. by rewrite bind_app, filter_app, bind_singleton.
  - simpl in Hg, Houts. subst g'. rewrite Hrun. do 2 f_equal.
    rewrite Houts. rewrite (Forall2_length _ _ _ Hall). by rewrite firstn_all.
Qed.

(** What [computerPlay] does once the estimates are in: it occupies, for
    the second player, the node of the first estimate after sorting. *)
Lemma computerPlay_spec sort rnd g :
  wf_game g → (∀ l, Permutation (sort l) l) →
  ∀ outputs g1, computerPlay_outputs rnd g = Some (outputs, g1) →
  (∃ p, on_board (getSize g) p ∧ colour_at g p = WHITE) →
  ∃ best g', head (sort outputs) = Some best ∧ best ∈ outputs ∧
    computerPlay sort rnd g = Some g' ∧
    addPlay SECOND (getRow (pr_pos best)) (getCol (pr_pos best)) g = Some (true, g') ∧
    on_board (getSize g) (pr_pos best) ∧ colour_at g (pr_pos best) = WHITE ∧
    ∀ q, colour_at g' q = if decide (q = pr_pos best) then RED else colour_at g q.
Proof.
  intros Hwf Hperm outputs g1 Hout (p & Hp & Hfree).
  destruct (computerPlay_outputs_spec _ _ _ _ Hout) as [-> Hpos].
  assert (p ∈ pr_pos <$> outputs) as Hin.
  { rewrite Hpos. apply list_elem_of_filter. split; [done|]. by apply elem_of_all_positions. }
  apply list_elem_of_fmap in Hin as (o & _ & Ho).
  destruct (sort outputs) as [|best sorted] eqn:Hsort.
  { specialize (Hperm outputs). rewrite Hsort in Hperm.
    apply Permutation_nil in Hperm. subst outputs. by apply elem_of_nil in Ho. }
  assert (best ∈ outputs) as Hbest.
  { rewrite <-(Hperm outputs), Hsort. by left. }
  assert (pr_pos best ∈ pr_pos <$> outputs) as Hbpos by by apply list_elem_of_fmap_2.
  rewrite Hpos in Hbpos. apply list_elem_of_filter in Hbpos as [Hbfree Hbon].
  apply elem_of_all_positions in Hbon.
  destruct (addPlay_spec SECOND _ _ g Hwf (proj1 Hbon) (proj2 Hbon))
    as (valid & g' & Hplay & Hv & _ & _ & _ & _ & _ & Hres).
  assert (mkPosition (m_row (pr_pos best)) (m_col (pr_pos best)) = pr_pos best) as Heta
    by by destruct (pr_pos best).
  rewrite Heta in Hv, Hres. rewrite bool_decide_eq_true_2 in Hv by done. subst valid.
  exists best, g'. split; [done|]. split; [done|].
  split; [|split; [done|split; [done|split; [done|apply Hres]]]].
  unfold computerPlay. rewrite Hout. simpl. rewrite Hsort. simpl.
  unfold getRow, getCol. by rewrite Hplay.
Qed.

(** ** A sort that meets the contract of [std::sort] *)

Lemma compareProbability_false a b :
  compareProbability a b = false ↔ (getProb a <= getProb b)%Q.
Proof.
  unfold compareProbability. rewrite negb_false_iff. apply Qle_bool_iff.
Qed.

Lemma compareProbability_true a b :
  compareProbability a b = true ↔ (getProb b < getProb a)%Q.
Proof.
  unfold compareProbability. rewrite negb_true_iff, <-not_true_iff_false, Qle_bool_iff.
  split; [apply Qnot_le_lt|apply Qlt_not_le].
Qed.

Lemma insert_after_perm x l : Permutation (insert_after x l) (x :: l).
Proof.
  induction l as [|y l IH]; simpl; [done|].
  destruct (compareProbability x y); [done|].
  rewrite IH. apply perm_swap.
Qed.

Lemma insert_after_sorted x l :
  StronglySorted (λ a b, compareProbability b a = false) l →
  StronglySorted (λ a b, compareProbability b a = false) (insert_after x l).
Proof.
  induction 1 as [|y l Hsorted IH Hall]; simpl.
  { constructor; [constructor|constructor]. }
  destruct (compareProbability x y) eqn:Hxy.
  - apply compareProbability_true in Hxy.
    constructor; [by constructor|]. constructor.
    + apply compareProbability_false. by apply Qlt_le_weak.
    + eapply Forall_impl; [exact Hall|]. intros z Hz. simpl in Hz.
      apply compareProbability_false in Hz. apply compareProbability_false.
      eapply Qle_trans; [exact Hz|]. by apply Qlt_le_weak.
  - constructor; [done|].
    rewrite (insert_after_perm x l). by constructor.
Qed.

Lemma sort_ties_last_contract : std_sort_contract sort_ties_last.
Proof.
  intros l. unfold sort_ties_last. induction l as [|x l [IHp IHs]]; simpl.
  { split; [done|constructor]. }
  split; [by rewrite insert_after_perm, IHp|by apply insert_after_sorted].
Qed.

(** ** The game of Y: shrinking the board keeps the winner *)

Lemma in_triangle_cases t p :
  in_triangle t p ↔
  (m_row p = m_row t ∧ m_col p = m_col t) ∨
  (m_row p = S (m_row t) ∧ m_col p = m_col t) ∨
  (m_row p = m_row t ∧ m_col p = S (m_col t)).
Proof.
  unfold in_triangle. destruct t as [i j], p as [r c]. simpl.
  split; intros [H|[H|H]]; simplify_eq/=; try (destruct H as [-> ->]); tauto.
Qed.

(** Two triangles with a common cell are the same or adjacent. *)
Lemma triangles_share t t' p :
  in_triangle t p → in_triangle t' p → t = t' ∨ adjacent t t'.
Proof.
  rewrite !in_triangle_cases, adjacent_cases. destruct t as [i j], t' as [i' j'].
  simpl. intros H H'.
  destruct (decide (i = i' ∧ j = j')) as [[-> ->]|Hne]; [by left|right]. lia.
Qed.

(** Two cells of one triangle are the same or adjacent. *)
Lemma triangle_cells t p q :
  in_triangle t p → in_triangle t q → p = q ∨ adjacent p q.
Proof.
  rewrite !in_triangle_cases, adjacent_cases. destruct p as [r c], q as [r' c'].
  simpl. intros H H'.
  destruct (decide (r = r' ∧ c = c')) as [[-> ->]|Hne]; [by left|right]. lia.
Qed.

(** Two adjacent cells lie in one triangle. *)
Lemma edge_triangle p q :
  adjacent p q → ∃ t, in_triangle t p ∧ in_triangle t q ∧
    m_row t = Nat.min (m_row p) (m_row q) ∧ m_col t = Nat.min (m_col p) (m_col q).
Proof.
  rewrite adjacent_cases. intros H. cbv zeta in H.
  exists (mkPosition (Nat.min (m_row p) (m_row q)) (Nat.min (m_col p) (m_col q))).
  rewrite !in_triangle_cases. simpl. lia.
Qed.

Lemma majority_two (a b c x : bool) :
  (a = x ∧ b = x) ∨ (a = x ∧ c = x) ∨ (b = x ∧ c = x) → majority a b c = x.
Proof. destruct a, b, c, x; simpl; intuition congruence. Qed.

Lemma majority_inv (a b c x : bool) :
  majority a b c = x → (a = x ∧ b = x) ∨ (a = x ∧ c = x) ∨ (b = x ∧ c = x).
Proof. destruct a, b, c, x; simpl; intuition congruence. Qed.

Section GameOfY.

Context (n : nat) (f : Position → bool) (x : bool).

(** Two cells of a colour in one triangle give the triangle that colour. *)
Lemma y_reduce_two t p q :
  in_triangle t p → in_triangle t q → p ≠ q → f p = x → f q = x → y_reduce f t = x.
Proof.
  unfold in_triangle, y_reduce. intros Hp Hq Hne Hfp Hfq. apply majority_two.
  destruct Hp as [->|[->| ->]], Hq as [->|[->| ->]]; try done; tauto.
Qed.

(** A triangle of a colour has a cell of that colour on every one of its
    two-cell sides. *)
Lemma y_reduce_inv t :
  y_reduce f t = x →
  (f t = x ∧ f (mkPosition (S (m_row t)) (m_col t)) = x) ∨
  (f t = x ∧ f (mkPosition (m_row t) (S (m_col t))) = x) ∨
  (f (mkPosition (S (m_row t)) (m_col t)) = x ∧ f (mkPosition (m_row t) (S (m_col t))) = x).
Proof. apply majority_inv. Qed.

Lemma in_triangle_valid m t p :
  in_triangle t p → m_row t + m_col t < m → m_row p + m_col p < S m.
Proof. rewrite in_triangle_cases. lia. Qed.

(** Cells of a colour in one triangle are connected. *)
Lemma triangle_conn t p q :
  m_row t + m_col t < n → in_triangle t p → in_triangle t q → f p = x → f q = x →
  conn (y_cell (S n) f x) p q.
Proof.
  intros Ht Hp Hq Hfp Hfq.
  assert (y_cell (S n) f x p) as Hcp by (split; [by eapply in_triangle_valid|done]).
  assert (y_cell (S n) f x q) as Hcq by (split; [by eapply in_triangle_valid|done]).
  destruct (triangle_cells t p q Hp Hq) as [->|Hadj]; [by apply conn_refl|].
  eapply conn_step; [done|done|by apply conn_refl].
Qed.

(** Triangles of a colour with a common cell are connected. *)
Lemma shared_conn t t' p :
  y_cell n (y_reduce f) x t → y_cell n (y_reduce f) x t' →
  in_triangle t p → in_triangle t' p → conn (y_cell n (y_reduce f) x) t t'.
Proof.
  intros Ht Ht' Hp Hp'.
  destruct (triangles_share t t' p Hp Hp') as [->|Hadj]; [by apply conn_refl|].
  eapply conn_step; [done|done|by apply conn_refl].
Qed.

(** From the board to the smaller board. *)
Lemma conn_reduce p q :
  conn (y_cell (S n) f x) p q →
  ∀ t t', in_triangle t p → in_triangle t' q →
    y_cell n (y_reduce f) x t → y_cell n (y_reduce f) x t' →
    conn (y_cell n (y_reduce f) x) t t'.
Proof.
  induction 1 as [p Hp|p q r Hp Hadj Hqr IH]; intros t t' Ht Ht' Hct Hct'.
  - by eapply shared_conn.
  - destruct (edge_triangle p q Hadj) as (t'' & Htp & Htq & Hr & Hc).
    assert (y_cell n (y_reduce f) x t'') as Hct''.
    { destruct Hp as [Hvp Hfp]. destruct (conn_ok_l _ _ _ Hqr) as [Hvq Hfq].
      split.
      - apply adjacent_cases in Hadj. cbv zeta in Hadj. lia.
      - apply (y_reduce_two t'' p q); try done. intros ->. by apply adjacent_irrefl in Hadj. }
    eapply conn_trans; [by eapply (shared_conn t t'' p)|]. by apply IH.
Qed.

(** A cell with a neighbour of its colour lies in a triangle of that
    colour. *)
Lemma first_triangle p q :
  conn (y_cell (S n) f x) p q → p ≠ q →
  ∃ t, in_triangle t p ∧ y_cell n (y_reduce f) x t.
Proof.
  intros [p' Hp|p' q' r Hp Hadj Hqr] Hne; [done|].
  destruct (edge_triangle p' q' Hadj) as (t & Htp & Htq & Hr & Hc).
  exists t. split; [done|]. destruct Hp as [Hvp Hfp].
  destruct (conn_ok_l _ _ _ Hqr) as [Hvq Hfq]. split.
  - apply adjacent_cases in Hadj. cbv zeta in Hadj. lia.
  - apply (y_reduce_two t p' q'); try done. intros ->. by apply adjacent_irrefl in Hadj.
Qed.

Lemma Position_neq p q : m_row p ≠ m_row q ∨ m_col p ≠ m_col q → p ≠ q.
Proof. intros H ->. by destruct H. Qed.

(** Two adjacent triangles have a common cell, and besides it a cell
    each that are adjacent. *)
Lemma adjacent_triangles t t' :
  adjacent t t' →
  ∃ v u u', in_triangle t v ∧ in_triangle t' v ∧ in_triangle t u ∧ in_triangle t' u' ∧
            adjacent u u' ∧ u ≠ v ∧ u' ≠ v.
Proof.
  rewrite adjacent_cases. destruct t as [i j], t' as [i' j']. cbv zeta. simpl.
  intros [H|[H|[H|[H|[H|H]]]]].
  - exists (mkPosition i j), (mkPosition i (S j)), (mkPosition i' (S j')).
    rewrite !in_triangle_cases, adjacent_cases. simpl.
    repeat split; try lia; apply Position_neq; simpl; lia.
  - exists (mkPosition i' j'), (mkPosition i (S j)), (mkPosition i' (S j')).
    rewrite !in_triangle_cases, adjacent_cases. simpl.
    repeat split; try lia; apply Position_neq; simpl; lia.
  - exists (mkPosition i j), (mkPosition (S i) j), (mkPosition (S i') j').
    rewrite !in_triangle_cases, adjacent_cases. simpl.
    repeat split; try lia; apply Position_neq; simpl; lia.
  - exists (mkPosition i' j'), (mkPosition (S i) j), (mkPosition (S i') j').
    rewrite !in_triangle_cases, adjacent_cases. simpl.
    repeat split; try lia; apply Position_neq; simpl; lia.
  - exists (mkPosition i j'), (mkPosition i j), (mkPosition i' j').
    rewrite !in_triangle_cases, adjacent_cases. simpl.
    repeat split; try lia; apply Position_neq; simpl; lia.
  - exists (mkPosition i' j), (mkPosition i j), (mkPosition i' j').
    rewrite !in_triangle_cases, adjacent_cases. simpl.
    repeat split; try lia; apply Position_neq; simpl; lia.
Qed.

(** In a triangle of a colour, the cells other than one of another
    colour have the colour. *)
Lemma y_reduce_others t v u :
  y_reduce f t = x → in_triangle t v → f v ≠ x → in_triangle t u → u ≠ v → f u = x.
Proof.
  intros Hred Hv Hfv Hu Hne. apply y_reduce_inv in Hred.
  unfold in_triangle in Hv, Hu.
  destruct Hv as [-> |[-> | ->]], Hu as [-> |[-> | ->]]; try done; tauto.
Qed.

(** From a cell of a triangle to a cell of an adjacent triangle. *)
Lemma triangle_step t t' p :
  adjacent t t' →
  y_cell n (y_reduce f) x t → y_cell n (y_reduce f) x t' →
  in_triangle t p → f p = x →
  ∃ p', in_triangle t' p' ∧ f p' = x ∧ conn (y_cell (S n) f x) p p'.
Proof.
  intros Hadj [Hvt Hft] [Hvt' Hft'] Hp Hfp.
  destruct (adjacent_triangles t t' Hadj) as (v & u & u' & Hv & Hv' & Hu & Hu' & Huu & Hne & Hne').
  destruct (decide (f v = x)) as [Hfv|Hfv].
  - exists v. split; [done|]. split; [done|]. by apply (triangle_conn t).
  - assert (f u = x) as Hfu by by apply (y_reduce_others t v u).
    assert (f u' = x) as Hfu' by by apply (y_reduce_others t' v u').
    exists u'. split; [done|]. split; [done|].
    eapply conn_step_r; [by apply (triangle_conn t)|done|].
    split; [by eapply in_triangle_valid|done].
Qed.

(** From the smaller board back to the board. *)
Lemma conn_expand t t' :
  conn (y_cell n (y_reduce f) x) t t' →
  ∀ p q, in_triangle t p → f p = x → in_triangle t' q → f q = x →
    conn (y_cell (S n) f x) p q.
Proof.
  induction 1 as [t Ht|t t'' t' Ht Hadj Hconn IH]; intros p q Hp Hfp Hq Hfq.
  - destruct Ht as [Hvt _]. by apply (triangle_conn t).
  - destruct (triangle_step t t'' p Hadj Ht (conn_ok_l _ _ _ Hconn) Hp Hfp)
      as (p'' & Hp'' & Hfp'' & Hpp'').
    eapply conn_trans; [done|]. by apply IH.
Qed.

(** Shrinking the board keeps the winner. *)
Lemma y_wins_reduce : 0 < n → y_wins (S n) f x ↔ y_wins n (y_reduce f) x.
Proof.
  intros Hn. split.
  - intros (a & b & c & Hab & Hac & Ha & Hb & Hc).
    pose proof (conn_sym _ _ _ Hab) as Hba. pose proof (conn_sym _ _ _ Hac) as Hca.
    assert (∃ ta, in_triangle ta a ∧ y_cell n (y_reduce f) x ta) as (ta & Hta & Hcta).
    { destruct (decide (a = b)) as [<-|Hne]; [|exact (first_triangle a b Hab Hne)].
      apply (first_triangle a c); [done|]. intros <-. lia. }
    assert (∃ tb, in_triangle tb b ∧ y_cell n (y_reduce f) x tb) as (tb & Htb & Hctb).
    { destruct (decide (b = a)) as [->|Hne];
        [by exists ta|exact (first_triangle b a Hba Hne)]. }
    assert (∃ tc, in_triangle tc c ∧ y_cell n (y_reduce f) x tc) as (tc & Htc & Hctc).
    { destruct (decide (c = a)) as [->|Hne];
        [by exists ta|exact (first_triangle c a Hca Hne)]. }
    exists ta, tb, tc.
    split; [by apply (conn_reduce a b)|]. split; [by apply (conn_reduce a c)|].
    apply in_triangle_cases in Hta, Htb, Htc. destruct Hctc as [Hvc _]. lia.
  - intros (ta & tb & tc & Hab & Hac & Ha & Hb & Hc).
    destruct (conn_ok_l _ _ _ Hab) as [Hva Hfa].
    destruct (conn_ok_r _ _ _ Hab) as [Hvb Hfb].
    destruct (conn_ok_r _ _ _ Hac) as [Hvc Hfc].
    assert (∃ a, in_triangle ta a ∧ f a = x ∧ m_row a = 0) as (a & Hta & Hfa' & Ha').
    { apply y_reduce_inv in Hfa. unfold in_triangle.
      destruct Hfa as [[? ?]|[[? ?]|[? ?]]];
        [exists ta; by auto| exists ta; by auto|
         exists (mkPosition (m_row ta) (S (m_col ta))); by auto]. }
    assert (∃ b, in_triangle tb b ∧ f b = x ∧ m_col b = 0) as (b & Htb & Hfb' & Hb').
    { apply y_reduce_inv in Hfb. unfold in_triangle.
      destruct Hfb as [[? ?]|[[? ?]|[? ?]]];
        [exists tb; by auto| exists tb; by auto|
         exists (mkPosition (S (m_row tb)) (m_col tb)); by auto]. }
    assert (∃ c, in_triangle tc c ∧ f c = x ∧ m_row c + m_col c = n) as (c & Htc & Hfc' & Hc').
    { apply y_reduce_inv in Hfc. unfold in_triangle.
      destruct Hfc as [[? ?]|[[? ?]|[? ?]]];
        [exists (mkPosition (S (m_row tc)) (m_col tc))
        |exists (mkPosition (m_row tc) (S (m_col tc)))
        |exists (mkPosition (S (m_row tc)) (m_col tc))];
        (split; [by auto|]); (split; [done|]); simpl; lia. }
    exists a, b, c.
    split; [by apply (conn_expand ta tb)|].
    split; [by apply (conn_expand ta tc)|]. lia.
Qed.

End GameOfY.

(** On the board of one cell the colour of the cell wins. *)
Lemma y_wins_one f x : y_wins 1 f x ↔ f (mkPosition 0 0) = x.
Proof.
  split.
  - intros (a & b & c & Hab & _). destruct (conn_ok_l _ _ _ Hab) as [Hv Hf].
    destruct a as [[|r] [|c']]; simpl in *; try lia. done.
  - intros Hf. exists (mkPosition 0 0), (mkPosition 0 0), (mkPosition 0 0).
    assert (conn (y_cell 1 f x) (mkPosition 0 0) (mkPosition 0 0)) as Hc.
    { apply conn_refl. split; [simpl; lia|done]. }
    by repeat split.
Qed.

(** The game of Y has exactly one winner. *)
Lemma y_one_winner n f : 0 < n → y_wins n f true ↔ ¬ y_wins n f false.
Proof.
  intros Hn. revert f. induction n as [|n IH]; intros f; [lia|].
  destruct (decide (n = 0)) as [->|Hn0].
  - rewrite !y_wins_one. by destruct (f (mkPosition 0 0)).
  - rewrite !y_wins_reduce by lia. apply IH. lia.
Qed.

(** ** The square board inside the Y board *)

Lemma segment_conn (ok : Position → Prop) r j k :
  (∀ t, j ≤ t ≤ j + k → ok (mkPosition r t)) →
  conn ok (mkPosition r j) (mkPosition r (j + k)).
Proof.
  revert j. induction k as [|k IH]; intros j Hok.
  - rewrite Nat.add_0_r. apply conn_refl, Hok. lia.
  - eapply conn_step with (q := mkPosition r (S j)); [apply Hok; lia| |].
    + apply adjacent_cases. simpl. lia.
    + replace (j + S k) with (S j + k) by lia. apply IH. intros t Ht. apply Hok. lia.
Qed.

Lemma y_embed_square size x h p :
  on_board size p → y_embed size x h p = h p.
Proof.
  intros [Hr Hc]. unfold y_embed.
  destruct (Nat.leb_spec size (m_row p)); [lia|].
  destruct (Nat.leb_spec size (m_col p)); [lia|]. done.
Qed.

Lemma y_embed_below size x h p : size ≤ m_row p → y_embed size x h p = x.
Proof. intros Hr. unfold y_embed. destruct (Nat.leb_spec size (m_row p)); [done|lia]. Qed.

(** A cell of the rows colour that is not below the square lies in it. *)
Lemma y_embed_rows_cell size x h p :
  m_row p < size → y_embed size x h p = x → on_board size p ∧ h p = x.
Proof.
  intros Hr. unfold y_embed, on_board.
  destruct (Nat.leb_spec size (m_row p)); [lia|].
  destruct (Nat.leb_spec size (m_col p)); [by destruct x|]. done.
Qed.

Lemma wins_rows_y size h x :
  2 ≤ size → wins_rows size h x → y_wins (2 * size - 1) (y_embed size x h) x.
Proof.
  intros Hsize (a & b & Hab & Ha & Hb).
  set (ok := y_cell (2 * size - 1) (y_embed size x h) x).
  assert (∀ p, hex_cell size h x p → ok p) as Hsq.
  { intros p [[Hr Hc] Hp]. split; [lia|]. by rewrite y_embed_square. }
  assert (∀ t, t ≤ size - 2 → ok (mkPosition size t)) as Hlow.
  { intros t Ht. split; [simpl; lia|]. by apply y_embed_below. }
  assert (conn ok a b) as Hab' by by eapply conn_impl.
  (* from [b] on the last row of the square into the row below it *)
  destruct (conn_ok_r _ _ _ Hab) as [[_ Hbc] _].
  assert (∃ t, t ≤ size - 2 ∧ adjacent b (mkPosition size t)) as (t & Ht & Hbt).
  { destruct (decide (m_col b ≤ size - 2)).
    - exists (m_col b). split; [done|]. apply adjacent_cases. simpl. lia.
    - exists (size - 2). split; [done|]. apply adjacent_cases. simpl. lia. }
  assert (conn ok a (mkPosition size t)) as Hat.
  { eapply conn_step_r; [done|done|by apply Hlow]. }
  assert (conn ok (mkPosition size 0) (mkPosition size t)) as H0t.
  { apply (segment_conn ok size 0 t). intros u Hu. apply Hlow. lia. }
  assert (conn ok (mkPosition size t) (mkPosition size (size - 2))) as Htl.
  { assert (size - 2 = t + (size - 2 - t)) as Heq by lia. rewrite Heq.
    apply segment_conn. intros u Hu. apply Hlow. lia. }
  exists a, (mkPosition size 0), (mkPosition size (size - 2)).
  split; [eapply conn_trans; [done|by apply conn_sym]|].
  split; [by eapply conn_trans|]. simpl. lia.
Qed.

(** A connection in the Y board that starts in the square and gets to
    its last row or below passes through the last row of the square. *)
Lemma descend size h x p q :
  conn (y_cell (2 * size - 1) (y_embed size x h) x) p q →
  m_row p < size → size - 1 ≤ m_row q →
  ∃ q', conn (hex_cell size h x) p q' ∧ m_row q' + 1 = size.
Proof.
  induction 1 as [p [Hv Hp]|p p' q [Hv Hp] Hadj Hconn IH]; intros Hr Hq.
  - exists p. split; [|lia]. apply conn_refl. by apply y_embed_rows_cell.
  - assert (hex_cell size h x p) as Hcp by by apply y_embed_rows_cell.
    destruct (decide (m_row p + 1 = size)) as [Hlast|Hlast].
    + exists p. split; [by apply conn_refl|done].
    + destruct IH as (q' & Hq' & Hrow); [|done|].
      { apply adjacent_cases in Hadj. cbv zeta in Hadj. lia. }
      exists q'. split; [|done]. by eapply conn_step.
Qed.

Lemma y_wins_rows size h x :
  2 ≤ size → y_wins (2 * size - 1) (y_embed size x h) x → wins_rows size h x.
Proof.
  intros Hsize (a & b & c & _ & Hac & Ha & _ & Hc).
  destruct (conn_ok_r _ _ _ Hac) as [_ Hfc].
  destruct (descend size h x a c Hac) as (q' & Hq' & Hrow); [lia| |by exists a, q'].
  destruct (decide (size ≤ m_row c)); [lia|].
  apply y_embed_rows_cell in Hfc as [[_ Hcc] _]; lia.
Qed.

(** ** Transposing a board *)

Lemma transpose_involutive p : transpose (transpose p) = p.
Proof. by destruct p. Qed.

Lemma adjacent_transpose p q : adjacent p q → adjacent (transpose p) (transpose q).
Proof. rewrite !adjacent_cases. simpl. lia. Qed.

Lemma conn_transpose (ok : Position → Prop) p q :
  conn ok p q → conn (λ x, ok (transpose x)) (transpose p) (transpose q).
Proof.
  induction 1 as [p Hp|p q r Hp Hadj Hqr IH].
  - apply conn_refl. by rewrite transpose_involutive.
  - eapply conn_step; [by rewrite transpose_involutive|by apply adjacent_transpose|done].
Qed.

Lemma wins_cols_transpose size h x :
  wins_cols size h x ↔ wins_rows size (λ p, h (transpose p)) x.
Proof.
  split; intros (a & b & Hab & Ha & Hb); exists (transpose a), (transpose b).
  - split; [|done]. apply conn_transpose in Hab. eapply conn_impl; [|done].
    intros p [[Hr Hc] Hp]. simpl in *. by repeat split.
  - split; [|done]. apply conn_transpose in Hab. eapply conn_impl; [|done].
    intros p [[Hr Hc] Hp]. simpl in *. rewrite transpose_involutive in Hp. by repeat split.
Qed.

Lemma y_wins_transpose n f x : y_wins n f x → y_wins n (λ p, f (transpose p)) x.
Proof.
  intros (a & b & c & Hab & Hac & Ha & Hb & Hc).
  assert (∀ p q, conn (y_cell n f x) p q →
            conn (y_cell n (λ p, f (transpose p)) x) (transpose p) (transpose q)) as Ht.
  { intros p q Hpq. apply conn_transpose in Hpq. eapply conn_impl; [|done].
    intros r [Hr Hf]. simpl in *. split; [lia|]. done. }
  exists (transpose b), (transpose a), (transpose c).
  split; [by apply Ht, conn_sym|].
  split; [apply Ht; eapply conn_trans; [by apply conn_sym|done]|]. simpl. lia.
Qed.

Lemma y_wins_ext n f f' x :
  (∀ p, m_row p + m_col p < n → f p = f' p) → y_wins n f x → y_wins n f' x.
Proof.
  intros Hext (a & b & c & Hab & Hac & H). exists a, b, c.
  assert (∀ p, y_cell n f x p → y_cell n f' x p) as Himpl.
  { intros p [Hv Hf]. split; [done|]. by rewrite <-Hext. }
  split; [by eapply conn_impl|]. split; [by eapply conn_impl|done].
Qed.

(** ** The square board has exactly one winner *)

Lemma hex_one_winner size h :
  2 ≤ size → wins_rows size h true ↔ ¬ wins_cols size h false.
Proof.
  intros Hsize.
  assert (wins_rows size h true ↔ y_wins (2 * size - 1) (y_embed size true h) true) as ->.
  { split; [by apply wins_rows_y|by apply y_wins_rows]. }
  rewrite y_one_winner by lia.
  assert (wins_cols size h false ↔ y_wins (2 * size - 1) (y_embed size true h) false) as ->;
    [|done].
  rewrite wins_cols_transpose.
  assert (∀ p, m_row p + m_col p < 2 * size - 1 →
            y_embed size false (λ p, h (transpose p)) (transpose p) = y_embed size true h p)
    as Hagree.
  { intros p Hp. unfold y_embed. simpl. rewrite transpose_involutive.
    destruct (Nat.leb_spec size (m_row p)), (Nat.leb_spec size (m_col p)); try done. lia. }
  split.
  - intros Hw. apply wins_rows_y, y_wins_transpose in Hw; [|done].
    eapply y_wins_ext; [|exact Hw]. exact Hagree.
  - intros Hw. apply y_wins_rows; [done|].
    apply y_wins_transpose in Hw.
    eapply y_wins_ext; [|exact Hw].
    intros p Hp. simpl. rewrite <-(Hagree (transpose p)) by (simpl; lia).
    by rewrite transpose_involutive.
Qed.

(** ** [checkWin] on a full board *)

(** The answer of [checkWin] as a connection between the two borders. *)
Lemma checkWin_conn player g :
  wf_game g → marks_clear g → 2 ≤ getSize g ≤ 256 →
  ∃ r g', checkWin player g = Some (r, g') ∧
    wf_game g' ∧ same_colours g g' ∧ marks_clear g' ∧
    (r = true ↔ ∃ a e, conn (holds g (convertPlayer player)) a e ∧
                       starting_border player a ∧ ending_border player (getSize g) e).
Proof.
  intros Hwf Hm Hsize.
  destruct (checkWin_spec player g Hwf) as (r & g' & Hrun & Hwf' & Hsame & Hm' & Htrue & Hfalse).
  exists r, g'. split; [done|]. split; [done|]. split; [done|]. split; [done|]. split.
  - intros Hr. destruct (Htrue Hr) as (a & e & _ & Ha & Hae & He).
    exists a, e. split; [done|]. split; [done|]. apply is_goal_ending; [done|lia|done].
  - intros (a & e & Hae & Ha & He). destruct r; [done|]. exfalso.
    destruct (Hfalse Hm eq_refl a e Ha Hae) as [<-|Hng].
    + destruct player; simpl in *; lia.
    + apply Hng. apply is_goal_ending; [done|lia|done].
Qed.

Lemma holds_red g p : holds g RED p ↔ hex_cell (getSize g) (is_red g) true p.
Proof.
  unfold holds, hex_cell, is_red. split; intros [Hp Hc]; (split; [done|]).
  - by apply bool_decide_eq_true.
  - by apply bool_decide_eq_true in Hc.
Qed.

Lemma holds_green g p :
  board_full g → holds g GREEN p ↔ hex_cell (getSize g) (is_red g) false p.
Proof.
  intros Hfull. unfold holds, hex_cell, is_red. split; intros [Hp Hc]; (split; [done|]).
  - apply bool_decide_eq_false. by rewrite Hc.
  - apply bool_decide_eq_false in Hc. specialize (Hfull p Hp).
    by destruct (colour_at g p).
Qed.

(** On a full board exactly one of the two answers is true. *)
Lemma checkWin_one_winner g :
  wf_game g → marks_clear g → 2 ≤ getSize g ≤ 256 → board_full g →
  ∃ r1 g1 r2 g2,
    checkWin FIRST g = Some (r1, g1) ∧ checkWin SECOND g = Some (r2, g2) ∧
    r1 = negb r2 ∧
    wf_game g1 ∧ same_colours g g1 ∧ marks_clear g1.
Proof.
  intros Hwf Hm Hsize Hfull.
  destruct (checkWin_conn FIRST g Hwf Hm Hsize) as (r1 & g1 & Hrun1 & Hwf1 & Hsame1 & Hm1 & Hiff1).
  destruct (checkWin_conn SECOND g Hwf Hm Hsize) as (r2 & g2 & Hrun2 & _ & _ & _ & Hiff2).
  exists r1, g1, r2, g2. split; [done|]. split; [done|]. split; [|done].
  assert (r2 = true ↔ wins_rows (getSize g) (is_red g) true) as Hrows.
  { rewrite Hiff2. split.
    - intros (a & e & Hae & Ha & He). exists a, e. simpl in *.
      split; [|lia]. eapply conn_impl; [|done]. intros p. apply holds_red.
    - intros (a & e & Hae & Ha & He). exists a, e. simpl.
      split; [|lia]. eapply conn_impl; [|done]. intros p. apply holds_red. }
  assert (r1 = true ↔ wins_cols (getSize g) (is_red g) false) as Hcols.
  { rewrite Hiff1. split.
    - intros (a & e & Hae & Ha & He). exists a, e. simpl in *.
      split; [|lia]. eapply conn_impl; [|done]. intros p. by apply holds_green.
    - intros (a & e & Hae & Ha & He). exists a, e. simpl.
      split; [|lia]. eapply conn_impl; [|done]. intros p. by apply holds_green. }
  pose proof (hex_one_winner (getSize g) (is_red g)) as Hhex.
  destruct r1, r2; simpl; try done; exfalso.
  - apply Hhex; [lia|by apply Hrows|by apply Hcols].
  - assert (¬ wins_cols (getSize g) (is_red g) false) as Hnc.
    { intros Hc. apply Hcols in Hc. done. }
    apply Hhex in Hnc; [|lia]. apply Hrows in Hnc. done.
Qed.

(** The answer depends on the colours alone. *)
Lemma checkWin_same_colours player g g' r r' g1 g1' :
  wf_game g → marks_clear g → wf_game g' → marks_clear g' →
  2 ≤ getSize g ≤ 256 → same_colours g g' →
  checkWin player g = Some (r, g1) → checkWin player g' = Some (r', g1') → r = r'.
Proof.
  intros Hwf Hm Hwf' Hm' Hsize Hsame Hrun Hrun'.
  assert (getSize g' = getSize g) as Hs by apply Hsame.
  destruct (checkWin_conn player g Hwf Hm Hsize) as (r0 & g0 & Hrun0 & _ & _ & _ & Hiff).
  destruct (checkWin_conn player g' Hwf' Hm') as (r0' & g0' & Hrun0' & _ & _ & _ & Hiff');
    [lia|].
  rewrite Hrun in Hrun0. rewrite Hrun' in Hrun0'. simplify_eq.
  rewrite Hs in Hiff'.
  assert (r0 = true ↔ r0' = true) as Heq.
  { rewrite Hiff, Hiff'. split; intros (a & e & Hae & Hb); exists a, e; (split; [|done]).
    - eapply conn_impl; [|done]. intros p. by apply holds_fwd.
    - eapply conn_impl; [|done]. intros p. by apply holds_bwd. }
  destruct Heq as [H1 H2]. destruct r0, r0'; try done.
  - by specialize (H1 eq_refl).
  - by specialize (H2 eq_refl).
Qed.

(** * Properties of the engine *)

(** ** C3: the move interface *)

(** C3.  [playInterface] returns true exactly when row and column are
    below the board size and the target node is empty; it then gives the
    target the player's colour and leaves every other node as it was.
    In every other case it returns false and the game is unchanged. *)
Theorem playInterface_valid_iff (g : HexGame) (player : Player) (row col : Coordinate) :
  wf_game g →
  ∃ valid g', playInterface player row col g = Some (valid, g') ∧
    (valid = true ↔
       row < getSize g ∧ col < getSize g ∧ colour_at g (mkPosition row col) = WHITE) ∧
    (valid = true →
       colour_at g' (mkPosition row col) = convertPlayer player ∧
       ∀ q, q ≠ mkPosition row col → colour_at g' q = colour_at g q) ∧
    (valid = false → g' = g).
Proof.
  intros Hwf. unfold playInterface, checkInputRange, checkRangeSingle.
  destruct (row <? m_size (base g)) eqn:Hr; simpl;
    [destruct (col <? m_size (base g)) eqn:Hc; simpl|].
  - apply Nat.ltb_lt in Hr, Hc.
    destruct (addPlay_spec player row col g Hwf Hr Hc)
      as (valid & g' & -> & Hv & _ & _ & _ & _ & _ & Hres).
    exists valid, g'. split; [done|]. subst valid.
    case_bool_decide as Hw.
    + destruct Hres as (_ & _ & Hcol). split; [by unfold getSize|]. split; [|done].
      intros _. split.
      * rewrite Hcol. by rewrite decide_True.
      * intros q Hq. rewrite Hcol. by rewrite decide_False.
    + split; [|done]. split; [done|]. intros (_ & _ & ?). done.
  - apply Nat.ltb_ge in Hc. exists false, g. split; [done|].
    split; [|done]. split; [done|]. unfold getSize. lia.
  - apply Nat.ltb_ge in Hr. exists false, g. split; [done|].
    split; [|done]. split; [done|]. unfold getSize. lia.
Qed.

Lemma playInterface_valid_iff_witness :
  wf_game game3 ∧
  ∃ valid g', playInterface FIRST 1 2 game3 = Some (valid, g') ∧
    (valid = true ↔
       1 < getSize game3 ∧ 2 < getSize game3 ∧ colour_at game3 (mkPosition 1 2) = WHITE) ∧
    (valid = true →
       colour_at g' (mkPosition 1 2) = convertPlayer FIRST ∧
       ∀ q, q ≠ mkPosition 1 2 → colour_at g' q = colour_at game3 q) ∧
    (valid = false → g' = game3).
Proof.
  split; [apply HexGame_ctor_wf|].
  apply (playInterface_valid_iff game3 FIRST 1 2). apply HexGame_ctor_wf.
Defined.

(** ** C5: the connection lists built at construction *)

Lemma neighbour_counts_checked :
  forallb neighbour_counts_ok (seq cn_MIN_GAME_SIZE 9) = true.
Proof. vm_compute. reflexivity. Qed.

Lemma length_Node_connections size row col :
  cn_MIN_GAME_SIZE ≤ size ≤ cn_MAX_GAME_SIZE → row < size → col < size →
  length (Node_connections row col size) = expected_neighbours size row col.
Proof.
  intros Hsize Hr Hc. pose proof neighbour_counts_checked as H.
  rewrite forallb_forall in H. specialize (H size).
  unfold cn_MIN_GAME_SIZE, cn_MAX_GAME_SIZE in *.
  assert (In size (seq 3 9)) as Hin by (apply in_seq; lia).
  apply H in Hin. unfold neighbour_counts_ok in Hin.
  rewrite forallb_forall in Hin. specialize (Hin row).
  assert (In row (seq 0 size)) as Hinr by (apply in_seq; lia).
  apply Hin in Hinr. rewrite forallb_forall in Hinr. specialize (Hinr col).
  assert (In col (seq 0 size)) as Hinc by (apply in_seq; lia).
  apply Hinr in Hinc. by apply Nat.eqb_eq in Hinc.
Qed.

(** C5.  On a board of a size from 3 to 11 the connection list the
    constructor gives the node at [(row, col)] holds exactly the cells of
    the board at the six offsets, each once: six for a node inside the
    board, four on an edge off the corners, two or three at a corner; and
    a node is in the list of another exactly when the other is in its
    list. *)
Theorem connections_six_offsets uninit (size : MapSize) (row col : Coordinate) :
  cn_MIN_GAME_SIZE ≤ size ≤ cn_MAX_GAME_SIZE → row < size → col < size →
  ∃ n, getNode row col (base (HexGame_ctor uninit size)) = Some n ∧
    (∀ p, p ∈ m_connections n ↔ on_board size p ∧ offset (mkPosition row col) p ∈ six_offsets) ∧
    NoDup (m_connections n) ∧
    (0 < row < size - 1 → 0 < col < size - 1 → length (m_connections n) = 6) ∧
    ((0 < row < size - 1 ∧ (col = 0 ∨ col = size - 1)) ∨
     ((row = 0 ∨ row = size - 1) ∧ 0 < col < size - 1) → length (m_connections n) = 4) ∧
    ((row = 0 ∨ row = size - 1) → (col = 0 ∨ col = size - 1) →
       length (m_connections n) = if decide (row = col) then 2 else 3) ∧
    (∀ row' col' n', getNode row' col' (base (HexGame_ctor uninit size)) = Some n' →
       mkPosition row' col' ∈ m_connections n ↔ mkPosition row col ∈ m_connections n').
Proof.
  intros Hsize Hr Hc. eexists. split; [by apply getNode_Graph_ctor|]. simpl.
  pose proof (length_Node_connections size row col Hsize Hr Hc) as Hlen.
  unfold cn_MIN_GAME_SIZE, cn_MAX_GAME_SIZE in Hsize.
  unfold expected_neighbours, border_index in Hlen.
  split; [apply elem_of_Node_connections|].
  split; [apply NoDup_Node_connections|].
  split; [|split; [|split]].
  - intros ??. rewrite Hlen.
    destruct (row =? 0) eqn:E1; [apply Nat.eqb_eq in E1; lia|].
    destruct (row =? size - 1) eqn:E2; [apply Nat.eqb_eq in E2; lia|].
    destruct (col =? 0) eqn:E3; [apply Nat.eqb_eq in E3; lia|].
    destruct (col =? size - 1) eqn:E4; [apply Nat.eqb_eq in E4; lia|]. done.
  - intros H. rewrite Hlen.
    destruct (row =? 0) eqn:E1; destruct (row =? size - 1) eqn:E2;
    destruct (col =? 0) eqn:E3; destruct (col =? size - 1) eqn:E4; simpl; try done;
    rewrite ?Nat.eqb_eq, ?Nat.eqb_neq in *; lia.
  - intros H1 H2. rewrite Hlen.
    assert ((row =? 0) || (row =? size - 1) = true) as ->.
    { apply orb_true_iff. rewrite !Nat.eqb_eq. lia. }
    assert ((col =? 0) || (col =? size - 1) = true) as ->.
    { apply orb_true_iff. rewrite !Nat.eqb_eq. lia. }
    case_decide as Hd; [by rewrite (proj2 (Nat.eqb_eq _ _) Hd)|].
    by rewrite (proj2 (Nat.eqb_neq _ _) Hd).
  - intros row' col' n' Hn'.
    destruct (getNode_wf_inv _ _ _ _ (Graph_ctor_wf uninit size) Hn') as [_ ->]. simpl.
    rewrite !elem_of_Node_connections. unfold on_board. simpl.
    apply getNode_Some in Hn' as (Hr' & Hc' & _). simpl in Hr', Hc'.
    split; intros [_ Hadj]; (split; [lia|by apply adjacent_sym]).
Qed.

Lemma connections_six_offsets_witness :
  (cn_MIN_GAME_SIZE ≤ 3 ≤ cn_MAX_GAME_SIZE ∧ 0 < 3 ∧ 2 < 3) ∧
  ∃ n, getNode 0 2 (base game3) = Some n ∧ length (m_connections n) = 3.
Proof.
  split; [unfold cn_MIN_GAME_SIZE, cn_MAX_GAME_SIZE; lia|].
  destruct (connections_six_offsets (λ _ _, false) 3 0 2) as (n & Hn & _ & _ & _ & _ & Hcorner & _);
    [unfold cn_MIN_GAME_SIZE, cn_MAX_GAME_SIZE; lia | lia | lia |].
  exists n. split; [exact Hn|]. apply Hcorner; [by left | by right].
Defined.

(** ** C1: what [checkWin] decides *)

(** C1 fails on the code.  [Node]'s constructor leaves [m_traversed] as
    it finds it, and [checkWin] clears the marks only after its search,
    not before.  On [game3_marked_green_row], built over storage that held
    marks, the first player holds the chain [(0, 0)], [(0, 1)], [(0, 2)]
    from column 0 to column 2, yet the seed test of [checkWin] skips
    [(0, 0)] as already traversed and the answer is false.  That call
    clears the marks, and the same question asked again is answered
    true. *)
Theorem checkWin_stale_marks :
  fst <$> checkWin FIRST game3_marked_green_row = Some false ∧
  ('(_, g') ← checkWin FIRST game3_marked_green_row; fst <$> checkWin FIRST g')
    = Some true ∧
  winning_chain game3_marked_green_row FIRST
    [mkPosition 0 0; mkPosition 0 1; mkPosition 0 2].
Proof.
  split; [vm_compute; reflexivity|]. split; [vm_compute; reflexivity|].
  split; [|split].
  - intros p Hp. assert (getSize game3_marked_green_row = 3) as -> by (vm_compute; reflexivity).
    apply elem_of_cons in Hp as [-> |Hp]; [split; [unfold on_board; simpl; lia|vm_compute; reflexivity]|].
    apply elem_of_cons in Hp as [-> |Hp]; [split; [unfold on_board; simpl; lia|vm_compute; reflexivity]|].
    apply list_elem_of_singleton in Hp as ->.
    split; [unfold on_board; simpl; lia|vm_compute; reflexivity].
  - simpl. unfold adjacent, offset, six_offsets. simpl.
    repeat split; do 3 apply list_elem_of_further; apply list_elem_of_here.
  - exists (mkPosition 0 0), (mkPosition 0 2).
    split; [reflexivity|]. split; [reflexivity|]. split; [reflexivity|].
    vm_compute. reflexivity.
Qed.

(** X29.  What [checkWin] decides when no mark is in its way.  On a board
    of a size from 3 to 11 that carries no traverse mark, [checkWin]
    returns, and it returns true exactly when there is a chain of cells of
    the player's colour, consecutive cells adjacent under the six-offset
    rule, whose first cell lies on the player's starting border and whose
    last cell lies on the ending border.  The answer is a function of the
    colours alone. *)
Theorem checkWin_iff_winning_chain (player : Player) (g : HexGame) :
  wf_game g → marks_clear g →
  cn_MIN_GAME_SIZE ≤ getSize g ≤ cn_MAX_GAME_SIZE →
  ∃ r g', checkWin player g = Some (r, g') ∧
    (r = true ↔ ∃ l, winning_chain g player l).
Proof.
  intros Hwf Hm Hsize. unfold cn_MIN_GAME_SIZE, cn_MAX_GAME_SIZE in Hsize.
  destruct (checkWin_chain player g Hwf Hm) as (r & g' & Hrun & _ & _ & _ & Hiff); [lia|].
  by exists r, g'.
Qed.

Lemma checkWin_iff_winning_chain_witness :
  (wf_game game3_green_row ∧ marks_clear game3_green_row ∧
   cn_MIN_GAME_SIZE ≤ getSize game3_green_row ≤ cn_MAX_GAME_SIZE) ∧
  ∃ r g', checkWin FIRST game3_green_row = Some (r, g') ∧
    (r = true ↔ ∃ l, winning_chain game3_green_row FIRST l).
Proof.
  destruct (play_moves_wf [(FIRST, 0, 0); (FIRST, 0, 1); (FIRST, 0, 2)] game3
              (HexGame_ctor_wf _ 3)) as (Hwf & Hs & Hm).
  specialize (Hm (marks_clear_ctor 3)).
  assert (cn_MIN_GAME_SIZE ≤ getSize game3_green_row ≤ cn_MAX_GAME_SIZE) as Hsize.
  { unfold game3_green_row. rewrite Hs. vm_compute. lia. }
  split; [done|].
  exact (checkWin_iff_winning_chain FIRST game3_green_row Hwf Hm Hsize).
Defined.

(** ** C9: [checkWin] leaves no search state behind *)

(** C9.  [checkWin] returns, and in the game it leaves no node of the
    tree carries a traverse mark and every node has the colour it had. *)
Theorem checkWin_clears_marks (player : Player) (g : HexGame) :
  wf_game g →
  ∃ r g', checkWin player g = Some (r, g') ∧
    (∀ n, n ∈ concat (m_tree (base g')) → m_traversed n = false) ∧
    (∀ p, traversed_at g' p = false) ∧
    (∀ p, colour_at g' p = colour_at g p).
Proof.
  intros Hwf.
  destruct (checkWin_spec player g Hwf) as (r & g' & Hrun & Hwf' & Hsame & Hm & _).
  exists r, g'. split; [done|]. split; [|split; [done|apply Hsame]].
  intros n Hn. apply elem_of_tree in Hn; [|apply Hwf'].
  specialize (Hm (n_pos n)). unfold traversed_at, getRow, getCol in Hm. by rewrite Hn in Hm.
Qed.

Lemma checkWin_clears_marks_witness :
  wf_game game3_green_row ∧
  ∃ r g', checkWin FIRST game3_green_row = Some (r, g') ∧
    (∀ n, n ∈ concat (m_tree (base g')) → m_traversed n = false) ∧
    (∀ p, traversed_at g' p = false) ∧
    (∀ p, colour_at g' p = colour_at game3_green_row p).
Proof.
  destruct (play_moves_wf [(FIRST, 0, 0); (FIRST, 0, 1); (FIRST, 0, 2)] game3
              (HexGame_ctor_wf _ 3)) as (Hwf & _).
  split; [done|]. exact (checkWin_clears_marks FIRST game3_green_row Hwf).
Defined.

(** ** C10: the play counters *)

Lemma reachable_from_invariant g0 g :
  reachable_from g0 g → wf_game g0 ∧ counters_ok g0 → wf_game g ∧ counters_ok g.
Proof.
  induction 1 as [|g player row col valid g' _ IH Hplay
                 |g sort rnd g' _ IH Hplay
                 |g row col draws p draws' g' _ IH Hplay
                 |g player r g' _ IH Hplay]; intros H0; [done|..];
    destruct (IH H0) as [Hwf Hc].
  - by eapply playInterface_counters.
  - unfold computerPlay in Hplay.
    destruct (computerPlay_outputs rnd g) as [[outputs g1]|] eqn:Hout; [|done].
    apply computerPlay_outputs_spec in Hout as [-> _]. simpl in Hplay.
    destruct (head (sort outputs)) as [best|]; [|done]. simpl in Hplay.
    destruct (addPlay SECOND _ _ g) as [[valid g2]|] eqn:Hadd; [|done].
    simpl in Hplay. injection Hplay as <-.
    by destruct (addPlay_counters _ _ _ _ _ _ Hwf Hc Hadd) as (? & ? & _).
  - unfold testPlay in Hplay.
    destruct (testPlay_counts row col draws g) as [[[[wins count] d] g1]|] eqn:Hcounts;
      [|done].
    simpl in Hplay. injection Hplay as _ _ <-.
    by destruct (testPlay_counts_spec _ _ _ _ _ _ _ _ Hwf Hc Hcounts) as (_ & _ & ? & ? & _).
  - destruct (checkWin_spec player g Hwf) as (r' & g'' & Hrun & Hwf' & Hsame & _).
    rewrite Hplay in Hrun. injection Hrun as <- <-.
    split; [done|]. by eapply same_colours_counters.
Qed.

Lemma reachable_invariant g : reachable g → wf_game g ∧ counters_ok g.
Proof.
  intros (uninit & size & Hreach). apply (reachable_from_invariant _ _ Hreach).
  split; [apply HexGame_ctor_wf|apply counters_ok_ctor].
Qed.

(** No operation sets a traverse mark that outlives it: a game reached
    from one without marks has none. *)
Lemma reachable_from_marks_clear g0 g :
  reachable_from g0 g → wf_game g0 ∧ counters_ok g0 → marks_clear g0 → marks_clear g.
Proof.
  induction 1 as [|g player row col valid g' Hreach IH Hplay
                 |g sort rnd g' Hreach IH Hplay
                 |g row col draws p draws' g' Hreach IH Hplay
                 |g player r g' Hreach IH Hplay]; intros H0 Hm0; [done|..];
    destruct (reachable_from_invariant _ _ Hreach H0) as [Hwf Hc];
    specialize (IH H0 Hm0).
  - by destruct (playInterface_wf _ _ _ _ _ _ Hwf Hplay) as (_ & _ & Hm); apply Hm.
  - unfold computerPlay in Hplay.
    destruct (computerPlay_outputs rnd g) as [[outputs g1]|] eqn:Hout; [|done].
    apply computerPlay_outputs_spec in Hout as [-> _]. simpl in Hplay.
    destruct (head (sort outputs)) as [best|]; [|done]. simpl in Hplay.
    destruct (addPlay SECOND _ _ g) as [[valid g2]|] eqn:Hadd; [|done].
    simpl in Hplay. injection Hplay as <-.
    destruct (addPlay_counters _ _ _ _ _ _ Hwf Hc Hadd) as (_ & _ & _ & _ & Ht & _).
    intros q. by rewrite Ht.
  - unfold testPlay in Hplay.
    destruct (testPlay_counts row col draws g) as [[[[wins count] d] g1]|] eqn:Hcounts;
      [|done].
    simpl in Hplay. injection Hplay as _ _ <-.
    destruct (testPlay_counts_spec _ _ _ _ _ _ _ _ Hwf Hc Hcounts) as (valid & Hadd & _).
    destruct (addPlay_counters _ _ _ _ _ _ Hwf Hc Hadd) as (_ & _ & _ & _ & Ht & _).
    intros q. by rewrite Ht.
  - destruct (checkWin_spec player g Hwf) as (r' & g'' & Hrun & _ & _ & Hm & _).
    rewrite Hplay in Hrun. by injection Hrun as <- <-.
Qed.

(** Every game reached from a constructor that found its storage zeroed,
    and every game reached after a [checkWin], is without traverse marks:
    the entry condition of X29 and X30. *)
Lemma reachable_marks_clear :
  (∀ size g, reachable_from (HexGame_ctor (λ _ _, false) size) g → marks_clear g) ∧
  (∀ g player r g1 g2, reachable g → checkWin player g = Some (r, g1) →
     reachable_from g1 g2 → marks_clear g2).
Proof.
  split.
  - intros size g Hreach. apply (reachable_from_marks_clear _ _ Hreach).
    + split; [apply HexGame_ctor_wf|apply counters_ok_ctor].
    + apply marks_clear_ctor.
  - intros g player r g1 g2 [Hwf Hc]%reachable_invariant Hrun Hreach.
    destruct (checkWin_spec player g Hwf) as (r' & g' & Hrun' & Hwf' & Hsame & Hm & _).
    rewrite Hrun in Hrun'. injection Hrun' as <- <-.
    apply (reachable_from_marks_clear _ _ Hreach); [|done].
    split; [done|]. by eapply same_colours_counters.
Qed.

(** C10.  In every game reachable from construction through
    [playInterface], [computerPlay], [testPlay] and [checkWin],
    [m_play_total] is the number of nodes that are not [WHITE] and
    [m_play_maximum] is the square of the size.  Hence the test of the
    populating loop of [testPlay] fails exactly on a full board, and the
    loop, whenever it ends, leaves a full board and the invariant. *)
Theorem play_counters_invariant (g : HexGame) :
  reachable g →
  (m_play_total g = played_nodes (base g) ∧
   m_play_maximum g = (Z.of_nat (getSize g) * Z.of_nat (getSize g))%Z) ∧
  (board_full g ↔ (m_play_total g <? m_play_maximum g)%Z = false) ∧
  ∀ draws player draws' player' g',
    fill draws (m_play_total g) player g = Some (draws', player', g') →
    board_full g' ∧ counters_ok g'.
Proof.
  intros [Hwf Hc]%reachable_invariant. split; [exact Hc|]. split.
  - rewrite Z.ltb_ge. destruct (counters_full g Hwf Hc) as [Hle Hfull]. rewrite Hfull. lia.
  - intros draws player draws' player' g' Hfill.
    by destruct (fill_spec _ _ _ _ _ _ Hwf Hc Hfill) as (_ & ? & _ & _ & _ & ?).
Qed.

Lemma play_counters_invariant_witness :
  ∃ g, reachable g ∧
    played_nodes (base g) = 3%Z ∧
    (m_play_total g = played_nodes (base g) ∧
     m_play_maximum g = (Z.of_nat (getSize g) * Z.of_nat (getSize g))%Z) ∧
    (board_full g ↔ (m_play_total g <? m_play_maximum g)%Z = false) ∧
    ∀ draws player draws' player' g',
      fill draws (m_play_total g) player g = Some (draws', player', g') →
      board_full g' ∧ counters_ok g'.
Proof.
  assert (playInterface FIRST 1 1 game3 = Some (true, game3_centre)) as Hmove
    by (vm_compute; reflexivity).
  assert (checkWin FIRST game3_centre = Some (false, game3_centre)) as Hcheck
    by (vm_compute; reflexivity).
  assert (playInterface SECOND 1 1 game3_centre = Some (false, game3_centre)) as Hrefused
    by (vm_compute; reflexivity).
  assert (('(_, _, g2) ← testPlay 0 0 (cycle3 200) game3_centre;
           g3 ← computerPlay sort_ties_last draws3 g2;
           Some (played_nodes (base g3))) = Some 3%Z) as Hrun
    by (vm_compute; reflexivity).
  destruct (testPlay 0 0 (cycle3 200) game3_centre) as [[[p draws'] g2]|] eqn:Hest;
    [|discriminate Hrun].
  cbn [mbind option_bind] in Hrun.
  destruct (computerPlay sort_ties_last draws3 g2) as [g3|] eqn:Hplay; [|discriminate Hrun].
  cbn [mbind option_bind] in Hrun. injection Hrun as Hstones.
  assert (reachable g3) as Hreach.
  { exists (λ _ _, false), 3.
    eapply reachable_computerPlay; [|exact Hplay].
    eapply reachable_testPlay; [|exact Hest].
    eapply reachable_playInterface; [|exact Hrefused].
    eapply reachable_checkWin; [|exact Hcheck].
    eapply reachable_playInterface; [|exact Hmove].
    apply reachable_start. }
  exists g3. split; [exact Hreach|]. split; [exact Hstones|].
  exact (play_counters_invariant g3 Hreach).
Defined.

(** ** C8: the node [computerPlay] occupies was empty *)

(** C8.  On a board with an empty node, once the estimates are computed
    [computerPlay] returns; and whenever it returns it has given the
    second player's colour to one node of the board that was empty before
    the call, every other node keeping its colour. *)
Theorem computerPlay_selects_empty sort rnd (g : HexGame) :
  wf_game g → std_sort_contract sort →
  (∃ p, on_board (getSize g) p ∧ colour_at g p = WHITE) →
  (is_Some (computerPlay_outputs rnd g) → is_Some (computerPlay sort rnd g)) ∧
  ∀ g', computerPlay sort rnd g = Some g' →
    ∃ p, on_board (getSize g) p ∧ colour_at g p = WHITE ∧
         colour_at g' p = convertPlayer SECOND ∧
         ∀ q, q ≠ p → colour_at g' q = colour_at g q.
Proof.
  intros Hwf Hsort Hfree. split.
  - intros [[outputs g1] Hout].
    destruct (computerPlay_spec sort rnd g Hwf (λ l, proj1 (Hsort l)) _ _ Hout Hfree)
      as (best & g' & _ & _ & Hrun & _). by exists g'.
  - intros g' Hrun.
    destruct (computerPlay_outputs rnd g) as [[outputs g1]|] eqn:Hout;
      [|by unfold computerPlay in Hrun; rewrite Hout in Hrun].
    destruct (computerPlay_spec sort rnd g Hwf (λ l, proj1 (Hsort l)) _ _ Hout Hfree)
      as (best & g'' & _ & _ & Hrun' & _ & Hon & Hwhite & Hcol).
    rewrite Hrun in Hrun'. injection Hrun' as <-.
    exists (pr_pos best). split; [done|]. split; [done|]. split.
    + by rewrite Hcol, decide_True.
    + intros q Hq. by rewrite Hcol, decide_False.
Qed.

Lemma game3_two_left_wf : wf_game game3_two_left ∧ getSize game3_two_left = 3.
Proof.
  destruct (play_moves_wf
    [(FIRST, 0, 0); (SECOND, 2, 1); (FIRST, 0, 1); (SECOND, 2, 2);
     (FIRST, 1, 0); (SECOND, 2, 0); (FIRST, 1, 2)] game3 (HexGame_ctor_wf _ 3))
    as (Hwf & Hs & _).
  split; [exact Hwf|exact Hs].
Qed.

Lemma game3_two_left_free :
  ∃ p, on_board (getSize game3_two_left) p ∧ colour_at game3_two_left p = WHITE.
Proof.
  exists (mkPosition 0 2). rewrite (proj2 game3_two_left_wf).
  split; [unfold on_board; simpl; lia|]. vm_compute. reflexivity.
Qed.

Lemma computerPlay_selects_empty_witness :
  (wf_game game3_two_left ∧ std_sort_contract sort_ties_last ∧
   ∃ p, on_board (getSize game3_two_left) p ∧ colour_at game3_two_left p = WHITE) ∧
  is_Some (computerPlay sort_ties_last draws3 game3_two_left).
Proof.
  split; [split; [apply game3_two_left_wf|split;
    [apply sort_ties_last_contract|apply game3_two_left_free]]|].
  apply (computerPlay_selects_empty sort_ties_last draws3 game3_two_left
           (proj1 game3_two_left_wf) sort_ties_last_contract game3_two_left_free).
  apply is_Some_alt. vm_compute. exact I.
Defined.

(** ** C6: ties between the best estimates *)

(** The estimates of [computerPlay] on [game5_green_row].  The first
    player has already joined its borders, so the second player wins no
    playout and each of the twenty empty nodes gets the estimate 0. *)
Lemma computerPlay_outputs_game5_green_row :
  computerPlay_outputs draws5 game5_green_row = Some (game5_estimates, game5_green_row).
Proof.
  apply computerPlay_outputs_intro; [apply (play_moves_wf _ _ (HexGame_ctor_wf _ 5))|].
  assert (filter (λ p, colour_at game5_green_row p = WHITE)
                 (all_positions (getSize game5_green_row))
          = filter (λ p, 0 <? getRow p) (all_positions 5)) as ->
    by (vm_compute; reflexivity).
  unfold game5_estimates.
  let cells := eval vm_compute in (filter (λ p, 0 <? getRow p) (all_positions 5)) in
  change (filter (λ p, 0 <? getRow p) (all_positions 5)) with cells.
  cbn [fmap list_fmap].
  repeat (constructor; [vm_compute; reflexivity|]). constructor.
Qed.

(** [computerPlay] on [game5_green_row] with the sort of libstdc++.  The
    sort returns, and the estimate it leaves first is that of [(3, 0)],
    the eleventh candidate. *)
Lemma computerPlay_game5_green_row :
  pr_pos <$> game5_estimates = filter (λ p, 0 <? getRow p) (all_positions 5) ∧
  forallb (λ o, Qeq_bool (getProb o) 0) game5_estimates = true ∧
  pr_pos <$> earliest_best game5_estimates = Some (mkPosition 1 0) ∧
  is_Some (std_sort_run compareProbability game5_estimates) ∧
  pr_pos <$> head (libstdcxx_sort game5_estimates) = Some (mkPosition 3 0) ∧
  computerPlay libstdcxx_sort draws5 game5_green_row
    = Some (play_moves [(SECOND, 3, 0)] game5_green_row) ∧
  colour_at (play_moves [(SECOND, 3, 0)] game5_green_row) (mkPosition 1 0) = WHITE ∧
  colour_at (play_moves [(SECOND, 3, 0)] game5_green_row) (mkPosition 3 0) = RED.
Proof.
  split; [vm_compute; reflexivity|]. split; [vm_compute; reflexivity|].
  split; [vm_compute; reflexivity|]. split; [apply is_Some_alt; vm_compute; exact I|].
  split; [vm_compute; reflexivity|].
  split; [|split; vm_compute; reflexivity].
  unfold computerPlay. rewrite computerPlay_outputs_game5_green_row.
  vm_compute. reflexivity.
Qed.

(** C6 as stated fails.  On [game5_green_row] all twenty candidates share
    the estimate 0, whatever the random draws.  With more than sixteen
    elements [std::sort] of libstdc++ begins by swapping the middle
    element to the front, and no later step moves an element that
    compares equal to its neighbours: [computerPlay] plays the eleventh
    candidate, [(3, 0)], not [(1, 0)], the earliest. *)
Lemma tie_break_not_earliest : ¬ earliest_tie_break libstdcxx_sort.
Proof.
  intros Hrule.
  destruct computerPlay_game5_green_row as (_ & _ & Hfirst & _ & _ & Hrun & Hcol & _).
  destruct (earliest_best game5_estimates) as [first|] eqn:Hbest; [|discriminate Hfirst].
  injection Hfirst as Hpos.
  assert (wf_game game5_green_row) as Hwf.
  { apply (play_moves_wf _ _ (HexGame_ctor_wf _ 5)). }
  pose proof (Hrule draws5 game5_green_row _ _ _ first Hwf
                computerPlay_outputs_game5_green_row Hrun Hbest) as Hplayed.
  rewrite Hpos, Hcol in Hplayed. discriminate Hplayed.
Qed.

(** With sixteen candidates or fewer the sort of libstdc++ is its
    insertion sort alone, which leaves equal estimates where they are: on
    [game3_two_left] the two candidates tie and [computerPlay] plays the
    earlier one, [(0, 2)]. *)
Lemma computerPlay_game3_two_left_libstdcxx :
  ∃ g', computerPlay libstdcxx_sort draws3 game3_two_left = Some g' ∧
        colour_at g' (mkPosition 0 2) = RED ∧ colour_at g' (mkPosition 1 1) = WHITE.
Proof. vm_compute. eexists. split; [reflexivity|]. split; reflexivity. Qed.

(** C6, amended.  With any sort that meets the contract of [std::sort],
    [computerPlay] plays the node of one of the estimates that no other
    estimate exceeds; which of several such estimates is played is left to
    the sort. *)
Theorem computerPlay_selects_a_best sort rnd (g : HexGame) outputs g1 :
  wf_game g → std_sort_contract sort →
  computerPlay_outputs rnd g = Some (outputs, g1) →
  (∃ p, on_board (getSize g) p ∧ colour_at g p = WHITE) →
  ∃ best g', computerPlay sort rnd g = Some g' ∧
    best ∈ outputs ∧
    (∀ o, o ∈ outputs → (getProb o <= getProb best)%Q) ∧
    colour_at g' (pr_pos best) = convertPlayer SECOND ∧
    ∀ q, q ≠ pr_pos best → colour_at g' q = colour_at g q.
Proof.
  intros Hwf Hsort Hout Hfree.
  destruct (computerPlay_spec sort rnd g Hwf (λ l, proj1 (Hsort l)) _ _ Hout Hfree)
    as (best & g' & Hhead & Hbest & Hrun & _ & _ & _ & Hcol).
  exists best, g'. split; [done|]. split; [done|]. split; [|split].
  - intros o Ho. destruct (Hsort outputs) as [Hperm Hsorted].
    destruct (sort outputs) as [|b sorted]; [done|]. simpl in Hhead. injection Hhead as ->.
    rewrite <-Hperm in Ho. apply StronglySorted_inv in Hsorted as [_ Hall].
    apply elem_of_cons in Ho as [-> |Ho]; [apply Qle_refl|].
    rewrite Forall_forall in Hall. by apply compareProbability_false, Hall.
  - by rewrite Hcol, decide_True.
  - intros q Hq. by rewrite Hcol, decide_False.
Qed.

Lemma computerPlay_selects_a_best_witness :
  ∃ outputs g1,
    (wf_game game3_two_left ∧ std_sort_contract sort_ties_last ∧
     computerPlay_outputs draws3 game3_two_left = Some (outputs, g1) ∧
     ∃ p, on_board (getSize game3_two_left) p ∧ colour_at game3_two_left p = WHITE) ∧
    ∃ best g', computerPlay sort_ties_last draws3 game3_two_left = Some g' ∧
      best ∈ outputs ∧
      (∀ o, o ∈ outputs → (getProb o <= getProb best)%Q) ∧
      colour_at g' (pr_pos best) = convertPlayer SECOND ∧
      ∀ q, q ≠ pr_pos best → colour_at g' q = colour_at game3_two_left q.
Proof.
  assert (∃ outputs g1, computerPlay_outputs draws3 game3_two_left = Some (outputs, g1))
    as (outputs & g1 & Hout).
  { vm_compute. eexists _, _. reflexivity. }
  exists outputs, g1.
  split; [split; [apply game3_two_left_wf|split;
    [apply sort_ties_last_contract|split; [exact Hout|apply game3_two_left_free]]]|].
  exact (computerPlay_selects_a_best sort_ties_last draws3 game3_two_left outputs g1
           (proj1 game3_two_left_wf) sort_ties_last_contract Hout game3_two_left_free).
Defined.

(** ** C4: the value [testPlay] returns *)

(** C4 fails on the code.  On a board of size 3 the limit is 150
    playouts.  From [game3_two_left] with the candidate [(0, 2)] the
    second player wins every one of them, and [testPlay] returns 150/151:
    the post-increment of [count] in the loop test leaves [count] at 151,
    one above the number of playouts run. *)
Theorem testPlay_divides_by_limit_plus_one :
  play_limit (getSize game3_two_left) = 150%Z ∧
  (λ r, (r.1.1.1, r.1.1.2)) <$> testPlay_counts 0 2 (cycle3 200) game3_two_left
    = Some (150, 151)%Z ∧
  (λ r, Qeq_bool (m_value r.1.1) (150 # 151)) <$> testPlay 0 2 (cycle3 200) game3_two_left
    = Some true ∧
  (λ r, Qeq_bool (m_value r.1.1) (150 # 150)) <$> testPlay 0 2 (cycle3 200) game3_two_left
    = Some false.
Proof. vm_compute. split; [reflexivity|]. split; [reflexivity|]. split; reflexivity. Qed.

(** ** C7: who moves first in a playout *)

(** C7 fails on the code.  [testPlay] places the candidate for the second
    player and then starts every playout with [player] at [SECOND] again.
    From [game3_two_left] with the candidate [(0, 2)] one node is left,
    [(1, 1)]; the populating loop gives it to the second player, who then
    wins all 150 playouts.  With the first player moving next, as in a
    game, the second player would win none. *)
Theorem playout_starts_with_second_player :
  ('(_, g1) ← addPlay SECOND 0 2 game3_two_left;
   '(_, next, g2) ← fill [1; 1] (m_play_total g1) SECOND g1;
   Some (next, colour_at g2 (mkPosition 1 1),
         forallb (λ p, bool_decide (colour_at g2 p ≠ WHITE)) (all_positions 3)))
    = Some (FIRST, RED, true) ∧
  (λ r, r.1.1.1) <$> testPlay_counts 0 2 (cycle3 200) game3_two_left = Some 150%Z.
Proof. vm_compute. split; reflexivity. Qed.

(** ** C2: a full board has exactly one winner *)

(** C2 fails on the code, through the defect of C1.  [game3_marked_full]
    is a full board built over storage that held traverse marks.  Asked
    on it, [checkWin] answers false for the first player, whose chain
    [(2, 0)], [(1, 1)], [(0, 2)] joins column 0 to column 2, and false for
    the second player: a draw.  The second answer is false whether it is
    asked of the game as built or of the game the first call left.  Once
    the first call has cleared the marks the first player's win is
    found. *)
Theorem full_board_draw_stale_marks :
  forallb (λ p, bool_decide (colour_at game3_marked_full p ≠ WHITE)) (all_positions 3)
    = true ∧
  fst <$> checkWin FIRST game3_marked_full = Some false ∧
  fst <$> checkWin SECOND game3_marked_full = Some false ∧
  ('(_, g1) ← checkWin FIRST game3_marked_full; fst <$> checkWin SECOND g1) = Some false ∧
  ('(_, g1) ← checkWin FIRST game3_marked_full; fst <$> checkWin FIRST g1) = Some true ∧
  winning_chain game3_marked_full FIRST [mkPosition 2 0; mkPosition 1 1; mkPosition 0 2].
Proof.
  split; [vm_compute; reflexivity|]. split; [vm_compute; reflexivity|].
  split; [vm_compute; reflexivity|]. split; [vm_compute; reflexivity|].
  split; [vm_compute; reflexivity|].
  split; [|split].
  - intros p Hp. assert (getSize game3_marked_full = 3) as -> by (vm_compute; reflexivity).
    apply elem_of_cons in Hp as [-> |Hp]; [split; [unfold on_board; simpl; lia|vm_compute; reflexivity]|].
    apply elem_of_cons in Hp as [-> |Hp]; [split; [unfold on_board; simpl; lia|vm_compute; reflexivity]|].
    apply list_elem_of_singleton in Hp as ->.
    split; [unfold on_board; simpl; lia|vm_compute; reflexivity].
  - simpl. unfold adjacent, offset, six_offsets. simpl.
    repeat split; do 4 apply list_elem_of_further; apply list_elem_of_here.
  - exists (mkPosition 2 0), (mkPosition 0 2).
    split; [reflexivity|]. split; [reflexivity|]. split; [reflexivity|].
    vm_compute. reflexivity.
Qed.

(** X30.  No draw and no double win when no mark is in the way.  On a
    board of a size from 3 to 11 that carries no traverse mark and on
    which no node is [WHITE], [checkWin] returns for both players and
    exactly one of the two answers is true, whether the second call is
    made on the game as it was or on the game the first call left. *)
Theorem full_board_exactly_one_winner (g : HexGame) :
  wf_game g → marks_clear g →
  cn_MIN_GAME_SIZE ≤ getSize g ≤ cn_MAX_GAME_SIZE →
  board_full g →
  ∃ first_wins g1 second_wins g2 g2',
    checkWin FIRST g = Some (first_wins, g1) ∧
    checkWin SECOND g = Some (second_wins, g2) ∧
    checkWin SECOND g1 = Some (second_wins, g2') ∧
    first_wins = negb second_wins.
Proof.
  intros Hwf Hm Hsize Hfull. unfold cn_MIN_GAME_SIZE, cn_MAX_GAME_SIZE in Hsize.
  destruct (checkWin_one_winner g Hwf Hm) as (r1 & g1 & r2 & g2 & Hrun1 & Hrun2 & Hneg & Hwf1 & Hsame1 & Hm1);
    [lia|done|].
  destruct (checkWin_spec SECOND g1 Hwf1) as (r2' & g2' & Hrun2' & _).
  exists r1, g1, r2, g2, g2'. split; [done|]. split; [done|]. split; [|done].
  rewrite Hrun2'. do 2 f_equal.
  symmetry. eapply (checkWin_same_colours SECOND g g1); try done. lia.
Qed.

Lemma game3_full_ok :
  wf_game game3_full ∧ marks_clear game3_full ∧ getSize game3_full = 3 ∧
  board_full game3_full.
Proof.
  destruct (play_moves_wf
    [(FIRST, 0, 0); (SECOND, 0, 1); (FIRST, 0, 2);
     (SECOND, 1, 0); (FIRST, 1, 1); (SECOND, 1, 2);
     (FIRST, 2, 0); (SECOND, 2, 1); (FIRST, 2, 2)] game3 (HexGame_ctor_wf _ 3))
    as (Hwf & Hs & Hm).
  split; [exact Hwf|]. split; [exact (Hm (marks_clear_ctor 3))|]. split; [exact Hs|].
  apply (board_full_played game3_full Hwf). vm_compute. reflexivity.
Qed.

Lemma full_board_exactly_one_winner_witness :
  (wf_game game3_full ∧ marks_clear game3_full ∧
   cn_MIN_GAME_SIZE ≤ getSize game3_full ≤ cn_MAX_GAME_SIZE ∧
   board_full game3_full) ∧
  ∃ first_wins g1 second_wins g2 g2',
    checkWin FIRST game3_full = Some (first_wins, g1) ∧
    checkWin SECOND game3_full = Some (second_wins, g2) ∧
    checkWin SECOND g1 = Some (second_wins, g2') ∧
    first_wins = negb second_wins.
Proof.
  destruct game3_full_ok as (Hwf & Hm & Hs & Hfull).
  assert (cn_MIN_GAME_SIZE ≤ getSize game3_full ≤ cn_MAX_GAME_SIZE) as Hsize.
  { rewrite Hs. unfold cn_MIN_GAME_SIZE, cn_MAX_GAME_SIZE. lia. }
  split; [exact (conj Hwf (conj Hm (conj Hsize Hfull)))|].
  exact (full_board_exactly_one_winner game3_full Hwf Hm Hsize Hfull).
Defined.

(** * Further properties of the engine *)

(** ** graph.h: the accessors *)

Lemma getNode_is_Some row col b :
  wf_graph b → is_Some (getNode row col b) ↔ row < m_size b ∧ col < m_size b.
Proof.
  intros Hwf. split.
  - intros [n Hn]. apply getNode_Some in Hn. tauto.
  - intros [Hr Hc]. destruct (getNode_wf row col b Hwf Hr Hc) as (n & -> & _). by eexists.
Qed.

Lemma updNode_Some_iff f row col b :
  wf_graph b → is_Some (updNode f row col b) ↔ row < m_size b ∧ col < m_size b.
Proof.
  intros Hwf. split.
  - intros [b' Hb']. by apply updNode_in_range in Hb'.
  - intros [Hr Hc]. by apply updNode_is_Some.
Qed.

Lemma is_Some_bind_Some {A B} (f : A → B) (m : option A) :
  is_Some (x ← m; Some (f x)) ↔ is_Some m.
Proof.
  destruct m as [x|]; simpl; split; intros [y Hy]; try discriminate Hy;
    eexists; reflexivity.
Qed.

(** X1.  On a graph of the shape the constructor builds, each accessor
    answers exactly for [row < size] and [col < size]; outside, the
    assertion of [getNode] stops it. *)
Theorem Graph_accessors_in_range b row col :
  wf_graph b →
  let inside := row < m_size b ∧ col < m_size b in
  (is_Some (getNode row col b) ↔ inside) ∧
  (∀ colour, is_Some (isNodeColour colour row col b) ↔ inside) ∧
  (is_Some (isNodeFree row col b) ↔ inside) ∧
  (∀ colour, is_Some (setNode colour row col b) ↔ inside) ∧
  (is_Some (setTraverse row col b) ↔ inside) ∧
  (is_Some (clearTraverse row col b) ↔ inside) ∧
  (is_Some (getTraverse row col b) ↔ inside) ∧
  (is_Some (getConnections row col b) ↔ inside).
Proof.
  intros Hwf inside. subst inside.
  pose proof (getNode_is_Some row col b Hwf) as Hget.
  split; [done|].
  split; [intros colour; unfold isNodeColour; by rewrite is_Some_bind_Some|].
  split; [unfold isNodeFree, isNodeColour; by rewrite is_Some_bind_Some|].
  split; [intros colour; by apply updNode_Some_iff|].
  split; [by apply updNode_Some_iff|].
  split; [by apply updNode_Some_iff|].
  split.
  - unfold getTraverse. by rewrite is_Some_bind_Some.
  - unfold getConnections. by rewrite is_Some_bind_Some.
Qed.

Lemma Graph_accessors_in_range_witness :
  wf_graph (Graph_ctor (λ _ _, false) 3) ∧
  is_Some (getNode 2 2 (Graph_ctor (λ _ _, false) 3)) ∧
  ¬ is_Some (setNode RED 3 0 (Graph_ctor (λ _ _, false) 3)).
Proof.
  split; [apply Graph_ctor_wf|].
  destruct (Graph_accessors_in_range (Graph_ctor (λ _ _, false) 3) 2 2
              (Graph_ctor_wf _ 3)) as (Hget & _).
  destruct (Graph_accessors_in_range (Graph_ctor (λ _ _, false) 3) 3 0
              (Graph_ctor_wf _ 3)) as (_ & _ & _ & Hset & _).
  split; [apply Hget; simpl; lia|].
  intros H. apply Hset in H. simpl in H. lia.
Defined.

(** X2.  [setNode] followed by [isNodeColour]: the node written answers
    for the colour written and no other, every other node answers as
    before, and neither the size, the traverse marks nor the connection
    lists change. *)
Theorem setNode_isNodeColour colour row col b b' :
  setNode colour row col b = Some b' →
  m_size b' = m_size b ∧
  (∀ c r k, isNodeColour c r k b' =
     if bool_decide (r = row ∧ k = col) then Some (bool_decide (colour = c))
     else isNodeColour c r k b) ∧
  (∀ r k, getTraverse r k b' = getTraverse r k b) ∧
  (∀ r k, getConnections r k b' = getConnections r k b).
Proof.
  intros Hset. unfold setNode in Hset.
  assert (is_Some (getNode row col b)) as [n Hn].
  { unfold updNode in Hset. destruct (getNode row col b); [by eexists|done]. }
  split; [by eapply updNode_size|].
  split; [|split].
  - intros c r k. unfold isNodeColour. rewrite (getNode_updNode _ _ _ _ _ r k Hset).
    case_bool_decide as Hd; [|done]. destruct Hd as [-> ->]. by rewrite Hn.
  - intros r k. unfold getTraverse. rewrite (getNode_updNode _ _ _ _ _ r k Hset).
    case_bool_decide as Hd; [|done]. destruct Hd as [-> ->]. by rewrite Hn.
  - intros r k. unfold getConnections. rewrite (getNode_updNode _ _ _ _ _ r k Hset).
    case_bool_decide as Hd; [|done]. destruct Hd as [-> ->]. by rewrite Hn.
Qed.

Lemma setNode_isNodeColour_witness :
  ∃ b', setNode RED 1 2 (Graph_ctor (λ _ _, false) 3) = Some b' ∧
        isNodeColour RED 1 2 b' = Some true ∧ isNodeColour WHITE 1 2 b' = Some false ∧
        isNodeColour WHITE 0 0 b' = Some true.
Proof.
  assert (∃ b', setNode RED 1 2 (Graph_ctor (λ _ _, false) 3) = Some b') as [b' Hb'].
  { vm_compute. eexists. reflexivity. }
  exists b'. split; [exact Hb'|].
  destruct (setNode_isNodeColour RED 1 2 _ b' Hb') as (_ & Hcol & _).
  rewrite !Hcol. split; [reflexivity|]. split; [reflexivity|]. vm_compute. reflexivity.
Defined.

(** X3.  The traverse mark of a node is what [setTraverse] or
    [clearTraverse] wrote last: [getTraverse] reads true after the one
    and false after the other at the node written and is unchanged
    elsewhere, and no colour changes. *)
Theorem traverse_mark_round_trip mark row col b b' :
  (if (mark : bool) then setTraverse row col b else clearTraverse row col b) = Some b' →
  m_size b' = m_size b ∧
  (∀ r k, getTraverse r k b' =
     if bool_decide (r = row ∧ k = col) then Some mark else getTraverse r k b) ∧
  (∀ c r k, isNodeColour c r k b' = isNodeColour c r k b).
Proof.
  intros Hset.
  assert (updNode (Node_setTraverse mark) row col b = Some b') as Hupd.
  { by destruct mark. }
  clear Hset.
  assert (is_Some (getNode row col b)) as [n Hn].
  { unfold updNode in Hupd. destruct (getNode row col b); [by eexists|done]. }
  split; [by eapply updNode_size|]. split.
  - intros r k. unfold getTraverse. rewrite (getNode_updNode _ _ _ _ _ r k Hupd).
    case_bool_decide as Hd; [|done]. destruct Hd as [-> ->]. by rewrite Hn.
  - intros c r k. unfold isNodeColour. rewrite (getNode_updNode _ _ _ _ _ r k Hupd).
    case_bool_decide as Hd; [|done]. destruct Hd as [-> ->]. by rewrite Hn.
Qed.

Lemma traverse_mark_round_trip_witness :
  ∃ b', setTraverse 0 1 (Graph_ctor (λ _ _, false) 3) = Some b' ∧
        getTraverse 0 1 b' = Some true ∧ getTraverse 1 1 b' = Some false.
Proof.
  assert (∃ b', setTraverse 0 1 (Graph_ctor (λ _ _, false) 3) = Some b') as [b' Hb'].
  { vm_compute. eexists. reflexivity. }
  exists b'. split; [exact Hb'|].
  destruct (traverse_mark_round_trip true 0 1 _ b' Hb') as (_ & Hmark & _).
  rewrite !Hmark. split; [reflexivity|]. vm_compute. reflexivity.
Defined.

(** ** node.h: the connections on a board of any size *)

Lemma offset_inj p q q' : offset p q = offset p q' → q = q'.
Proof.
  destruct q as [r c], q' as [r' c']. unfold offset. simpl. intros [= Hr Hc].
  f_equal; lia.
Qed.

(** X26.  Whatever the size of the board, the constructor gives a node
    at most six connections, each a different node of the board next to
    it under the six-offset rule, and never the node itself. *)
Theorem Node_connections_any_size (row col : Coordinate) (board : MapSize) :
  length (Node_connections row col board) ≤ 6 ∧
  NoDup (Node_connections row col board) ∧
  (mkPosition row col ∉ Node_connections row col board) ∧
  ∀ p, p ∈ Node_connections row col board ↔
       on_board board p ∧ offset (mkPosition row col) p ∈ six_offsets.
Proof.
  split; [|split; [apply NoDup_Node_connections|split]].
  - assert (offset (mkPosition row col) <$> Node_connections row col board ⊆+ six_offsets)
      as Hsub.
    { apply NoDup_submseteq.
      - apply NoDup_fmap_2_strong; [|apply NoDup_Node_connections].
        intros q q' _ _. apply offset_inj.
      - intros o (q & -> & Hq)%list_elem_of_fmap.
        by apply elem_of_Node_connections in Hq as [_ Hadj]. }
    apply submseteq_length in Hsub. by rewrite length_fmap in Hsub.
  - intros [_ Hadj]%elem_of_Node_connections. by apply adjacent_irrefl in Hadj.
  - intros p. apply elem_of_Node_connections.
Qed.

(** ** probability.h: the comparison handed to [std::sort] *)

(** X4.  [compareProbability] is a strict weak ordering of the estimates,
    which is what [std::sort] requires of its comparison: nothing
    compares before itself, the comparison is transitive, and so is
    "neither compares before the other". *)
Theorem compareProbability_strict_weak_order :
  (∀ a, compareProbability a a = false) ∧
  (∀ a b c, compareProbability a b = true → compareProbability b c = true →
            compareProbability a c = true) ∧
  (∀ a b c, compareProbability a b = false ∧ compareProbability b a = false →
            compareProbability b c = false ∧ compareProbability c b = false →
            compareProbability a c = false ∧ compareProbability c a = false).
Proof.
  split; [|split].
  - intros a. apply compareProbability_false, Qle_refl.
  - intros a b c. rewrite !compareProbability_true. intros Hab Hbc.
    by apply (Qlt_trans _ (getProb b)).
  - intros a b c. rewrite !compareProbability_false. intros [Hab Hba] [Hbc Hcb].
    split; [by apply (Qle_trans _ (getProb b))|by apply (Qle_trans _ (getProb b))].
Qed.

(** ** hex_game.h: more on [checkWin] and [findPath] *)

(** Two graphs of the constructor's shape with the same nodes are equal. *)
Lemma Graph_ext b b' :
  wf_graph b → wf_graph b' → m_size b' = m_size b →
  (∀ row col, getNode row col b' = getNode row col b) → b' = b.
Proof.
  intros Hwf Hwf' Hsize Hget. destruct b as [size tree], b' as [size' tree'].
  simpl in *. subst size'. f_equal.
  destruct Hwf as [Hlen Hrows], Hwf' as [Hlen' Hrows']. simpl in *.
  apply list_eq. intros i.
  destruct (tree !! i) as [row_v|] eqn:Hi.
  - assert (i < size) as Hisz by (rewrite <-Hlen; by eapply lookup_lt_Some).
    destruct (lookup_lt_is_Some_2 tree' i) as [row_v' Hi']; [lia|].
    rewrite Hi'. f_equal. apply list_eq. intros j.
    destruct (Hrows i row_v Hi) as [Hl _]. destruct (Hrows' i row_v' Hi') as [Hl' _].
    destruct (decide (j < size)) as [Hj|Hj].
    + specialize (Hget i j). unfold getNode in Hget. simpl in Hget.
      rewrite (proj2 (Nat.ltb_lt _ _) Hisz), (proj2 (Nat.ltb_lt _ _) Hj) in Hget.
      simpl in Hget. by rewrite Hi, Hi' in Hget.
    + by rewrite !lookup_ge_None_2 by lia.
  - apply lookup_ge_None in Hi. by rewrite lookup_ge_None_2 by lia.
Qed.

(** Two well-formed games with the same colours and no marks are equal. *)
Lemma same_colours_eq g g' :
  wf_game g → wf_game g' → same_colours g g' → marks_clear g → marks_clear g' → g' = g.
Proof.
  intros [Hwf Hlim] [Hwf' Hlim'] (Hsize & Hl & Ht & Hmax & _ & Hcol) Hm Hm'.
  assert (base g' = base g) as Hbase.
  { apply Graph_ext; [done..|]. intros row col.
    destruct (decide (row < m_size (base g) ∧ col < m_size (base g))) as [[Hr Hc]|Hout].
    - destruct (getNode_wf row col (base g) Hwf Hr Hc) as (n & Hn & Hpos & Hconn).
      unfold getSize in Hsize.
      destruct (getNode_wf row col (base g') Hwf') as (n' & Hn' & Hpos' & Hconn'); [lia..|].
      rewrite Hn, Hn'. f_equal.
      destruct (getNode_obs g row col n Hn) as [Hc1 Ht1].
      destruct (getNode_obs g' row col n' Hn') as [Hc2 Ht2].
      specialize (Hcol (mkPosition row col)). specialize (Hm (mkPosition row col)).
      specialize (Hm' (mkPosition row col)).
      destruct n, n'. simpl in *. rewrite Hsize in Hconn'. congruence.
    - destruct (getNode row col (base g)) as [n|] eqn:Hn.
      { apply getNode_Some in Hn. tauto. }
      destruct (getNode row col (base g')) as [n'|] eqn:Hn'; [|done].
      apply getNode_Some in Hn'. unfold getSize in Hsize. rewrite Hsize in Hn'. tauto. }
  destruct g, g'. simpl in *. congruence.
Qed.

Lemma findPath_loop_mono (rec rec' : Connections → HexGame → option (bool * HexGame))
    colour net :
  (∀ net g x, rec net g = Some x → rec' net g = Some x) →
  ∀ ret g x, findPath_loop rec colour net ret g = Some x →
             findPath_loop rec' colour net ret g = Some x.
Proof.
  intros Hrec. induction net as [|node net IH]; intros ret g x Hrun; [done|].
  cbn [findPath_loop] in *.
  destruct (getNode (getRow node) (getCol node) (base g)) as [temp|]; [|done].
  cbn [mbind option_bind] in *.
  destruct (_ && bool_decide (m_colour temp = colour)); [done|].
  destruct (bool_decide (m_colour temp = colour) && negb (m_traversed temp)); [|by apply IH].
  destruct (updNode _ _ _ _) as [b|]; [|done]. cbn [mbind option_bind] in *.
  destruct (rec (m_connections temp) (with_base b g)) as [[r g']|] eqn:Hr; [|done].
  rewrite (Hrec _ _ _ Hr). cbn [mbind option_bind] in *. by apply IH.
Qed.

Lemma findPath_mono depth depth' colour net g x :
  depth ≤ depth' → findPath depth colour net g = Some x →
  findPath depth' colour net g = Some x.
Proof.
  revert depth' net g x. induction depth as [|depth IH]; intros depth' net g x Hle Hrun;
    [done|].
  destruct depth' as [|depth']; [lia|]. cbn [findPath] in *.
  eapply findPath_loop_mono; [|exact Hrun].
  intros net' g0 x0. apply IH. lia.
Qed.

(** X5.  The recursion of [findPath] ends: its depth stays within the
    number of nodes that carry no traverse mark.  With any bound above
    that number the search returns, and returns the same answer and game;
    it changes no colour and removes no mark. *)
Theorem findPath_depth_bounded colour net g :
  wf_game g → (∀ p, p ∈ net → on_board (getSize g) p) →
  ∃ r g',
    (∀ depth, unmarked g < depth → findPath depth colour net g = Some (r, g')) ∧
    same_colours g g' ∧
    (∀ p, traversed_at g p = true → traversed_at g' p = true).
Proof.
  intros Hwf Hnet.
  destruct (findPath_total (S (unmarked g)) colour net g Hwf Hnet) as [[r g'] Hrun]; [lia|].
  exists r, g'. split.
  - intros depth Hdepth. eapply findPath_mono; [|exact Hrun]. lia.
  - by destruct (findPath_spec _ _ _ _ _ _ Hwf Hnet Hrun) as (_ & ? & ? & _).
Qed.

Lemma findPath_depth_bounded_witness :
  (wf_game game3_green_row ∧
   ∀ p, p ∈ [mkPosition 0 1; mkPosition 1 0] → on_board (getSize game3_green_row) p) ∧
  ∃ r g', findPath 10 GREEN [mkPosition 0 1; mkPosition 1 0] game3_green_row = Some (r, g').
Proof.
  destruct (play_moves_wf [(FIRST, 0, 0); (FIRST, 0, 1); (FIRST, 0, 2)] game3
              (HexGame_ctor_wf _ 3)) as (Hwf & Hs & _).
  assert (∀ p, p ∈ [mkPosition 0 1; mkPosition 1 0] →
               on_board (getSize game3_green_row) p) as Hnet.
  { intros p Hp. unfold game3_green_row. rewrite Hs. change (getSize game3) with 3. unfold on_board.
    apply elem_of_cons in Hp as [-> |Hp]; [simpl; lia|].
    apply list_elem_of_singleton in Hp as ->. simpl. lia. }
  split; [exact (conj Hwf Hnet)|].
  destruct (findPath_depth_bounded GREEN _ game3_green_row Hwf Hnet) as (r & g' & Hrun & _).
  exists r, g'. apply Hrun.
  pose proof (unmarked_bound game3_green_row) as Hb.
  unfold game3_green_row in Hb at 2 3. rewrite Hs in Hb.
  change (getSize game3) with 3 in Hb. lia.
Defined.

(** X6.  [checkWin] never reports a win that is not on the board: on any
    game of the constructor's shape, whatever traverse marks it carries,
    [checkWin] returns, and when it returns true the player has a chain
    from the starting to the ending border. *)
Theorem checkWin_true_has_chain player g :
  wf_game g → getSize g ≤ 255 →
  ∃ r g', checkWin player g = Some (r, g') ∧
          (r = true → ∃ l, winning_chain g player l).
Proof.
  intros Hwf Hsize.
  destruct (checkWin_spec player g Hwf) as (r & g' & Hrun & _ & _ & _ & Htrue & _).
  exists r, g'. split; [done|]. intros Hr.
  destruct (Htrue Hr) as (a & e & Ha & Hstart & Hconn & Hgoal).
  apply conn_chain in Hconn as (l & Hhead & Hlast & Hall & Hadj).
  exists l. split; [exact Hall|]. split; [exact Hadj|].
  exists a, e. split; [done|]. split; [done|]. split; [done|].
  apply (is_goal_ending player g e Hwf); [|done]. destruct Ha. lia.
Qed.

Lemma checkWin_true_has_chain_witness :
  (wf_game game3_green_row ∧ getSize game3_green_row ≤ 255) ∧
  ∃ r g', checkWin FIRST game3_green_row = Some (r, g') ∧
          (r = true → ∃ l, winning_chain game3_green_row FIRST l).
Proof.
  destruct (play_moves_wf [(FIRST, 0, 0); (FIRST, 0, 1); (FIRST, 0, 2)] game3
              (HexGame_ctor_wf _ 3)) as (Hwf & Hs & _).
  assert (getSize game3_green_row ≤ 255) as Hsize.
  { unfold game3_green_row. rewrite Hs. change (getSize game3) with 3. lia. }
  split; [exact (conj Hwf Hsize)|].
  exact (checkWin_true_has_chain FIRST game3_green_row Hwf Hsize).
Defined.

(** X7.  On a game that carries no traverse mark [checkWin] is a pure
    query: the game it leaves is the game it was given, field for field. *)
Theorem checkWin_leaves_game player g :
  wf_game g → marks_clear g →
  ∃ r, checkWin player g = Some (r, g).
Proof.
  intros Hwf Hm.
  destruct (checkWin_spec player g Hwf) as (r & g' & Hrun & Hwf' & Hsame & Hm' & _).
  exists r. rewrite Hrun. do 2 f_equal. by apply same_colours_eq.
Qed.

Lemma checkWin_leaves_game_witness :
  (wf_game game3_green_row ∧ marks_clear game3_green_row) ∧
  ∃ r, checkWin SECOND game3_green_row = Some (r, game3_green_row).
Proof.
  destruct (play_moves_wf [(FIRST, 0, 0); (FIRST, 0, 1); (FIRST, 0, 2)] game3
              (HexGame_ctor_wf _ 3)) as (Hwf & _ & Hm).
  specialize (Hm (marks_clear_ctor 3)).
  split; [exact (conj Hwf Hm)|].
  exact (checkWin_leaves_game SECOND game3_green_row Hwf Hm).
Defined.

(** ** hex_game.h: moves and the win check together *)

Lemma addPlay_in_range player row col g x :
  addPlay player row col g = Some x → row < getSize g ∧ col < getSize g.
Proof.
  intros Hadd. destruct (decide (row < getSize g ∧ col < getSize g)) as [?|Hout]; [done|].
  by rewrite (addPlay_off_board player row col g Hout) in Hadd.
Qed.

(** What a call of [addPlay] that returns does to the colours. *)
Lemma addPlay_colours player row col g valid g' :
  wf_game g → addPlay player row col g = Some (valid, g') →
  wf_game g' ∧ getSize g' = getSize g ∧
  (∀ q, traversed_at g' q = traversed_at g q) ∧
  if valid
  then on_board (getSize g) (mkPosition row col) ∧
       colour_at g (mkPosition row col) = WHITE ∧
       ∀ x, colour_at g' x =
            if decide (x = mkPosition row col) then convertPlayer player else colour_at g x
  else g' = g.
Proof.
  intros Hwf Hadd. destruct (addPlay_in_range _ _ _ _ _ Hadd) as [Hr Hc].
  destruct (addPlay_spec player row col g Hwf Hr Hc)
    as (v & g1 & Hadd' & Hv & Hwf1 & Hs & _ & _ & Ht & Hres).
  rewrite Hadd in Hadd'. injection Hadd' as <- <-.
  split; [done|]. split; [done|]. split; [done|].
  destruct valid; [|done]. destruct Hres as (_ & _ & Hcol).
  split; [done|]. split; [|done]. symmetry in Hv. by apply bool_decide_eq_true in Hv.
Qed.

Lemma playInterface_colours player row col g valid g' :
  wf_game g → playInterface player row col g = Some (valid, g') →
  wf_game g' ∧ getSize g' = getSize g ∧
  (∀ q, traversed_at g' q = traversed_at g q) ∧
  if valid
  then on_board (getSize g) (mkPosition row col) ∧
       colour_at g (mkPosition row col) = WHITE ∧
       ∀ x, colour_at g' x =
            if decide (x = mkPosition row col) then convertPlayer player else colour_at g x
  else g' = g.
Proof.
  intros Hwf Hplay. unfold playInterface in Hplay.
  destruct (checkInputRange row col g); [by apply addPlay_colours|].
  by injection Hplay as <- <-.
Qed.

Lemma winning_chain_mono g g' player l :
  getSize g' = getSize g →
  (∀ x, colour_at g x = convertPlayer player → colour_at g' x = convertPlayer player) →
  winning_chain g player l → winning_chain g' player l.
Proof.
  intros Hs Hcol (Hall & Hadj & Hends). unfold winning_chain. rewrite Hs.
  split; [|done]. intros p Hp. destruct (Hall p Hp) as [Hon Hc]. split; [done|by apply Hcol].
Qed.

Lemma convertPlayer_inj p q : convertPlayer p = convertPlayer q → p = q.
Proof. by destruct p, q. Qed.

Lemma convertPlayer_not_WHITE p : convertPlayer p ≠ WHITE.
Proof. by destruct p. Qed.

(** X8.  A move never takes a win away, and a player's move never gives
    the other player a win: between a game and the game after a
    [playInterface] by [q], the answer of [checkWin] for [p] can only go
    from false to true, and does not change at all when [q] is not [p]. *)
Theorem checkWin_after_move p q row col g valid g' :
  wf_game g → marks_clear g → 2 ≤ getSize g ≤ 255 →
  playInterface q row col g = Some (valid, g') →
  ∃ r g1 r' g1', checkWin p g = Some (r, g1) ∧ checkWin p g' = Some (r', g1') ∧
    (r = true → r' = true) ∧ (q ≠ p → r' = r).
Proof.
  intros Hwf Hm Hsize Hplay.
  destruct (playInterface_colours _ _ _ _ _ _ Hwf Hplay) as (Hwf' & Hs & Ht & Hres).
  assert (marks_clear g') as Hm' by (intros x; by rewrite Ht).
  destruct (checkWin_chain p g Hwf Hm) as (r & g1 & Hrun & _ & _ & _ & Hiff); [lia|].
  destruct (checkWin_chain p g' Hwf' Hm') as (r' & g1' & Hrun' & _ & _ & _ & Hiff'); [lia|].
  exists r, g1, r', g1'. split; [done|]. split; [done|].
  destruct valid; [|subst g'; rewrite Hrun in Hrun'; by injection Hrun' as <- <-].
  destruct Hres as (Hon & Hwhite & Hcol). split.
  - intros [l Hl]%Hiff. apply Hiff'. exists l.
    apply (winning_chain_mono g g' p l Hs); [|done].
    intros x Hx. rewrite Hcol. case_decide as Hd; [|done]. subst x.
    rewrite Hwhite in Hx. by destruct p.
  - intros Hqp.
    assert (r' = true → r = true) as Hback.
    { intros [l Hl]%Hiff'. apply Hiff. exists l.
      apply (winning_chain_mono g' g p l); [done| |done].
      intros x. rewrite Hcol. case_decide as Hd; [|done].
      intros Hx%convertPlayer_inj. done. }
    assert (r = true → r' = true) as Hfwd.
    { intros [l Hl]%Hiff. apply Hiff'. exists l.
      apply (winning_chain_mono g g' p l Hs); [|done].
      intros x Hx. rewrite Hcol. case_decide as Hd; [|done]. subst x.
      rewrite Hwhite in Hx. by destruct p. }
    destruct r, r'; try done; [by specialize (Hfwd eq_refl)|by specialize (Hback eq_refl)].
Qed.

Lemma checkWin_after_move_witness :
  ∃ g', (wf_game game3_two_left ∧ marks_clear game3_two_left ∧
         2 ≤ getSize game3_two_left ≤ 255 ∧
         playInterface FIRST 1 1 game3_two_left = Some (true, g')) ∧
    ∃ r g1 r' g1', checkWin SECOND game3_two_left = Some (r, g1) ∧
      checkWin SECOND g' = Some (r', g1') ∧
      (r = true → r' = true) ∧ (FIRST ≠ SECOND → r' = r).
Proof.
  destruct (play_moves_wf
    [(FIRST, 0, 0); (SECOND, 2, 1); (FIRST, 0, 1); (SECOND, 2, 2);
     (FIRST, 1, 0); (SECOND, 2, 0); (FIRST, 1, 2)] game3 (HexGame_ctor_wf _ 3))
    as (Hwf & Hs & Hm).
  specialize (Hm (marks_clear_ctor 3)).
  assert (2 ≤ getSize game3_two_left ≤ 255) as Hsize.
  { unfold game3_two_left. rewrite Hs. change (getSize game3) with 3. lia. }
  assert (∃ g', playInterface FIRST 1 1 game3_two_left = Some (true, g')) as [g' Hplay].
  { vm_compute. eexists. reflexivity. }
  exists g'. split; [exact (conj Hwf (conj Hm (conj Hsize Hplay)))|].
  exact (checkWin_after_move SECOND FIRST 1 1 game3_two_left true g' Hwf Hm Hsize Hplay).
Defined.

(** X9.  Stones are permanent.  Through any sequence of [playInterface],
    [computerPlay], [testPlay] and [checkWin] calls the board keeps its
    size and a node that has a colour keeps it: no operation removes or
    recolours a stone. *)
Theorem stones_are_permanent g g' :
  wf_game g → counters_ok g → reachable_from g g' →
  getSize g' = getSize g ∧
  ∀ p, colour_at g p ≠ WHITE → colour_at g' p = colour_at g p.
Proof.
  intros Hwf0 Hc0 Hreach. pose proof (conj Hwf0 Hc0) as H0.
  induction Hreach as [|g1 player row col valid g' Hreach IH Hplay
                 |g1 sort rnd g' Hreach IH Hplay
                 |g1 row col draws pr draws' g' Hreach IH Hplay
                 |g1 player r g' Hreach IH Hplay]; [done|..];
    destruct (reachable_from_invariant _ _ Hreach H0) as [Hwf Hc];
    destruct IH as [IHs IHc].
  - destruct (playInterface_colours _ _ _ _ _ _ Hwf Hplay) as (_ & Hs & _ & Hres).
    split; [congruence|]. intros p Hp. rewrite <-(IHc p Hp).
    destruct valid; [|by subst g']. destruct Hres as (_ & Hwhite & Hcol).
    rewrite Hcol. case_decide as Hd; [|done]. subst p. rewrite <-(IHc _ Hp) in Hp. done.
  - unfold computerPlay in Hplay.
    destruct (computerPlay_outputs rnd g1) as [[outputs g2]|] eqn:Hout; [|done].
    apply computerPlay_outputs_spec in Hout as [-> _]. simpl in Hplay.
    destruct (head (sort outputs)) as [best|]; [|done]. simpl in Hplay.
    destruct (addPlay SECOND _ _ g1) as [[valid g2]|] eqn:Hadd; [|done].
    simpl in Hplay. injection Hplay as <-.
    destruct (addPlay_colours _ _ _ _ _ _ Hwf Hadd) as (_ & Hs & _ & Hres).
    split; [congruence|]. intros p Hp. rewrite <-(IHc p Hp).
    destruct valid; [|by subst g2]. destruct Hres as (_ & Hwhite & Hcol).
    rewrite Hcol. case_decide as Hd; [|done]. subst p. rewrite <-(IHc _ Hp) in Hp. done.
  - unfold testPlay in Hplay.
    destruct (testPlay_counts row col draws g1) as [[[[wins count] d] g2]|] eqn:Hcounts;
      [|done].
    simpl in Hplay. injection Hplay as _ _ <-.
    destruct (testPlay_counts_spec _ _ _ _ _ _ _ _ Hwf Hc Hcounts) as (valid & Hadd & _).
    destruct (addPlay_colours _ _ _ _ _ _ Hwf Hadd) as (_ & Hs & _ & Hres).
    split; [congruence|]. intros p Hp. rewrite <-(IHc p Hp).
    destruct valid; [|by subst g2]. destruct Hres as (_ & Hwhite & Hcol).
    rewrite Hcol. case_decide as Hd; [|done]. subst p. rewrite <-(IHc _ Hp) in Hp. done.
  - destruct (checkWin_spec player g1 Hwf) as (r' & g'' & Hrun & _ & Hsame & _).
    rewrite Hplay in Hrun. injection Hrun as <- <-.
    destruct Hsame as (Hs & _ & _ & _ & _ & Hcol).
    split; [congruence|]. intros p Hp. by rewrite Hcol, IHc.
Qed.

Lemma stones_are_permanent_witness :
  ∃ g', (wf_game game3 ∧ counters_ok game3 ∧ reachable_from game3 g') ∧
        colour_at g' (mkPosition 1 1) = GREEN.
Proof.
  assert (∃ g1, playInterface FIRST 1 1 game3 = Some (true, g1) ∧
                colour_at g1 (mkPosition 1 1) = GREEN) as (g1 & Hplay1 & Hcol).
  { vm_compute. eexists. split; reflexivity. }
  assert (∃ g2, playInterface SECOND 1 1 g1 = Some (false, g2)) as (g2 & Hplay2).
  { destruct (playInterface_colours _ _ _ _ _ _ (HexGame_ctor_wf _ 3) Hplay1)
      as (Hwf1 & Hs1 & _).
    unfold playInterface, checkInputRange, checkRangeSingle.
    unfold getSize in Hs1. rewrite Hs1. simpl.
    destruct (addPlay_spec SECOND 1 1 g1 Hwf1) as (v & g2 & Hadd & Hv & _);
      [unfold getSize; rewrite Hs1; simpl; lia..|].
    rewrite Hcol in Hv. rewrite Hadd. subst v. by exists g2. }
  assert (wf_game game3) as Hwf by apply HexGame_ctor_wf.
  assert (counters_ok game3) as Hc by apply counters_ok_ctor.
  assert (reachable_from game3 g2) as Hreach.
  { eapply reachable_playInterface; [|exact Hplay2].
    eapply reachable_playInterface; [|exact Hplay1]. apply reachable_start. }
  exists g2. split; [exact (conj Hwf (conj Hc Hreach))|].
  destruct (stones_are_permanent g1 g2) as [_ Hkeep].
  - by destruct (playInterface_colours _ _ _ _ _ _ Hwf Hplay1).
  - by destruct (playInterface_counters _ _ _ _ _ _ Hwf Hc Hplay1).
  - eapply reachable_playInterface; [apply reachable_start|exact Hplay2].
  - rewrite Hkeep; [exact Hcol|]. by rewrite Hcol.
Defined.

(** ** hex_game.h: the estimates of [testPlay] *)

Lemma play_moves_counters moves g :
  wf_game g → counters_ok g → counters_ok (play_moves moves g).
Proof.
  revert g. induction moves as [|[[player row] col] moves IH]; intros g Hwf Hc; [done|].
  change (play_moves ((player, row, col) :: moves) g)
    with (play_moves moves match playInterface player row col g with
                           | Some (_, g') => g'
                           | None => g
                           end).
  destruct (playInterface player row col g) as [[valid g']|] eqn:Hplay; [|by apply IH].
  destruct (playInterface_counters _ _ _ _ _ _ Hwf Hc Hplay) as [Hwf' Hc'].
  by apply IH.
Qed.

Lemma game3_two_left_counters : counters_ok game3_two_left.
Proof. apply play_moves_counters; [apply HexGame_ctor_wf|apply counters_ok_ctor]. Qed.

(** The value of [testPlay] as a quotient of the two counters. *)
Lemma testPlay_value row col draws g p draws' g' :
  wf_game g → counters_ok g → testPlay row col draws g = Some (p, draws', g') →
  ∃ valid wins,
    addPlay SECOND row col g = Some (valid, g') ∧
    (0 ≤ wins ≤ Z.max 0 (play_limit (getSize g)))%Z ∧
    p = mkProbability (mkPosition row col)
          (inject_Z wins / inject_Z (Z.max 0 (play_limit (getSize g)) + 1))%Q.
Proof.
  intros Hwf Hc. unfold testPlay.
  destruct (testPlay_counts row col draws g) as [[[[wins count] d] g1]|] eqn:Hcounts;
    [|done].
  simpl. intros [= <- _ <-].
  destruct (testPlay_counts_spec _ _ _ _ _ _ _ _ Hwf Hc Hcounts)
    as (valid & Hadd & _ & _ & -> & Hw).
  by exists valid, wins.
Qed.

Lemma quotient_below_one (wins limit : Z) :
  (0 ≤ wins ≤ limit)%Z →
  (0 <= inject_Z wins / inject_Z (limit + 1))%Q ∧
  (inject_Z wins / inject_Z (limit + 1) <= inject_Z limit / inject_Z (limit + 1))%Q ∧
  (inject_Z limit / inject_Z (limit + 1) < 1)%Q.
Proof.
  intros Hw.
  assert (0 < inject_Z (limit + 1))%Q as Hpos.
  { change 0%Q with (inject_Z 0). rewrite <-Zlt_Qlt. lia. }
  split; [|split].
  - apply Qle_shift_div_l; [done|]. rewrite Qmult_0_l.
    change 0%Q with (inject_Z 0). rewrite <-Zle_Qle. lia.
  - apply Qle_shift_div_l; [done|].
    unfold Qdiv. rewrite <-Qmult_assoc, (Qmult_comm (/ _)), Qmult_inv_r, Qmult_1_r.
    + rewrite <-Zle_Qle. lia.
    + intros Heq. rewrite Heq in Hpos. by apply Qlt_irrefl in Hpos.
  - apply Qlt_shift_div_r; [done|]. rewrite Qmult_1_l. rewrite <-Zlt_Qlt. lia.
Qed.

(** X10.  [testPlay] undoes its playouts and keeps its candidate.  When
    it returns, the coordinates were on the board, the estimate carries
    them, and the game is the one it was given with the candidate node
    red if that node was empty (and one more play counted), and unchanged
    if it was not. *)
Theorem testPlay_leaves_candidate row col draws g p draws' g' :
  wf_game g → counters_ok g → testPlay row col draws g = Some (p, draws', g') →
  on_board (getSize g) (mkPosition row col) ∧
  pr_pos p = mkPosition row col ∧
  getSize g' = getSize g ∧
  (∀ x, traversed_at g' x = traversed_at g x) ∧
  (∀ x, colour_at g' x =
        if decide (x = mkPosition row col ∧ colour_at g x = WHITE) then RED
        else colour_at g x) ∧
  m_play_total g' =
    (m_play_total g + if decide (colour_at g (mkPosition row col) = WHITE) then 1 else 0)%Z.
Proof.
  intros Hwf Hc Hrun.
  destruct (testPlay_value _ _ _ _ _ _ _ Hwf Hc Hrun) as (valid & wins & Hadd & _ & ->).
  destruct (addPlay_in_range _ _ _ _ _ Hadd) as [Hr Hcol].
  destruct (addPlay_spec SECOND row col g Hwf Hr Hcol)
    as (v & g1 & Hadd' & Hv & _ & Hs & _ & _ & Ht & Hres).
  rewrite Hadd in Hadd'. injection Hadd' as <- <-.
  split; [done|]. split; [done|]. split; [done|]. split; [done|].
  destruct valid.
  - symmetry in Hv. apply bool_decide_eq_true in Hv.
    destruct Hres as (Htot & _ & Hcolour). split.
    + intros x. rewrite Hcolour. simpl.
      destruct (decide (x = mkPosition row col)) as [-> |Hx].
      * by rewrite decide_True.
      * rewrite decide_False; [done|]. by intros [? _].
    + by rewrite decide_True.
  - symmetry in Hv. apply bool_decide_eq_false in Hv. subst g'. split.
    + intros x. rewrite decide_False; [done|]. intros [-> ?]. done.
    + rewrite decide_False by done. lia.
Qed.

Lemma testPlay_leaves_candidate_witness :
  ∃ p draws' g',
    (wf_game game3_two_left ∧ counters_ok game3_two_left ∧
     testPlay 0 2 (cycle3 200) game3_two_left = Some (p, draws', g')) ∧
    colour_at g' (mkPosition 0 2) = RED ∧ colour_at g' (mkPosition 1 1) = WHITE.
Proof.
  assert (∃ p draws' g', testPlay 0 2 (cycle3 200) game3_two_left = Some (p, draws', g'))
    as (p & draws' & g' & Hrun).
  { vm_compute. eexists _, _, _. reflexivity. }
  exists p, draws', g'.
  pose proof (proj1 game3_two_left_wf) as Hwf.
  pose proof game3_two_left_counters as Hc.
  split; [exact (conj Hwf (conj Hc Hrun))|].
  destruct (testPlay_leaves_candidate 0 2 _ _ p draws' g' Hwf Hc Hrun)
    as (_ & _ & _ & _ & Hcol & _).
  rewrite !Hcol. split.
  - rewrite decide_True; [done|]. split; [done|]. vm_compute. reflexivity.
  - rewrite decide_False; [vm_compute; reflexivity|]. intros [Heq _]. discriminate Heq.
Defined.

(** X11.  The estimate of [testPlay] is never 1.  It is the number of
    playouts won over the limit plus one, where the number won is at most
    the limit; so it lies in the interval from 0 up to, but excluding,
    1, on a board of any size. *)
Theorem testPlay_value_below_one row col draws g p draws' g' :
  wf_game g → counters_ok g → testPlay row col draws g = Some (p, draws', g') →
  (0 <= getProb p)%Q ∧ (getProb p < 1)%Q ∧
  ∃ wins, (0 ≤ wins ≤ Z.max 0 (play_limit (getSize g)))%Z ∧
          getProb p = (inject_Z wins / inject_Z (Z.max 0 (play_limit (getSize g)) + 1))%Q.
Proof.
  intros Hwf Hc Hrun.
  destruct (testPlay_value _ _ _ _ _ _ _ Hwf Hc Hrun) as (valid & wins & _ & Hw & ->).
  destruct (quotient_below_one wins _ Hw) as (H0 & Hle & Hlt). simpl.
  split; [done|]. split; [by eapply Qle_lt_trans|]. by exists wins.
Qed.

Lemma testPlay_value_below_one_witness :
  ∃ p draws' g',
    (wf_game game3_two_left ∧ counters_ok game3_two_left ∧
     testPlay 1 1 (cycle3 200) game3_two_left = Some (p, draws', g')) ∧
    (0 <= getProb p)%Q ∧ (getProb p < 1)%Q.
Proof.
  assert (∃ p draws' g', testPlay 1 1 (cycle3 200) game3_two_left = Some (p, draws', g'))
    as (p & draws' & g' & Hrun).
  { vm_compute. eexists _, _, _. reflexivity. }
  exists p, draws', g'.
  pose proof (proj1 game3_two_left_wf) as Hwf.
  pose proof game3_two_left_counters as Hc.
  split; [exact (conj Hwf (conj Hc Hrun))|].
  destruct (testPlay_value_below_one 1 1 _ _ p draws' g' Hwf Hc Hrun) as (H0 & H1 & _).
  exact (conj H0 H1).
Defined.

(** ** hex_game.h: [averageResults] and [testPlay_threaded] *)

Lemma foldl_sum_bounds (lo hi : Q) (l : list Probability) (acc : Q) :
  (∀ r, r ∈ l → (lo <= getProb r <= hi)%Q) →
  (acc + inject_Z (Z.of_nat (length l)) * lo
     <= foldl (λ total a, total + getProb a) acc l)%Q ∧
  (foldl (λ total a, total + getProb a) acc l
     <= acc + inject_Z (Z.of_nat (length l)) * hi)%Q.
Proof.
  revert acc. induction l as [|r l IH]; intros acc Hall.
  - cbn [length foldl]. change (inject_Z (Z.of_nat 0)) with 0%Q. split; lra.
  - destruct (Hall r) as [Hlo Hhi]; [by left|].
    destruct (IH (acc + getProb r)%Q) as [IHlo IHhi]; [intros x Hx; apply Hall; by right|].
    cbn [foldl length]. rewrite Nat2Z.inj_succ. unfold Z.succ. rewrite inject_Z_plus.
    change (inject_Z 1) with 1%Q. split; lra.
Qed.

Lemma averageResults_mean_bounds results p :
  averageResults results = Some p →
  ∀ lo hi, (∀ r, r ∈ results → (lo <= getProb r <= hi)%Q) → (lo <= getProb p <= hi)%Q.
Proof.
  destruct results as [|first results]; [done|].
  intros [= <-] lo hi Hall. cbn [getProb m_value].
  destruct (foldl_sum_bounds lo hi (first :: results) 0 Hall) as [Hlo Hhi].
  set (total := foldl _ _ _) in *. set (n := inject_Z _) in *.
  assert (0 < n)%Q as Hn.
  { subst n. change 0%Q with (inject_Z 0). rewrite <-Zlt_Qlt. simpl. lia. }
  split.
  - apply Qle_shift_div_l; [done|]. lra.
  - apply Qle_shift_div_r; [done|]. lra.
Qed.

Lemma testPlay_threaded_results row col rnd g p :
  testPlay_threaded row col rnd g = Some p →
  ∃ results, averageResults results = Some p ∧ results ≠ [] ∧
    ∀ r, r ∈ results → ∃ k draws' g', testPlay row col (rnd k) g = Some (r, draws', g').
Proof.
  unfold testPlay_threaded.
  destruct (mapM _ _) as [results|] eqn:Hmap; [|done]. simpl. intros Havg.
  exists results. split; [done|]. apply mapM_Some_1 in Hmap. split.
  - intros ->. apply Forall2_length in Hmap. by unfold cn_NUM_OF_THREADS in Hmap.
  - intros r Hr. apply list_elem_of_lookup in Hr as [i Hi].
    destruct (Forall2_lookup_r _ _ _ _ _ Hmap Hi) as (k & _ & Hk).
    destruct (testPlay row col (rnd k) g) as [[[p1 d] g1]|] eqn:Htest; [|done].
    simpl in Hk. injection Hk as <-. by exists k, d, g1.
Qed.

Lemma testPlay_threaded_bounds row col rnd g p :
  wf_game g → counters_ok g → testPlay_threaded row col rnd g = Some p →
  (0 <= getProb p)%Q ∧ (getProb p < 1)%Q.
Proof.
  intros Hwf Hc Hrun.
  destruct (testPlay_threaded_results _ _ _ _ _ Hrun) as (results & Havg & Hne & Hall).
  pose proof (averageResults_mean_bounds results p Havg) as Hmean.
  set (limit := Z.max 0 (play_limit (getSize g))) in *.
  destruct (Hmean 0%Q (inject_Z limit / inject_Z (limit + 1))%Q) as [H0 Hhi].
  - intros r Hr. destruct (Hall r Hr) as (k & d & g1 & Htest).
    destruct (testPlay_value _ _ _ _ _ _ _ Hwf Hc Htest) as (valid & wins & _ & Hw & ->).
    destruct (quotient_below_one wins limit Hw) as (? & ? & _). by simpl.
  - split; [done|]. eapply Qle_lt_trans; [exact Hhi|].
    apply (quotient_below_one 0 limit). subst limit. lia.
Qed.

(** X13.  [testPlay_threaded] returns an estimate for the coordinates it
    was asked about whose value, the mean of the workers' values, is at
    least 0 and below 1. *)
Theorem testPlay_threaded_estimate row col rnd g p :
  wf_game g → counters_ok g → testPlay_threaded row col rnd g = Some p →
  pr_pos p = mkPosition row col ∧ (0 <= getProb p)%Q ∧ (getProb p < 1)%Q.
Proof.
  intros Hwf Hc Hrun. split; [by eapply testPlay_threaded_pos|].
  by eapply testPlay_threaded_bounds.
Qed.

Lemma testPlay_threaded_estimate_witness :
  ∃ p, (wf_game game3_two_left ∧ counters_ok game3_two_left ∧
        testPlay_threaded 0 2 (draws3 0 2) game3_two_left = Some p) ∧
       pr_pos p = mkPosition 0 2 ∧ (0 <= getProb p)%Q ∧ (getProb p < 1)%Q.
Proof.
  assert (∃ p, testPlay_threaded 0 2 (draws3 0 2) game3_two_left = Some p) as [p Hrun].
  { vm_compute. eexists. reflexivity. }
  exists p.
  pose proof (proj1 game3_two_left_wf) as Hwf.
  pose proof game3_two_left_counters as Hc.
  split; [exact (conj Hwf (conj Hc Hrun))|].
  exact (testPlay_threaded_estimate 0 2 (draws3 0 2) game3_two_left p Hwf Hc Hrun).
Defined.

(** ** hex_game.h: the candidates of [computerPlay] *)

Lemma computerPlay_outputs_values rnd g outputs g' :
  wf_game g → counters_ok g →
  computerPlay_outputs rnd g = Some (outputs, g') →
  ∀ o, o ∈ outputs → (0 <= getProb o)%Q ∧ (getProb o < 1)%Q.
Proof.
  intros Hwf Hc. unfold computerPlay_outputs. intros Hrun.
  set (good := λ o : Probability, (0 <= getProb o)%Q ∧ (getProb o < 1)%Q).
  apply (for_each_partial (λ (_ : list nat) (s : list Probability * HexGame),
           s.2 = g ∧ Forall good s.1)) in Hrun.
  - destruct Hrun as [_ Hall]. simpl in Hall. by rewrite Forall_forall in Hall.
  - done.
  - intros rows row [outs0 g0] s1 [Hg0 Hout0] _ Hrow. simpl in Hg0, Hout0. subst g0.
    apply (for_each_partial (λ (_ : list nat) (s : list Probability * HexGame),
             s.2 = g ∧ Forall good s.1)) in Hrow; [done|done|].
    intros cols col [outs1 g1] s2 [Hg1 Hout1] _ Hbody. simpl in Hg1, Hout1. subst g1.
    destruct (isNodeFree row col (base g)) as [[|]|]; [| |done]; simpl in Hbody.
    + destruct (testPlay_threaded row col (rnd row col) g) as [p|] eqn:Hp; [|done].
      simpl in Hbody. injection Hbody as <-. simpl.
      split; [by apply reset_tree_id|].
      apply Forall_app. split; [done|]. apply Forall_singleton.
      by apply (testPlay_threaded_bounds _ _ _ _ _ Hwf Hc Hp).
    + by injection Hbody as <-.
Qed.

(** X14.  The candidates of [computerPlay].  When its two loops return,
    [outputs] holds one estimate for every empty node of the board and
    for no other, in row-major order; every value is at least 0 and below
    1; and the game is as it was before the loops. *)
Theorem computerPlay_candidates rnd g outputs g' :
  wf_game g → counters_ok g →
  computerPlay_outputs rnd g = Some (outputs, g') →
  g' = g ∧
  pr_pos <$> outputs = filter (λ p, colour_at g p = WHITE) (all_positions (getSize g)) ∧
  ∀ o, o ∈ outputs → (0 <= getProb o)%Q ∧ (getProb o < 1)%Q.
Proof.
  intros Hwf Hc Hrun.
  destruct (computerPlay_outputs_spec _ _ _ _ Hrun) as [Hg Hpos].
  split; [done|]. split; [done|]. by eapply computerPlay_outputs_values.
Qed.

Lemma computerPlay_candidates_witness :
  ∃ outputs g',
    (wf_game game3_two_left ∧ counters_ok game3_two_left ∧
     computerPlay_outputs draws3 game3_two_left = Some (outputs, g')) ∧
    pr_pos <$> outputs = [mkPosition 0 2; mkPosition 1 1].
Proof.
  assert (∃ outputs g', computerPlay_outputs draws3 game3_two_left = Some (outputs, g'))
    as (outputs & g' & Hrun).
  { vm_compute. eexists _, _. reflexivity. }
  exists outputs, g'.
  pose proof (proj1 game3_two_left_wf) as Hwf.
  pose proof game3_two_left_counters as Hc.
  split; [exact (conj Hwf (conj Hc Hrun))|].
  destruct (computerPlay_candidates draws3 game3_two_left outputs g' Hwf Hc Hrun)
    as (_ & Hpos & _).
  rewrite Hpos. vm_compute. reflexivity.
Defined.

Lemma computerPlay_outputs_full rnd g :
  wf_game g → board_full g → computerPlay_outputs rnd g = Some ([], g).
Proof.
  intros Hwf Hfull. unfold computerPlay_outputs.
  destruct (for_each_invariant
    (λ (_ : list nat) (s : list Probability * HexGame), s = ([], g))
    (λ s row_idx,
       for_each (λ '(outputs, g0) col_idx,
         free ← isNodeFree row_idx col_idx (base g0);
         if (free : bool)
         then p ← testPlay_threaded row_idx col_idx (rnd row_idx col_idx) g0;
              Some (outputs ++ [p], reset_tree (base g) (m_play_total g) g0)
         else Some (outputs, g0))
         s (seq 0 (getSize g)))
    (seq 0 (getSize g)) ([], g)) as (s' & Hrun & ->); [done| |done].
  intros _ row s -> Hrow. apply elem_of_seq in Hrow.
  apply (for_each_invariant
    (λ (_ : list nat) (s : list Probability * HexGame), s = ([], g))); [done|].
  intros _ col s -> Hcol. apply elem_of_seq in Hcol.
  exists ([], g). split; [|done].
  destruct (getNode_wf row col (base g) (proj1 Hwf)) as (n & Hn & _);
    [unfold getSize in *; lia..|].
  unfold isNodeFree, isNodeColour. rewrite Hn. simpl.
  destruct (getNode_obs g row col n Hn) as [Hcolour _].
  rewrite bool_decide_eq_false_2; [done|].
  rewrite <-Hcolour. apply Hfull. unfold on_board. simpl. lia.
Qed.

(** X15.  On a full board [computerPlay] has no candidate: its loops end
    with [outputs] empty, and the element [outputs[0]] it then reads is
    not there. *)
Theorem computerPlay_full_board sort rnd g :
  wf_game g → std_sort_contract sort → board_full g →
  computerPlay_outputs rnd g = Some ([], g) ∧ computerPlay sort rnd g = None.
Proof.
  intros Hwf Hsort Hfull.
  pose proof (computerPlay_outputs_full rnd g Hwf Hfull) as Hout.
  split; [done|]. unfold computerPlay. rewrite Hout. simpl.
  destruct (Hsort []) as [Hperm _]. symmetry in Hperm.
  apply Permutation_nil in Hperm. by rewrite Hperm.
Qed.

Lemma computerPlay_full_board_witness :
  (wf_game game3_full ∧ std_sort_contract sort_ties_last ∧ board_full game3_full) ∧
  computerPlay sort_ties_last draws3 game3_full = None.
Proof.
  destruct game3_full_ok as (Hwf & _ & _ & Hfull).
  split; [exact (conj Hwf (conj sort_ties_last_contract Hfull))|].
  exact (proj2 (computerPlay_full_board sort_ties_last draws3 game3_full Hwf
                  sort_ties_last_contract Hfull)).
Defined.

(** ** hex_game.h: the populating loop of [testPlay] *)

Lemma NoDup_all_positions size : NoDup (all_positions size).
Proof.
  unfold all_positions. apply NoDup_bind; [| |apply NoDup_seq].
  - intros r1 r2 p _ _ (c1 & Hp1 & _)%list_elem_of_bind (c2 & Hp2 & _)%list_elem_of_bind.
    apply list_elem_of_singleton in Hp1, Hp2. congruence.
  - intros row _. apply NoDup_bind; [| |apply NoDup_seq].
    + intros c1 c2 p _ _ Hp1 Hp2. apply list_elem_of_singleton in Hp1, Hp2. congruence.
    + intros col _. apply NoDup_singleton.
Qed.

(** Counting a colour before and after one cell is recoloured. *)
Lemma count_after_update (f f' : Position → NodeColour) (l : list Position) t c d :
  NoDup l → t ∈ l → (∀ x, f' x = if decide (x = t) then c else f x) →
  length (filter (λ p, f' p = d) l) + (if decide (f t = d) then 1 else 0) =
  length (filter (λ p, f p = d) l) + (if decide (c = d) then 1 else 0).
Proof.
  intros Hnd Hin Hf'.
  assert (∀ l, t ∉ l →
            length (filter (λ p, f' p = d) l) = length (filter (λ p, f p = d) l)) as Hout.
  { clear Hnd Hin l. induction l as [|x l IH]; intros Hnotin; [done|].
    apply not_elem_of_cons in Hnotin as [Hx Hl].
    assert (f' x = f x) as Hfx by (rewrite Hf'; apply decide_False; congruence).
    rewrite !filter_cons, Hfx.
    destruct (decide (f x = d)); simpl; by rewrite IH. }
  induction l as [|x l IH]; [by apply elem_of_nil in Hin|].
  apply NoDup_cons in Hnd as [Hx Hnd]. rewrite !filter_cons.
  destruct (decide (x = t)) as [-> |Hxt].
  - assert (f' t = c) as Hft by (rewrite Hf'; by apply decide_True).
    rewrite Hft.
    destruct (decide (c = d)), (decide (f t = d)); simpl; rewrite (Hout l Hx); lia.
  - apply elem_of_cons in Hin as [?|Hin]; [done|].
    assert (f' x = f x) as Hfx by (rewrite Hf'; by apply decide_False).
    rewrite Hfx. specialize (IH Hnd Hin).
    destruct (decide (f x = d)); simpl; lia.
Qed.

Lemma count_colour_addPlay player row col g g' d :
  wf_game g → addPlay player row col g = Some (true, g') →
  count_colour d g' + (if decide (WHITE = d) then 1 else 0) =
  count_colour d g + (if decide (convertPlayer player = d) then 1 else 0).
Proof.
  intros Hwf Hadd.
  destruct (addPlay_colours _ _ _ _ _ _ Hwf Hadd) as (_ & Hs & _ & Hon & Hwhite & Hcol).
  unfold count_colour. rewrite Hs.
  pose proof (count_after_update (colour_at g) (colour_at g') (all_positions (getSize g))
                (mkPosition row col) (convertPlayer player) d
                (NoDup_all_positions _)) as Hcount.
  rewrite Hwhite in Hcount. apply Hcount; [|done]. by apply elem_of_all_positions.
Qed.

Lemma board_full_count g : board_full g ↔ count_colour WHITE g = 0.
Proof.
  unfold board_full, count_colour. rewrite length_zero_iff_nil. split.
  - intros Hfull. destruct (filter _ _) as [|p l] eqn:Hf; [done|].
    assert (p ∈ p :: l) as Hp by by left.
    rewrite <-Hf in Hp. apply list_elem_of_filter in Hp as [Hw Hon].
    apply elem_of_all_positions in Hon. by apply Hfull in Hon.
  - intros Hnil p Hon Hw.
    apply (filter_nil_not_elem_of _ _ p Hnil Hw). by apply elem_of_all_positions.
Qed.

(** The loop at its test: on a full board it returns at once. *)
Lemma fill_full g :
  wf_game g → counters_ok g →
  (m_play_total g <? m_play_maximum g)%Z = false ↔ board_full g.
Proof.
  intros Hwf Hc. rewrite Z.ltb_ge. destruct (counters_full g Hwf Hc) as [_ ->]. lia.
Qed.

Lemma fill_stops draws player g :
  (m_play_total g <? m_play_maximum g)%Z = false →
  fill draws (m_play_total g) player g = Some (draws, player, g).
Proof. intros Hlt. destruct draws as [|r1 [|r2 draws]]; simpl; by rewrite Hlt. Qed.

(** One round of the loop on a board that is not full. *)
Lemma fill_round r1 r2 draws player g :
  wf_game g → counters_ok g → ¬ board_full g →
  let t := mkPosition (r1 mod getSize g) (r2 mod getSize g) in
  ∃ valid g1,
    addPlay player (r1 mod getSize g) (r2 mod getSize g) g = Some (valid, g1) ∧
    fill (r1 :: r2 :: draws) (m_play_total g) player g =
      fill draws (m_play_total g1) (if valid then next_player player else player) g1 ∧
    wf_game g1 ∧ counters_ok g1 ∧ getSize g1 = getSize g ∧ on_board (getSize g) t ∧
    valid = bool_decide (colour_at g t = WHITE) ∧
    if valid
    then ∀ x, colour_at g1 x = if decide (x = t) then convertPlayer player else colour_at g x
    else g1 = g.
Proof.
  intros Hwf Hc Hnf t.
  assert ((m_play_total g <? m_play_maximum g)%Z = true) as Hlt.
  { destruct (m_play_total g <? m_play_maximum g)%Z eqn:Hlt; [done|].
    by apply (fill_full g Hwf Hc) in Hlt. }
  assert (0 < getSize g) as Hpos.
  { destruct Hc as [Htot Hmax]. apply Z.ltb_lt in Hlt.
    pose proof (played_nodes_bound (base g) (proj1 Hwf)) as Hb.
    destruct (getSize g); [|lia]. rewrite Hmax, Htot in Hlt. lia. }
  assert (r1 mod getSize g < getSize g) as Hr by (apply Nat.mod_upper_bound; lia).
  assert (r2 mod getSize g < getSize g) as Hcol by (apply Nat.mod_upper_bound; lia).
  destruct (addPlay_spec player _ _ g Hwf Hr Hcol)
    as (valid & g1 & Hadd & Hv & Hwf1 & Hs & _ & _ & _ & Hres).
  destruct (addPlay_counters _ _ _ _ _ _ Hwf Hc Hadd) as (_ & Hc1 & _ & _ & _ & Htot).
  exists valid, g1. split; [done|]. split.
  { cbn [fill]. rewrite Hlt. unfold getSize in Hadd. rewrite Hadd. simpl.
    destruct valid; by rewrite Htot. }
  split; [done|]. split; [done|]. split; [done|]. split; [done|]. split; [done|].
  destruct valid; [|done]. by destruct Hres as (_ & _ & ?).
Qed.

Lemma fill_short draws player g :
  (m_play_total g <? m_play_maximum g)%Z = true → length draws < 2 →
  fill draws (m_play_total g) player g = None.
Proof.
  intros Hlt Hlen. destruct draws as [|r1 [|r2 draws]]; simpl in *; rewrite ?Hlt; [done..|lia].
Qed.

Lemma not_full_has_free g :
  wf_game g → counters_ok g → (m_play_total g <? m_play_maximum g)%Z = true →
  ¬ board_full g ∧ ∃ p, on_board (getSize g) p ∧ colour_at g p = WHITE.
Proof.
  intros Hwf Hc Hlt.
  assert (¬ board_full g) as Hnf.
  { intros Hfull. apply (fill_full g Hwf Hc) in Hfull. congruence. }
  split; [done|]. rewrite board_full_count in Hnf. unfold count_colour in Hnf.
  destruct (filter _ _) as [|p l] eqn:Hf; [done|].
  assert (p ∈ p :: l) as Hp by by left.
  rewrite <-Hf in Hp. apply list_elem_of_filter in Hp as [Hw Hon].
  apply elem_of_all_positions in Hon. by exists p.
Qed.

Lemma by_argument_pair order size c1 c2 calls :
  ∃ r1 r2, by_argument order (c1 :: c2 :: calls) = r1 :: r2 :: by_argument order calls ∧
    drawn_cells order size (c1 :: c2 :: calls)
      = mkPosition (r1 mod size) (r2 mod size) :: drawn_cells order size calls.
Proof. destruct order; [by exists c1, c2|by exists c2, c1]. Qed.

(** X16.  The populating loop of [testPlay] ends exactly when the random
    values it is given have hit every empty node of the board, whichever
    of the two [rand()] calls of an [addPlay] call the build evaluates
    first: the loop returns on values whose cells, read in that order,
    cover the empty nodes, and on values that miss an empty node it uses
    them up without returning. *)
Theorem fill_returns_iff_covered order calls player g :
  wf_game g → counters_ok g →
  is_Some (fill (by_argument order calls) (m_play_total g) player g) ↔
  ∀ p, on_board (getSize g) p → colour_at g p = WHITE →
       p ∈ drawn_cells order (getSize g) calls.
Proof.
  revert player g. induction calls as [| |c1 c2 calls IH] using list_pair_ind;
    intros player g Hwf Hc.
  1,2: cbn [by_argument drawn_cells];
    destruct (m_play_total g <? m_play_maximum g)%Z eqn:Hlt;
    [rewrite fill_short by (done || simpl; lia);
     destruct (not_full_has_free g Hwf Hc Hlt) as (_ & p & Hon & Hw);
     split; [by intros [? ?]|intros Hcov; by apply Hcov, elem_of_nil in Hw]
    |rewrite fill_stops by done; split; [|by eexists];
     intros _ p Hon Hw; apply (fill_full g Hwf Hc) in Hlt; by apply Hlt in Hon].
  destruct (by_argument_pair order (getSize g) c1 c2 calls) as (r1 & r2 & -> & ->).
  destruct (m_play_total g <? m_play_maximum g)%Z eqn:Hlt.
  2:{ rewrite fill_stops by done. split; [|by eexists].
      intros _ p Hon Hw. apply (fill_full g Hwf Hc) in Hlt. by apply Hlt in Hon. }
  destruct (not_full_has_free g Hwf Hc Hlt) as [Hnf _].
  destruct (fill_round r1 r2 (by_argument order calls) player g Hwf Hc Hnf)
    as (valid & g1 & _ & -> & Hwf1 & Hc1 & Hs1 & Hon & Hv & Hres).
  rewrite (IH _ g1 Hwf1 Hc1), Hs1.
  set (t := mkPosition (r1 mod getSize g) (r2 mod getSize g)) in *.
  destruct valid.
  - split; intros Hcov p Hp Hw.
    + destruct (decide (p = t)) as [-> |Hpt]; [by left|]. right. apply Hcov; [done|].
      by rewrite Hres, decide_False.
    + rewrite Hres in Hw. case_decide as Hpt; [by destruct player|].
      specialize (Hcov p Hp Hw). by apply elem_of_cons in Hcov as [?|?].
  - subst g1. symmetry in Hv. apply bool_decide_eq_false in Hv.
    split; intros Hcov p Hp Hw.
    + right. by apply Hcov.
    + specialize (Hcov p Hp Hw). apply elem_of_cons in Hcov as [-> |?]; done.
Qed.

Lemma fill_returns_iff_covered_witness :
  (wf_game game3_two_left ∧ counters_ok game3_two_left) ∧
  is_Some (fill (by_argument RowFirst [1; 1; 2; 2; 3; 5])
                (m_play_total game3_two_left) SECOND game3_two_left) ∧
  ¬ is_Some (fill (by_argument ColumnFirst [1; 1; 2; 2; 3; 5])
                  (m_play_total game3_two_left) SECOND game3_two_left) ∧
  is_Some (fill (by_argument ColumnFirst [1; 1; 2; 2; 5; 3])
                (m_play_total game3_two_left) SECOND game3_two_left).
Proof.
  pose proof (proj1 game3_two_left_wf) as Hwf.
  pose proof game3_two_left_counters as Hc.
  split; [exact (conj Hwf Hc)|].
  pose proof (fill_returns_iff_covered RowFirst [1; 1; 2; 2; 3; 5] SECOND
                game3_two_left Hwf Hc) as Hrow.
  pose proof (fill_returns_iff_covered ColumnFirst [1; 1; 2; 2; 3; 5] SECOND
                game3_two_left Hwf Hc) as Hno.
  pose proof (fill_returns_iff_covered ColumnFirst [1; 1; 2; 2; 5; 3] SECOND
                game3_two_left Hwf Hc) as Hcolumn.
  rewrite (proj2 game3_two_left_wf) in Hrow, Hno, Hcolumn.
  assert (∀ cells : list Position,
            mkPosition 0 2 ∈ cells → mkPosition 1 1 ∈ cells →
            ∀ p, on_board 3 p → colour_at game3_two_left p = WHITE → p ∈ cells) as Hcover.
  { intros cells H02 H11 [row col] [Hr Hcol] Hw. simpl in Hr, Hcol.
    assert (row = 0 ∨ row = 1 ∨ row = 2) as Hrow' by lia.
    assert (col = 0 ∨ col = 1 ∨ col = 2) as Hcolumn' by lia.
    destruct Hrow' as [-> |[-> | ->]], Hcolumn' as [-> |[-> | ->]];
      try (vm_compute in Hw; discriminate Hw); done. }
  split; [|split].
  - apply Hrow, Hcover; vm_compute;
      repeat (first [apply list_elem_of_here | apply list_elem_of_further]).
  - intros Hsome. pose proof (proj1 Hno Hsome (mkPosition 0 2)) as Hcov.
    assert (mkPosition 0 2 ∈ drawn_cells ColumnFirst 3 [1; 1; 2; 2; 3; 5]) as Hin.
    { apply Hcov; [unfold on_board; simpl; lia|vm_compute; reflexivity]. }
    cbn in Hin. repeat (apply elem_of_cons in Hin as [Hin|Hin]; [discriminate Hin|]).
    by apply elem_of_nil in Hin.
  - apply Hcolumn, Hcover; vm_compute;
      repeat (first [apply list_elem_of_here | apply list_elem_of_further]).
Defined.

Lemma next_player_involutive player : next_player (next_player player) = player.
Proof. by destruct player. Qed.

Lemma convertPlayer_next player : convertPlayer (next_player player) ≠ convertPlayer player.
Proof. by destruct player. Qed.

(** X17.  How a playout shares the empty nodes.  When the populating
    loop returns from a board with [k] empty nodes and [player] to place
    first, [player] has been given the larger half of them, [(k + 1) / 2],
    and the other player [k / 2]; no node that had a colour has changed;
    and the turn is left with [player] again if [k] is even. *)
Theorem fill_shares_cells draws player g draws' player' g' :
  wf_game g → counters_ok g →
  fill draws (m_play_total g) player g = Some (draws', player', g') →
  let k := count_colour WHITE g in
  count_colour (convertPlayer player) g' =
    count_colour (convertPlayer player) g + (k + 1) / 2 ∧
  count_colour (convertPlayer (next_player player)) g' =
    count_colour (convertPlayer (next_player player)) g + k / 2 ∧
  player' = (if Nat.even k then player else next_player player) ∧
  ∀ x, colour_at g x ≠ WHITE → colour_at g' x = colour_at g x.
Proof.
  assert (∀ draws player g, wf_game g → counters_ok g →
            (m_play_total g <? m_play_maximum g)%Z = false →
            fill draws (m_play_total g) player g = Some (draws', player', g') →
            let k := count_colour WHITE g in
            count_colour (convertPlayer player) g' =
              count_colour (convertPlayer player) g + (k + 1) / 2 ∧
            count_colour (convertPlayer (next_player player)) g' =
              count_colour (convertPlayer (next_player player)) g + k / 2 ∧
            player' = (if Nat.even k then player else next_player player) ∧
            ∀ x, colour_at g x ≠ WHITE → colour_at g' x = colour_at g x) as Hdone.
  { intros draws0 player0 g0 Hwf Hc Hlt Hrun k.
    rewrite fill_stops in Hrun by done. injection Hrun as <- <- <-.
    apply (fill_full g0 Hwf Hc), board_full_count in Hlt. subst k. rewrite Hlt.
    simpl. split; [lia|]. split; [lia|]. done. }
  revert player g. induction draws as [| |r1 r2 draws IH] using list_pair_ind;
    intros player g Hwf Hc Hrun.
  1,2: destruct (m_play_total g <? m_play_maximum g)%Z eqn:Hlt;
    [by rewrite fill_short in Hrun by (done || simpl; lia)|by eapply Hdone].
  destruct (m_play_total g <? m_play_maximum g)%Z eqn:Hlt; [|by eapply Hdone].
  destruct (not_full_has_free g Hwf Hc Hlt) as [Hnf _].
  destruct (fill_round r1 r2 draws player g Hwf Hc Hnf)
    as (valid & g1 & Hadd & Heq & Hwf1 & Hc1 & Hs1 & Hon & Hv & Hres).
  rewrite Heq in Hrun. destruct valid; [|subst g1; by apply IH].
  specialize (IH _ _ Hwf1 Hc1 Hrun). cbv zeta in IH.
  destruct IH as (IHnext & IHplayer & IHturn & IHcol).
  rewrite next_player_involutive in IHplayer.
  pose proof (count_colour_addPlay _ _ _ _ _ WHITE Hwf Hadd) as HW.
  pose proof (count_colour_addPlay _ _ _ _ _ (convertPlayer player) Hwf Hadd) as HP.
  pose proof (count_colour_addPlay _ _ _ _ _ (convertPlayer (next_player player)) Hwf Hadd)
    as HN.
  rewrite (decide_True (P := WHITE = WHITE)) in HW by done.
  rewrite (decide_False (P := convertPlayer player = WHITE)) in HW
    by apply convertPlayer_not_WHITE.
  rewrite (decide_True (P := convertPlayer player = convertPlayer player)) in HP by done.
  rewrite (decide_False (P := WHITE = convertPlayer player)) in HP
    by (intros Hw; symmetry in Hw; by apply convertPlayer_not_WHITE in Hw).
  rewrite (decide_False (P := WHITE = convertPlayer (next_player player))) in HN
    by (intros Hw; symmetry in Hw; by apply convertPlayer_not_WHITE in Hw).
  rewrite (decide_False (P := convertPlayer player = convertPlayer (next_player player))) in HN
    by (intros Hw; symmetry in Hw; by apply convertPlayer_next in Hw).
  intros k. subst k.
  set (k1 := count_colour WHITE g1) in *.
  assert (count_colour WHITE g = S k1) as -> by lia.
  split; [|split; [|split]].
  - rewrite IHplayer. replace (S k1 + 1) with (k1 + 1 * 2) by lia.
    rewrite Nat.div_add by done. lia.
  - rewrite IHnext. replace (S k1) with (k1 + 1) by lia. lia.
  - rewrite IHturn, Nat.even_succ, <-Nat.negb_even, next_player_involutive.
    by destruct (Nat.even k1).
  - intros x Hx. symmetry in Hv. apply bool_decide_eq_true in Hv.
    assert (colour_at g1 x = colour_at g x) as Hx1.
    { rewrite Hres. apply decide_False. intros ->. done. }
    rewrite <-Hx1. apply IHcol. by rewrite Hx1.
Qed.

Lemma fill_shares_cells_witness :
  ∃ draws' player' g',
    (wf_game game3_two_left ∧ counters_ok game3_two_left ∧
     fill [1; 1; 2; 2; 0; 2; 7] (m_play_total game3_two_left) SECOND game3_two_left
       = Some (draws', player', g')) ∧
    count_colour RED g' = 4 ∧ count_colour GREEN g' = 5.
Proof.
  assert (∃ draws' player' g',
            fill [1; 1; 2; 2; 0; 2; 7] (m_play_total game3_two_left) SECOND game3_two_left
              = Some (draws', player', g')) as (draws' & player' & g' & Hrun).
  { vm_compute. eexists _, _, _. reflexivity. }
  exists draws', player', g'.
  pose proof (proj1 game3_two_left_wf) as Hwf.
  pose proof game3_two_left_counters as Hc.
  split; [exact (conj Hwf (conj Hc Hrun))|].
  destruct (fill_shares_cells _ SECOND game3_two_left draws' player' g' Hwf Hc Hrun)
    as (Hred & Hgreen & _).
  split; [etrans; [exact Hred|vm_compute; reflexivity]|].
  etrans; [exact Hgreen|vm_compute; reflexivity].
Defined.

(** ** main.cpp: the loop of the game *)

Lemma count_colour_same g g' colour :
  same_colours g g' → count_colour colour g' = count_colour colour g.
Proof.
  intros (Hs & _ & _ & _ & _ & Hcol). unfold count_colour. rewrite Hs. f_equal.
  apply list_filter_iff. intros p. by rewrite Hcol.
Qed.

Lemma winning_chain_same g g' player l :
  same_colours g g' → winning_chain g' player l ↔ winning_chain g player l.
Proof.
  intros (Hs & _ & _ & _ & _ & Hcol).
  split; apply winning_chain_mono; try done; intros x; by rewrite Hcol.
Qed.

Lemma board_full_same g g' : same_colours g g' → board_full g' ↔ board_full g.
Proof. intros Hsame. by rewrite !board_full_count, (count_colour_same g g'). Qed.

(** A chain joins two different cells, so it takes two stones. *)
Lemma few_stones_no_chain g player l :
  2 ≤ getSize g → count_colour (convertPlayer player) g ≤ 1 → ¬ winning_chain g player l.
Proof.
  intros Hsize Hcount (Hall & _ & a & e & Hhead & Hlast & Hstart & Hend).
  assert (a ∈ l) as Ha by by apply head_Some_elem_of.
  assert (e ∈ l) as He by by apply last_Some_elem_of.
  destruct (Hall a Ha) as [Haon Hacol]. destruct (Hall e He) as [Heon Hecol].
  assert (a ≠ e) as Hne.
  { intros ->. destruct player; simpl in Hstart, Hend; lia. }
  assert ([a; e] ⊆+ filter (λ p, colour_at g p = convertPlayer player)
                           (all_positions (getSize g))) as Hsub.
  { apply NoDup_submseteq.
    - apply NoDup_cons. split; [by intros ->%list_elem_of_singleton|apply NoDup_singleton].
    - intros x Hx. apply list_elem_of_filter.
      apply elem_of_cons in Hx as [-> |Hx%list_elem_of_singleton]; [|subst x];
        (split; [done|by apply elem_of_all_positions]). }
  apply submseteq_length in Hsub. unfold count_colour in Hcount. simpl in Hsub. lia.
Qed.

Lemma checkWin_true_chain player g r g' :
  wf_game g → getSize g ≤ 255 → checkWin player g = Some (r, g') →
  r = true → ∃ l, winning_chain g player l.
Proof.
  intros Hwf Hsize Hrun Hr.
  destruct (checkWin_spec player g Hwf) as (r' & g'' & Hrun' & _ & _ & _ & Htrue & _).
  rewrite Hrun in Hrun'. injection Hrun' as <- <-.
  destruct (Htrue Hr) as (a & e & Ha & Hstart & Hconn & Hgoal).
  apply conn_chain in Hconn as (l & Hhead & Hlast & Hall & Hadj).
  exists l. split; [exact Hall|]. split; [exact Hadj|].
  exists a, e. split; [done|]. split; [done|]. split; [done|].
  apply (is_goal_ending player g e Hwf); [|done]. destruct Ha. lia.
Qed.

Lemma colour_at_ctor uninit size p : colour_at (HexGame_ctor uninit size) p = WHITE.
Proof.
  unfold colour_at. simpl.
  destruct (getNode _ _ _) as [n|] eqn:Hn; [|done].
  apply getNode_Some in Hn as Hrange. simpl in Hrange. destruct Hrange as (Hr & Hc & _).
  rewrite getNode_Graph_ctor in Hn by done. by injection Hn as <-.
Qed.

Lemma count_colour_ctor uninit size colour :
  colour ≠ WHITE → count_colour colour (HexGame_ctor uninit size) = 0.
Proof.
  intros Hc. unfold count_colour. apply length_zero_iff_nil.
  destruct (filter _ _) as [|p l] eqn:Hf; [done|].
  assert (p ∈ p :: l) as Hp by by left.
  rewrite <-Hf in Hp. apply list_elem_of_filter in Hp as [Hw _].
  by rewrite colour_at_ctor in Hw.
Qed.

Lemma main_board_size_range game_size :
  cn_MIN_GAME_SIZE ≤ main_board_size game_size ≤ cn_MAX_GAME_SIZE ∧
  main_board_size game_size =
    if decide (3 ≤ game_size ≤ 11)%Z then Z.to_nat game_size else 7.
Proof.
  unfold main_board_size, to_Coordinate, cn_MIN_GAME_SIZE, cn_MAX_GAME_SIZE,
    cn_DEFAULT_GAME_SIZE.
  destruct (game_size <=? Z.of_nat 11)%Z eqn:Hmax;
    [destruct (game_size >=? Z.of_nat 3)%Z eqn:Hmin|]; simpl.
  - apply Z.leb_le in Hmax. apply Z.geb_le in Hmin.
    rewrite Z.mod_small by lia. rewrite decide_True by lia. lia.
  - rewrite Z.geb_leb in Hmin. apply Z.leb_gt in Hmin.
    rewrite decide_False by lia. vm_compute. lia.
  - apply Z.leb_gt in Hmax. rewrite decide_False by lia. vm_compute. lia.
Qed.

Lemma main_invariant_start uninit game_size :
  main_invariant (main_start uninit game_size).
Proof.
  destruct (main_board_size_range game_size) as [Hsize _].
  unfold main_start, main_invariant.
  generalize dependent (main_board_size game_size). intros size Hsize.
  split; [apply HexGame_ctor_wf|]. split; [apply counters_ok_ctor|].
  split; [done|].
  rewrite !count_colour_ctor by done.
  split; [done|]. split; [by right|]. split.
  - intros player l (Hall & _ & a & _ & Hhead & _).
    destruct (Hall a) as [_ Hcol]; [by apply head_Some_elem_of|].
    rewrite colour_at_ctor in Hcol. by destruct player.
  - intros Hfull. apply (Hfull (mkPosition 0 0)); [|apply colour_at_ctor].
    change (getSize (HexGame_ctor uninit size)) with size.
    unfold on_board, cn_MIN_GAME_SIZE in *. simpl. lia.
Qed.

(** The step of the invariant: a stone placed on an empty node by the
    player to move, followed by the win check for that player. *)
Lemma main_invariant_move player row col g g1 r g2 :
  main_invariant (Playing player g) →
  addPlay player row col g = Some (true, g1) →
  checkWin player g1 = Some (r, g2) →
  main_invariant (if r then Finished player g2 else Playing (next_player player) g2).
Proof.
  intros (Hwf & Hc & Hsize & Hcount & Hmarks & Hnone & Hnf) Hadd Hrun.
  unfold cn_MIN_GAME_SIZE, cn_MAX_GAME_SIZE in Hsize.
  destruct (addPlay_counters _ _ _ _ _ _ Hwf Hc Hadd) as (Hwf1 & Hc1 & Hs1 & _ & Ht1 & _).
  destruct (addPlay_colours _ _ _ _ _ _ Hwf Hadd) as (_ & _ & _ & Hon & Hwhite & Hcol).
  destruct (checkWin_spec player g1 Hwf1) as (r' & g2' & Hrun' & Hwf2 & Hsame & Hm2 & _).
  rewrite Hrun in Hrun'. injection Hrun' as <- <-.
  pose proof (same_colours_counters _ _ Hsame Hc1) as Hc2.
  assert (getSize g2 = getSize g) as Hs2 by (destruct Hsame as [-> _]; done).
  (* the stones after the move *)
  pose proof (count_colour_addPlay _ _ _ _ _ GREEN Hwf Hadd) as HG.
  pose proof (count_colour_addPlay _ _ _ _ _ RED Hwf Hadd) as HR.
  rewrite (decide_False (P := WHITE = GREEN)) in HG by done.
  rewrite (decide_False (P := WHITE = RED)) in HR by done.
  rewrite <-(count_colour_same g1 g2 GREEN Hsame) in HG.
  rewrite <-(count_colour_same g1 g2 RED Hsame) in HR.
  (* the other player still has no chain *)
  assert (∀ l, ¬ winning_chain g2 (next_player player) l) as Hother.
  { intros l Hl. apply (winning_chain_same g1 g2) in Hl; [|done].
    apply (Hnone (next_player player) l).
    apply (winning_chain_mono g1 g _ l); [done| |done].
    intros x. rewrite Hcol. destruct (decide (x = mkPosition row col)) as [Hx|Hx]; [|tauto].
    intros Heq. symmetry in Heq. by apply convertPlayer_next in Heq. }
  (* the answer of [checkWin] is right, marks or no marks *)
  assert (r = true → ∃ l, winning_chain g2 player l) as Htrue.
  { intros Hr. destruct (checkWin_true_chain player g1 r g2 Hwf1) as [l Hl]; [lia|done..|].
    exists l. by apply (winning_chain_same g1 g2). }
  assert (r = false → ∀ l, ¬ winning_chain g2 player l) as Hfalse.
  { intros Hr l Hl. apply (winning_chain_same g1 g2) in Hl; [|done].
    destruct Hmarks as [Hm|Hzero].
    - assert (marks_clear g1) as Hm1 by (intros x; by rewrite Ht1).
      destruct (checkWin_chain player g1 Hwf1 Hm1) as (r' & g' & Hrun' & _ & _ & _ & Hiff);
        [lia|].
      rewrite Hrun in Hrun'. injection Hrun' as <- <-.
      assert (r = true) by (apply Hiff; by exists l). congruence.
    - apply (few_stones_no_chain g1 player l); [lia| |done].
      rewrite <-(count_colour_same g1 g2) by done.
      destruct player; simpl in *; lia. }
  destruct r.
  - destruct (Htrue eq_refl) as [l Hl].
    split; [done|]. split; [done|]. split; [unfold cn_MIN_GAME_SIZE, cn_MAX_GAME_SIZE; lia|].
    split; [|split; [done|split; [by exists l|done]]].
    destruct player; simpl in *; lia.
  - specialize (Hfalse eq_refl).
    split; [done|]. split; [done|]. split; [unfold cn_MIN_GAME_SIZE, cn_MAX_GAME_SIZE; lia|].
    split; [|split; [by left|split]].
    + destruct player; simpl in *; lia.
    + intros p l. destruct (decide (p = player)) as [-> |Hp]; [apply Hfalse|].
      replace p with (next_player player) by (destruct p, player; done). apply Hother.
    + intros Hfull.
      destruct (checkWin_one_winner g2 Hwf2 Hm2) as (r1 & h1 & r2 & h2 & Hrun1 & Hrun2 & Hneg & _);
        [lia|done|].
      destruct (checkWin_chain FIRST g2 Hwf2 Hm2) as (r1' & h1' & Hrun1' & _ & _ & _ & Hiff1);
        [lia|].
      destruct (checkWin_chain SECOND g2 Hwf2 Hm2) as (r2' & h2' & Hrun2' & _ & _ & _ & Hiff2);
        [lia|].
      rewrite Hrun1 in Hrun1'. injection Hrun1' as <- <-.
      rewrite Hrun2 in Hrun2'. injection Hrun2' as <- <-.
      assert (∀ p l, ¬ winning_chain g2 p l) as Hnobody.
      { intros p l. destruct (decide (p = player)) as [-> |Hp]; [apply Hfalse|].
        replace p with (next_player player) by (destruct p, player; done). apply Hother. }
      destruct r1.
      * destruct (proj1 Hiff1 eq_refl) as [l Hl]. by apply Hnobody in Hl.
      * destruct r2; [|done]. destruct (proj1 Hiff2 eq_refl) as [l Hl]. by apply Hnobody in Hl.
Qed.

Lemma main_run_reaches computer sort rnd turns s0 s s' :
  main_reaches computer sort s0 s →
  main_run computer sort rnd turns s = Some s' → main_reaches computer sort s0 s'.
Proof.
  revert s. induction turns as [|[row_idx col_idx] turns IH]; intros s Hreach Hrun.
  - destruct s; simpl in Hrun; by injection Hrun as <-.
  - destruct s as [player g|player g]; [|simpl in Hrun; by injection Hrun as <-].
    simpl in Hrun.
    destruct (main_turn computer sort rnd row_idx col_idx player g) as [s1|] eqn:Hturn;
      [|done].
    simpl in Hrun. apply (IH s1); [|done]. by eapply main_reaches_turn.
Qed.

Lemma playInterface_total player row col g :
  wf_game g → is_Some (playInterface player row col g).
Proof.
  intros Hwf. unfold playInterface, checkInputRange, checkRangeSingle.
  destruct (row <? m_size (base g)) eqn:Hr; [destruct (col <? m_size (base g)) eqn:Hc|];
    simpl; [|by eexists..].
  apply Nat.ltb_lt in Hr, Hc.
  destruct (addPlay_spec player row col g Hwf Hr Hc) as (valid & g' & -> & _). by eexists.
Qed.

Lemma playInterface_true_addPlay player row col g g' :
  playInterface player row col g = Some (true, g') →
  addPlay player row col g = Some (true, g').
Proof. unfold playInterface. by destruct (checkInputRange row col g). Qed.

Lemma main_invariant_free player g :
  main_invariant (Playing player g) →
  ∃ p, on_board (getSize g) p ∧ colour_at g p = WHITE.
Proof.
  intros (Hwf & Hc & _ & _ & _ & _ & Hnf).
  destruct (m_play_total g <? m_play_maximum g)%Z eqn:Hlt.
  - by destruct (not_full_has_free g Hwf Hc Hlt).
  - by apply (fill_full g Hwf Hc) in Hlt.
Qed.

(** One pass through the loop keeps the invariant. *)
Lemma main_invariant_turn computer sort rnd row_idx col_idx player g s :
  std_sort_contract sort → main_invariant (Playing player g) →
  main_turn computer sort rnd row_idx col_idx player g = Some s → main_invariant s.
Proof.
  intros Hsort Hinv Hturn. pose proof Hinv as (Hwf & _).
  unfold main_turn in Hturn. cbv zeta in Hturn.
  destruct (bool_decide (player = SECOND) && computer) eqn:Hcomp.
  - apply andb_true_iff in Hcomp as [->%bool_decide_eq_true _].
    destruct (computerPlay sort rnd g) as [g1|] eqn:Hplay; [|done]. simpl in Hturn.
    assert (∃ row col, addPlay SECOND row col g = Some (true, g1)) as (row & col & Hadd).
    { pose proof Hplay as Hplay'. unfold computerPlay in Hplay'.
      destruct (computerPlay_outputs rnd g) as [[outputs g0]|] eqn:Hout; [|done].
      destruct (computerPlay_spec sort rnd g Hwf (λ l, proj1 (Hsort l)) _ _ Hout
                  (main_invariant_free _ _ Hinv))
        as (best & g' & _ & _ & Hrun & Hadd & _).
      rewrite Hplay in Hrun. injection Hrun as <-. by eexists _, _. }
    destruct (checkWin SECOND g1) as [[won g2]|] eqn:Hwin; [|done].
    simpl in Hturn. injection Hturn as <-.
    by apply (main_invariant_move SECOND row col g g1 won g2).
  - simpl in Hturn.
    destruct (playInterface player _ _ g) as [[moved g1]|] eqn:Hplay; [|done].
    simpl in Hturn. destruct moved.
    + apply playInterface_true_addPlay in Hplay.
      destruct (checkWin player g1) as [[won g2]|] eqn:Hwin; [|done].
      simpl in Hturn. injection Hturn as <-.
      by eapply main_invariant_move.
    + injection Hturn as <-.
      destruct (playInterface_colours _ _ _ _ _ _ Hwf Hplay) as (_ & _ & _ & ->). done.
Qed.

Lemma main_reaches_invariant computer sort s0 s :
  std_sort_contract sort → main_invariant s0 →
  main_reaches computer sort s0 s → main_invariant s.
Proof.
  intros Hsort H0. induction 1 as [|player g rnd row_idx col_idx s _ IH Hturn]; [done|].
  by eapply main_invariant_turn.
Qed.

(** A pass through the loop returns: on a human turn always, on the
    computer's turn once the estimates are in. *)
Lemma main_turn_total computer sort rnd row_idx col_idx player g :
  std_sort_contract sort → main_invariant (Playing player g) →
  (player = SECOND → computer = true → is_Some (computerPlay_outputs rnd g)) →
  is_Some (main_turn computer sort rnd row_idx col_idx player g).
Proof.
  intros Hsort Hinv Hout. pose proof Hinv as (Hwf & _).
  unfold main_turn. cbv zeta.
  destruct (bool_decide (player = SECOND) && computer) eqn:Hcomp.
  - apply andb_true_iff in Hcomp as [->%bool_decide_eq_true ->].
    destruct Hout as [[outputs g0] Hout]; [done..|].
    destruct (computerPlay_spec sort rnd g Hwf (λ l, proj1 (Hsort l)) _ _ Hout
                (main_invariant_free _ _ Hinv))
      as (best & g1 & _ & _ & -> & Hadd & _).
    simpl.
    destruct (addPlay_colours _ _ _ _ _ _ Hwf Hadd) as (Hwf1 & _).
    destruct (checkWin_spec SECOND g1 Hwf1) as (r & g2 & -> & _). simpl. by eexists.
  - simpl. destruct (playInterface_total player (to_Coordinate row_idx)
                       (to_Coordinate col_idx) g Hwf) as [[moved g1] Hplay].
    rewrite Hplay. simpl. destruct moved; [|by eexists].
    destruct (playInterface_colours _ _ _ _ _ _ Hwf Hplay) as (Hwf1 & _).
    destruct (checkWin_spec player g1 Hwf1) as (r & g2 & -> & _). simpl. by eexists.
Qed.

(** X18.  In the game [main] runs, green and red stones are placed in
    turn, green first: at the head of the loop green has as many stones
    on the board as red when the first player is to move and one more
    when the second player is, and when the game is over the winner has
    placed the last stone.  This holds with a human and with the computer
    as second player. *)
Theorem main_stones_alternate computer sort uninit game_size s :
  std_sort_contract sort →
  main_reaches computer sort (main_start uninit game_size) s →
  match s with
  | Playing player g =>
      count_colour GREEN g =
        count_colour RED g + match player with FIRST => 0 | SECOND => 1 end
  | Finished player g =>
      count_colour GREEN g =
        count_colour RED g + match player with FIRST => 1 | SECOND => 0 end
  end.
Proof.
  intros Hsort Hreach.
  pose proof (main_reaches_invariant _ _ _ _ Hsort (main_invariant_start _ _) Hreach) as Hinv.
  destruct s; by destruct Hinv as (_ & _ & _ & ? & _).
Qed.

(** X19.  The winner [main] announces has won and the other player has
    not: when the loop is left, the player whose move was the last has a
    chain joining the two borders, and the other player has no such
    chain. *)
Theorem main_announces_winner computer sort uninit game_size player g :
  std_sort_contract sort →
  main_reaches computer sort (main_start uninit game_size) (Finished player g) →
  (∃ l, winning_chain g player l) ∧ ∀ l, ¬ winning_chain g (next_player player) l.
Proof.
  intros Hsort Hreach.
  pose proof (main_reaches_invariant _ _ _ _ Hsort (main_invariant_start _ _) Hreach) as Hinv.
  by destruct Hinv as (_ & _ & _ & _ & _ & ? & ?).
Qed.

(** X20.  The loop of [main] cannot get stuck.  Whenever a player is
    asked to move the board has between 3 and 11 rows, nobody has won
    yet and an empty node is left, so that fewer than size times size
    stones have been placed; the pass through the loop then returns, for
    any numbers typed, and on the computer's turn [computerPlay] finds a
    candidate as soon as its playouts return. *)
Theorem main_loop_not_stuck computer sort uninit game_size player g :
  std_sort_contract sort →
  main_reaches computer sort (main_start uninit game_size) (Playing player g) →
  cn_MIN_GAME_SIZE ≤ getSize g ≤ cn_MAX_GAME_SIZE ∧
  no_winner g ∧
  (∃ p, on_board (getSize g) p ∧ colour_at g p = WHITE) ∧
  (m_play_total g < Z.of_nat (getSize g) * Z.of_nat (getSize g))%Z ∧
  ∀ rnd row_idx col_idx,
    (player = SECOND → computer = true → is_Some (computerPlay_outputs rnd g)) →
    is_Some (main_turn computer sort rnd row_idx col_idx player g).
Proof.
  intros Hsort Hreach.
  pose proof (main_reaches_invariant _ _ _ _ Hsort (main_invariant_start _ _) Hreach) as Hinv.
  pose proof Hinv as (Hwf & Hc & Hsize & _ & _ & Hnone & Hnf).
  split; [done|]. split; [done|]. split; [by eapply main_invariant_free|]. split.
  - destruct (counters_full g Hwf Hc) as [Hle Hfull]. destruct Hc as [_ <-].
    destruct (decide (m_play_total g < m_play_maximum g)%Z) as [?|Hge]; [done|].
    by apply Hfull in Hge.
  - intros rnd row_idx col_idx Hout. by apply main_turn_total.
Qed.

Lemma main_stones_alternate_witness :
  ∃ g, (std_sort_contract sort_ties_last ∧
        main_reaches false sort_ties_last (main_start (λ _ _, true) 3) (Playing FIRST g)) ∧
       count_colour GREEN g = count_colour RED g + 0.
Proof.
  assert (∃ g, main_run false sort_ties_last draws3 [(1, 1); (1, 1); (0, 2)]%Z
                 (main_start (λ _ _, true) 3) = Some (Playing FIRST g)) as [g Hrun].
  { vm_compute. eexists. reflexivity. }
  exists g.
  assert (main_reaches false sort_ties_last (main_start (λ _ _, true) 3) (Playing FIRST g))
    as Hreach.
  { eapply main_run_reaches; [apply main_reaches_start|exact Hrun]. }
  split; [exact (conj sort_ties_last_contract Hreach)|].
  exact (main_stones_alternate false sort_ties_last (λ _ _, true) 3 (Playing FIRST g)
           sort_ties_last_contract Hreach).
Defined.

Lemma main_announces_winner_witness :
  ∃ g, (std_sort_contract sort_ties_last ∧
        main_reaches false sort_ties_last (main_start (λ _ _, true) 3) (Finished FIRST g)) ∧
       (∃ l, winning_chain g FIRST l) ∧ ∀ l, ¬ winning_chain g (next_player FIRST) l.
Proof.
  assert (∃ g, main_run false sort_ties_last draws3
                 [(0, 0); (2, 0); (0, 1); (2, 1); (0, 2)]%Z
                 (main_start (λ _ _, true) 3) = Some (Finished FIRST g)) as [g Hrun].
  { vm_compute. eexists. reflexivity. }
  exists g.
  assert (main_reaches false sort_ties_last (main_start (λ _ _, true) 3) (Finished FIRST g))
    as Hreach.
  { eapply main_run_reaches; [apply main_reaches_start|exact Hrun]. }
  split; [exact (conj sort_ties_last_contract Hreach)|].
  exact (main_announces_winner false sort_ties_last (λ _ _, true) 3 FIRST g
           sort_ties_last_contract Hreach).
Defined.

Lemma main_loop_not_stuck_witness :
  (std_sort_contract sort_ties_last ∧
   main_reaches true sort_ties_last (main_start (λ _ _, false) 3)
     (Playing SECOND game3_centre)) ∧
  is_Some (main_turn true sort_ties_last draws3 0 0 SECOND game3_centre).
Proof.
  assert (main_run true sort_ties_last draws3 [(1, 1)]%Z (main_start (λ _ _, false) 3)
            = Some (Playing SECOND game3_centre)) as Hrun.
  { vm_compute. reflexivity. }
  assert (is_Some (computerPlay_outputs draws3 game3_centre)) as Hout.
  { vm_compute. eexists. reflexivity. }
  assert (main_reaches true sort_ties_last (main_start (λ _ _, false) 3)
            (Playing SECOND game3_centre)) as Hreach.
  { exact (main_run_reaches true sort_ties_last draws3 [(1, 1)]%Z _ _ _
             (main_reaches_start _ _ _) Hrun). }
  split; [exact (conj sort_ties_last_contract Hreach)|].
  exact (proj2 (proj2 (proj2 (proj2
           (main_loop_not_stuck true sort_ties_last (λ _ _, false) 3 SECOND game3_centre
              sort_ties_last_contract Hreach)))) draws3 0%Z 0%Z (λ _ _, Hout)).
Defined.

(** X22.  A human turn.  The two numbers typed are taken modulo 256, the
    range of [Coordinate]; when they then name an empty node of the board
    the stone is placed there and the turn passes on, or the game is over;
    in every other case the game is as it was and the same player is
    asked again. *)
Theorem main_human_turn computer sort rnd row_idx col_idx player g s :
  wf_game g → player = FIRST ∨ computer = false →
  main_turn computer sort rnd row_idx col_idx player g = Some s →
  let cell := mkPosition (Z.to_nat (row_idx mod 256)) (Z.to_nat (col_idx mod 256)) in
  if decide (on_board (getSize g) cell ∧ colour_at g cell = WHITE)
  then ∃ (won : bool) g',
         s = (if won then Finished player g' else Playing (next_player player) g') ∧
         ∀ x, colour_at g' x =
              if decide (x = cell) then convertPlayer player else colour_at g x
  else s = Playing player g.
Proof.
  intros Hwf Hhuman Hturn cell. unfold main_turn in Hturn. cbv zeta in Hturn.
  assert (bool_decide (player = SECOND) && computer = false) as Hcomp.
  { destruct Hhuman as [-> | ->]; [done|apply andb_false_r]. }
  rewrite Hcomp in Hturn. simpl in Hturn.
  fold (to_Coordinate row_idx) (to_Coordinate col_idx) in cell.
  destruct (playInterface player _ _ g) as [[moved g1]|] eqn:Hplay; [|done].
  simpl in Hturn.
  destruct (playInterface_colours _ _ _ _ _ _ Hwf Hplay) as (Hwf1 & _ & _ & Hres).
  destruct moved.
  - destruct Hres as (Hon & Hwhite & Hcol). rewrite decide_True by done.
    destruct (checkWin player g1) as [[won g2]|] eqn:Hwin; [|done].
    simpl in Hturn. injection Hturn as <-. exists won, g2. split; [done|].
    destruct (checkWin_spec player g1 Hwf1) as (r & g2' & Hrun & _ & Hsame & _).
    rewrite Hwin in Hrun. injection Hrun as <- <-.
    intros x. destruct Hsame as (_ & _ & _ & _ & _ & ->). apply Hcol.
  - subst g1. injection Hturn as <-. rewrite decide_False; [done|].
    intros [[Hr Hc] Hwhite].
    assert (to_Coordinate row_idx < m_size (base g)) as Hr' by exact Hr.
    assert (to_Coordinate col_idx < m_size (base g)) as Hc' by exact Hc.
    unfold playInterface, checkInputRange, checkRangeSingle in Hplay.
    rewrite (proj2 (Nat.ltb_lt _ _) Hr'), (proj2 (Nat.ltb_lt _ _) Hc') in Hplay.
    simpl in Hplay.
    destruct (addPlay_spec player _ _ g Hwf Hr' Hc') as (valid & g1 & Hadd & Hv & _).
    rewrite Hplay in Hadd. injection Hadd as <- <-.
    by rewrite bool_decide_eq_true_2 in Hv.
Qed.

Lemma main_human_turn_witness :
  ∃ s, (wf_game game3 ∧ (FIRST = FIRST ∨ true = false) ∧
        main_turn true sort_ties_last draws3 257 (-255) FIRST game3 = Some s) ∧
       ∃ (won : bool) g',
         s = (if won then Finished FIRST g' else Playing SECOND g') ∧
         colour_at g' (mkPosition 1 1) = GREEN.
Proof.
  assert (∃ s, main_turn true sort_ties_last draws3 257 (-255) FIRST game3 = Some s)
    as [s Hturn].
  { vm_compute. eexists. reflexivity. }
  exists s.
  assert (wf_game game3) as Hwf by apply HexGame_ctor_wf.
  split; [exact (conj Hwf (conj (or_introl eq_refl) Hturn))|].
  pose proof (main_human_turn true sort_ties_last draws3 257 (-255) FIRST game3 s Hwf
                (or_introl eq_refl) Hturn) as Hspec.
  cbv zeta in Hspec. rewrite decide_True in Hspec.
  - destruct Hspec as (won & g' & Hs & Hcol). exists won, g'. split; [exact Hs|].
    rewrite Hcol. reflexivity.
  - split; [unfold on_board; vm_compute; lia|apply colour_at_ctor].
Defined.

(** ** hex_game.h: a new game *)

(** X23.  A new game is empty and undecided.  The constructor leaves
    every node free, no play counted and the square of the size as the
    maximum; and [checkWin] on the new game answers false for either
    player whatever traverse marks the storage held, leaving the board
    empty and without marks. *)
Theorem new_game_is_empty uninit (size : MapSize) player :
  size ≤ 255 →
  (∀ p, colour_at (HexGame_ctor uninit size) p = WHITE) ∧
  m_play_total (HexGame_ctor uninit size) = 0%Z ∧
  m_play_maximum (HexGame_ctor uninit size) = (Z.of_nat size * Z.of_nat size)%Z ∧
  ∃ g', checkWin player (HexGame_ctor uninit size) = Some (false, g') ∧
        marks_clear g' ∧ ∀ p, colour_at g' p = WHITE.
Proof.
  intros Hsize. split; [apply colour_at_ctor|]. split; [done|]. split; [done|].
  pose proof (HexGame_ctor_wf uninit size) as Hwf.
  destruct (checkWin_spec player _ Hwf) as (r & g' & Hrun & _ & Hsame & Hm & _).
  exists g'. split; [|split; [done|]].
  - rewrite Hrun. do 2 f_equal. destruct r; [|done].
    destruct (checkWin_true_chain player _ true g' Hwf) as (l & Hall & _ & a & _ & Hhead & _);
      [done..|].
    destruct (Hall a) as [_ Hcol]; [by apply head_Some_elem_of|].
    rewrite colour_at_ctor in Hcol. by destruct player.
  - intros p. destruct Hsame as (_ & _ & _ & _ & _ & ->). apply colour_at_ctor.
Qed.

Lemma new_game_is_empty_witness :
  3 ≤ 255 ∧
  ∃ g', checkWin FIRST (HexGame_ctor (λ _ _, true) 3) = Some (false, g') ∧ marks_clear g'.
Proof.
  split; [lia|].
  destruct (new_game_is_empty (λ _ _, true) 3 FIRST) as (_ & _ & _ & g' & Hrun & Hm & _);
    [lia|].
  exists g'. exact (conj Hrun Hm).
Defined.

(** ** hex_game.h: the estimate of a position that is decided *)

Lemma fill_keeps_stones draws player g draws' player' g' :
  wf_game g → counters_ok g →
  fill draws (m_play_total g) player g = Some (draws', player', g') →
  ∀ x, colour_at g x ≠ WHITE → colour_at g' x = colour_at g x.
Proof.
  revert player g. induction draws as [| |r1 r2 draws IH] using list_pair_ind;
    intros player g Hwf Hc Hrun.
  1,2: destruct (m_play_total g <? m_play_maximum g)%Z eqn:Hlt;
    [by rewrite fill_short in Hrun by (done || simpl; lia)
    |rewrite fill_stops in Hrun by done; by injection Hrun as <- <- <-].
  destruct (m_play_total g <? m_play_maximum g)%Z eqn:Hlt;
    [|rewrite fill_stops in Hrun by done; by injection Hrun as <- <- <-].
  destruct (not_full_has_free g Hwf Hc Hlt) as [Hnf _].
  destruct (fill_round r1 r2 draws player g Hwf Hc Hnf)
    as (valid & g1 & _ & Heq & Hwf1 & Hc1 & _ & _ & Hv & Hres).
  rewrite Heq in Hrun. specialize (IH _ _ Hwf1 Hc1 Hrun).
  destruct valid; [|by subst g1].
  symmetry in Hv. apply bool_decide_eq_true in Hv.
  intros x Hx.
  assert (colour_at g1 x = colour_at g x) as Hx1.
  { rewrite Hres. apply decide_False. by intros ->. }
  rewrite <-Hx1. apply IH. by rewrite Hx1.
Qed.

(** The answer of [checkWin] for the second player on a full board on
    which [winner] has a chain. *)
Lemma checkWin_decided winner g won g' :
  wf_game g → marks_clear g → 2 ≤ getSize g ≤ 255 → board_full g →
  (∃ l, winning_chain g winner l) →
  checkWin SECOND g = Some (won, g') →
  won = bool_decide (winner = SECOND).
Proof.
  intros Hwf Hm Hsize Hfull [l Hl] Hrun.
  destruct (checkWin_one_winner g Hwf Hm) as (r1 & h1 & r2 & h2 & Hrun1 & Hrun2 & Hneg & _);
    [lia|done|].
  rewrite Hrun in Hrun2. injection Hrun2 as <- <-.
  destruct winner.
  - destruct (checkWin_chain FIRST g Hwf Hm) as (r1' & h1' & Hrun1' & _ & _ & _ & Hiff);
      [lia|].
    rewrite Hrun1 in Hrun1'. injection Hrun1' as <- <-.
    assert (r1 = true) as -> by (apply Hiff; by exists l). by destruct won.
  - destruct (checkWin_chain SECOND g Hwf Hm) as (r2' & h2' & Hrun2' & _ & _ & _ & Hiff);
      [lia|].
    rewrite Hrun in Hrun2'. injection Hrun2' as <- <-. apply Hiff. by exists l.
Qed.

Lemma testPlay_loop_decided winner n draws count wins limit player g draws' count' wins' g' :
  wf_game g → counters_ok g → marks_clear g → 2 ≤ getSize g ≤ 255 →
  (∃ l, winning_chain g winner l) →
  testPlay_loop n draws count wins limit player (base g) (m_play_total g) g
    = Some (draws', count', wins', g') →
  wins' = (wins + if bool_decide (winner = SECOND) then Z.max count limit - count else 0)%Z.
Proof.
  intros Hwf Hc Hm Hsize [l Hl]. revert draws count wins player.
  induction n as [|n IH]; intros draws count wins player Hrun; simpl in Hrun.
  - destruct (count <? limit)%Z eqn:Hlt; [done|]. apply Z.ltb_ge in Hlt.
    injection Hrun as <- <- <- <-. destruct (bool_decide _); lia.
  - destruct (count <? limit)%Z eqn:Hlt.
    2:{ apply Z.ltb_ge in Hlt. injection Hrun as <- <- <- <-. destruct (bool_decide _); lia. }
    apply Z.ltb_lt in Hlt.
    destruct (fill draws (m_play_total g) player g) as [[[draws1 player1] g1]|] eqn:Hfill;
      [|done]. simpl in Hrun.
    destruct (fill_spec _ _ _ _ _ _ Hwf Hc Hfill) as (Hwf1 & Hc1 & Hs1 & Hl1 & Ht1 & Hfull1).
    pose proof (fill_keeps_stones _ _ _ _ _ _ Hwf Hc Hfill) as Hkeep.
    assert (marks_clear g1) as Hm1 by (intros x; by rewrite Ht1).
    assert (winning_chain g1 winner l) as Hl1'.
    { apply (winning_chain_mono g g1 winner l Hs1); [|done].
      intros x Hx. rewrite Hkeep; [done|]. rewrite Hx. apply convertPlayer_not_WHITE. }
    destruct (checkWin_spec SECOND g1 Hwf1) as (won & g2 & Hwin & Hwf2 & Hsame2 & _).
    rewrite Hwin in Hrun. simpl in Hrun.
    assert (won = bool_decide (winner = SECOND)) as Hwon.
    { eapply (checkWin_decided winner g1); [done|done|lia|done|by exists l|done]. }
    rewrite (reset_tree_id g g2) in Hrun.
    + apply IH in Hrun as ->. subst won. destruct (bool_decide _); lia.
    + destruct Hsame2 as (-> & _). done.
    + destruct Hsame2 as (_ & -> & _). done.
    + destruct Hsame2 as (_ & _ & _ & -> & _).
      by destruct Hc1 as [_ ->], Hc as [_ ->]; rewrite Hs1.
Qed.

(** X21.  A position that is decided is estimated as such.  On a game
    without traverse marks in which a player already has a chain,
    [testPlay] finds that player the winner of every playout, whatever
    the candidate and the random draws: its value is 0 when the first
    player has the chain, and the limit over the limit plus one, the
    largest value it can return, when the second player has. *)
Theorem testPlay_decided_position winner row col draws g p draws' g' :
  wf_game g → counters_ok g → marks_clear g → 2 ≤ getSize g ≤ 255 →
  (∃ l, winning_chain g winner l) →
  testPlay row col draws g = Some (p, draws', g') →
  let limit := Z.max 0 (play_limit (getSize g)) in
  getProb p =
    (inject_Z (match winner with FIRST => 0 | SECOND => limit end) / inject_Z (limit + 1))%Q.
Proof.
  intros Hwf Hc Hm Hsize [l Hl] Hrun limit. unfold testPlay in Hrun.
  destruct (testPlay_counts row col draws g) as [[[[wins count] d] g1]|] eqn:Hcounts;
    [|done].
  simpl in Hrun. injection Hrun as <- _ _. simpl.
  destruct (testPlay_counts_spec _ _ _ _ _ _ _ _ Hwf Hc Hcounts)
    as (valid & Hadd & _ & _ & -> & _).
  unfold testPlay_counts in Hcounts. rewrite Hadd in Hcounts. simpl in Hcounts.
  destruct (addPlay_counters _ _ _ _ _ _ Hwf Hc Hadd) as (Hwf1 & Hc1 & Hs1 & _ & Ht1 & _).
  destruct (addPlay_colours _ _ _ _ _ _ Hwf Hadd) as (_ & _ & _ & Hres).
  destruct (testPlay_loop _ _ _ _ _ _ _ _ g1) as [[[[draws1 count1] wins1] g2]|] eqn:Hloop;
    [|done].
  simpl in Hcounts. injection Hcounts as <- _ _ _.
  apply (testPlay_loop_decided winner) in Hloop; [|done|done| | |].
  - subst wins1. rewrite Hs1. fold limit.
    destruct winner; simpl; do 2 f_equal; lia.
  - intros x. by rewrite Ht1.
  - lia.
  - exists l. apply (winning_chain_mono g g1 winner l Hs1); [|done].
    destruct valid; [|by subst g1]. destruct Hres as (_ & Hwhite & Hcol).
    intros x Hx. rewrite Hcol. destruct (decide (x = mkPosition row col)) as [-> |]; [|done].
    rewrite Hwhite in Hx. by destruct winner.
Qed.

Lemma testPlay_decided_position_witness :
  ∃ p draws' g',
    (wf_game game3_green_row ∧ counters_ok game3_green_row ∧ marks_clear game3_green_row ∧
     2 ≤ getSize game3_green_row ≤ 255 ∧
     (∃ l, winning_chain game3_green_row FIRST l) ∧
     testPlay 1 1 (cycle3 200) game3_green_row = Some (p, draws', g')) ∧
    getProb p = (inject_Z 0 / inject_Z (150 + 1))%Q.
Proof.
  assert (∃ p draws' g', testPlay 1 1 (cycle3 200) game3_green_row = Some (p, draws', g'))
    as (p & draws' & g' & Hrun).
  { vm_compute. eexists _, _, _. reflexivity. }
  exists p, draws', g'.
  destruct (play_moves_wf [(FIRST, 0, 0); (FIRST, 0, 1); (FIRST, 0, 2)] game3
              (HexGame_ctor_wf _ 3)) as (Hwf & Hs & Hm).
  specialize (Hm (marks_clear_ctor 3)).
  assert (counters_ok game3_green_row) as Hc.
  { apply play_moves_counters; [apply HexGame_ctor_wf|apply counters_ok_ctor]. }
  assert (2 ≤ getSize game3_green_row ≤ 255) as Hsize.
  { unfold game3_green_row. rewrite Hs. change (getSize game3) with 3. lia. }
  assert (∃ l, winning_chain game3_green_row FIRST l) as Hchain.
  { destruct (checkWin_chain FIRST game3_green_row Hwf Hm)
      as (r & g1 & Hrun1 & _ & _ & _ & Hiff); [lia|].
    apply Hiff.
    assert (fst <$> checkWin FIRST game3_green_row = Some true) as Htrue
      by (vm_compute; reflexivity).
    rewrite Hrun1 in Htrue. simpl in Htrue. by injection Htrue as ->. }
  split; [exact (conj Hwf (conj Hc (conj Hm (conj Hsize (conj Hchain Hrun)))))|].
  exact (testPlay_decided_position FIRST 1 1 (cycle3 200) game3_green_row p draws' g'
           Hwf Hc Hm Hsize Hchain Hrun).
Defined.

(** ** hex_game.h: the playouts *)

(** X27.  Every playout has one winner, as the comment in [testPlay]
    takes for granted when it checks the second player only.  On the
    board the populating loop leaves, [checkWin] for the second player
    answers true exactly when the second player has a chain and false
    exactly when the first player has one. *)
Theorem playout_has_one_winner draws player g draws' player' g1 :
  wf_game g → counters_ok g → marks_clear g → 2 ≤ getSize g ≤ 255 →
  fill draws (m_play_total g) player g = Some (draws', player', g1) →
  ∃ won g2, checkWin SECOND g1 = Some (won, g2) ∧
    (won = true ↔ ∃ l, winning_chain g1 SECOND l) ∧
    (won = false ↔ ∃ l, winning_chain g1 FIRST l).
Proof.
  intros Hwf Hc Hm Hsize Hfill.
  destruct (fill_spec _ _ _ _ _ _ Hwf Hc Hfill) as (Hwf1 & _ & Hs1 & _ & Ht1 & Hfull1).
  assert (marks_clear g1) as Hm1 by (intros x; by rewrite Ht1).
  destruct (checkWin_one_winner g1 Hwf1 Hm1) as (r1 & h1 & r2 & h2 & Hrun1 & Hrun2 & Hneg & _);
    [lia|done|].
  destruct (checkWin_chain FIRST g1 Hwf1 Hm1) as (r1' & h1' & Hrun1' & _ & _ & _ & Hiff1);
    [lia|].
  destruct (checkWin_chain SECOND g1 Hwf1 Hm1) as (r2' & h2' & Hrun2' & _ & _ & _ & Hiff2);
    [lia|].
  rewrite Hrun1 in Hrun1'. injection Hrun1' as <- <-.
  rewrite Hrun2 in Hrun2'. injection Hrun2' as <- <-.
  exists r2, h2. split; [done|]. split; [done|].
  rewrite <-Hiff1. subst r1. by destruct r2.
Qed.

Lemma playout_has_one_winner_witness :
  ∃ draws' player' g1,
    (wf_game game3_two_left ∧ counters_ok game3_two_left ∧ marks_clear game3_two_left ∧
     2 ≤ getSize game3_two_left ≤ 255 ∧
     fill [0; 2; 1; 1] (m_play_total game3_two_left) FIRST game3_two_left
       = Some (draws', player', g1)) ∧
    ∃ won g2, checkWin SECOND g1 = Some (won, g2) ∧
      (won = true ↔ ∃ l, winning_chain g1 SECOND l) ∧
      (won = false ↔ ∃ l, winning_chain g1 FIRST l).
Proof.
  assert (∃ draws' player' g1,
            fill [0; 2; 1; 1] (m_play_total game3_two_left) FIRST game3_two_left
              = Some (draws', player', g1)) as (draws' & player' & g1 & Hrun).
  { vm_compute. eexists _, _, _. reflexivity. }
  exists draws', player', g1.
  destruct (play_moves_wf
    [(FIRST, 0, 0); (SECOND, 2, 1); (FIRST, 0, 1); (SECOND, 2, 2);
     (FIRST, 1, 0); (SECOND, 2, 0); (FIRST, 1, 2)] game3 (HexGame_ctor_wf _ 3))
    as (Hwf & Hs & Hm).
  specialize (Hm (marks_clear_ctor 3)).
  pose proof game3_two_left_counters as Hc.
  assert (2 ≤ getSize game3_two_left ≤ 255) as Hsize.
  { unfold game3_two_left. rewrite Hs. change (getSize game3) with 3. lia. }
  split; [exact (conj Hwf (conj Hc (conj Hm (conj Hsize Hrun))))|].
  exact (playout_has_one_winner _ FIRST game3_two_left draws' player' g1
           Hwf Hc Hm Hsize Hrun).
Defined.

(** X28.  On a board of 21 rows or more the limit of [testPlay] is not
    positive: it makes no playout, draws no random number and returns
    the value 0 / 1 for every candidate. *)
Theorem testPlay_large_board row col draws g p draws' g' :
  wf_game g → counters_ok g → 21 ≤ getSize g →
  testPlay row col draws g = Some (p, draws', g') →
  draws' = draws ∧ getProb p = (inject_Z 0 / inject_Z 1)%Q.
Proof.
  intros Hwf Hc Hsize Hrun. unfold testPlay, testPlay_counts in Hrun.
  destruct (addPlay SECOND row col g) as [[valid g1]|] eqn:Hadd; [|done].
  simpl in Hrun.
  destruct (addPlay_counters _ _ _ _ _ _ Hwf Hc Hadd) as (_ & _ & Hs1 & _).
  assert (play_limit (getSize g1) ≤ 0)%Z as Hlimit.
  { rewrite Hs1. unfold play_limit, cn_MAXIMUM_PLAY_LIMIT.
    rewrite (proj2 (Nat.ltb_lt _ _)) by lia. lia. }
  destruct (Z.to_nat (play_limit (getSize g1))) as [|n];
    cbn [testPlay_loop] in Hrun;
    rewrite (proj2 (Z.ltb_ge _ _)) in Hrun by lia;
    simpl in Hrun; by injection Hrun as <- <- <-.
Qed.

Lemma testPlay_large_board_witness :
  ∃ p draws' g',
    (wf_game (HexGame_ctor (λ _ _, false) 21) ∧
     counters_ok (HexGame_ctor (λ _ _, false) 21) ∧
     21 ≤ getSize (HexGame_ctor (λ _ _, false) 21) ∧
     testPlay 3 4 [5; 6] (HexGame_ctor (λ _ _, false) 21) = Some (p, draws', g')) ∧
    draws' = [5; 6] ∧ getProb p = (inject_Z 0 / inject_Z 1)%Q.
Proof.
  assert (∃ p draws' g',
            testPlay 3 4 [5; 6] (HexGame_ctor (λ _ _, false) 21) = Some (p, draws', g'))
    as (p & draws' & g' & Hrun).
  { vm_compute. eexists _, _, _. reflexivity. }
  exists p, draws', g'.
  pose proof (HexGame_ctor_wf (λ _ _, false) 21) as Hwf.
  pose proof (counters_ok_ctor (λ _ _, false) 21) as Hc.
  assert (21 ≤ getSize (HexGame_ctor (λ _ _, false) 21)) as Hsize by apply Nat.le_refl.
  split; [exact (conj Hwf (conj Hc (conj Hsize Hrun)))|].
  exact (testPlay_large_board 3 4 [5; 6] _ p draws' g' Hwf Hc Hsize Hrun).
Defined.

(** ** hex_game.h: [display] *)

Lemma concat_replicate_snoc {A} (n : nat) (l : list A) :
  concat (replicate (S n) l) = concat (replicate n l) ++ l.
Proof.
  induction n as [|n IH]; [simpl; by rewrite app_nil_r|].
  change (concat (replicate (S (S n)) l)) with (l ++ concat (replicate (S n) l)).
  rewrite IH at 1. simpl. by rewrite app_assoc.
Qed.

Lemma buildLine_concat st append size :
  buildLine st append size = st ++ concat (replicate (Z.to_nat size) append).
Proof.
  unfold buildLine. induction (Z.to_nat size) as [|n IH]; [by rewrite app_nil_r|].
  rewrite concat_replicate_snoc, app_assoc, <-IH. done.
Qed.

Lemma for_each_app {S A} (body : S → A → option S) (s : S) (l1 l2 : list A) :
  for_each body s (l1 ++ l2) = s' ← for_each body s l1; for_each body s' l2.
Proof.
  revert s. induction l1 as [|x l1 IH]; intros s; [done|].
  simpl. destruct (body s x) as [s1|]; [|done]. simpl. apply IH.
Qed.

Lemma concat_replicate_double {A} (n : nat) (l : list A) :
  concat (replicate (2 * n) l) = concat (replicate n (l ++ l)).
Proof.
  induction n as [|n IH]; [done|].
  replace (2 * S n) with (S (S (2 * n))) by lia.
  simpl. rewrite <-IH. simpl. by rewrite app_assoc.
Qed.

Lemma buildLine_border (size : MapSize) :
  buildLine (str " ") (str "R ") ((Z.of_nat size + 1) * 2) = display_border size.
Proof.
  rewrite buildLine_concat. unfold display_border. f_equal.
  replace (Z.to_nat ((Z.of_nat size + 1) * 2)) with (2 * (size + 1)) by lia.
  apply (concat_replicate_double (size + 1) (str "R ")).
Qed.

(** The loop of [buildColNum] over one pair [R R ] of the border. *)
Lemma buildColNum_pair (limit : Z) (ret : list ascii) (v : Z) :
  foldl (λ '(ret, col_mod, row_print_val) a,
           if Ascii.eqb a " "
           then (ret ++ [a], col_mod, row_print_val)
           else if (col_mod =? 1)%Z
                then if negb (row_print_val =? limit)%Z
                     then (ret ++ to_string row_print_val, 0%Z, (row_print_val + 1)%Z)
                     else (ret, 0%Z, row_print_val)
                else (ret ++ str " ", (col_mod + 1)%Z, row_print_val))
        (ret, 0%Z, v) (str "R R ") =
  (ret ++ str "  " ++ (if (v =? limit)%Z then [] else to_string v) ++ str " ",
   0%Z, if (v =? limit)%Z then v else (v + 1)%Z).
Proof.
  simpl. destruct (v =? limit)%Z; simpl; f_equal; f_equal;
    rewrite <-?app_assoc; reflexivity.
Qed.

Lemma buildColNum_columns (size : MapSize) :
  buildColNum (display_border size) (Z.of_nat size) = display_columns size.
Proof.
  unfold buildColNum, display_border, display_columns.
  match goal with |- context [foldl ?f _ _] => set (step := f) end.
  rewrite foldl_app.
  change (foldl step ([], 0%Z, 0%Z) (str " ")) with (str " ", 0%Z, 0%Z).
  replace (size + 1) with (S size) by lia. rewrite concat_replicate_snoc, foldl_app.
  assert (∀ n v ret, v + n ≤ size →
            foldl step (ret, 0%Z, Z.of_nat v) (concat (replicate n (str "R R "))) =
            (ret ++ concat ((λ col, str "  " ++ to_string (Z.of_nat col) ++ str " ")
                              <$> seq v n),
             0%Z, Z.of_nat (v + n))) as Hcols.
  { induction n as [|n IH]; intros v ret Hv.
    - simpl. by rewrite app_nil_r, Nat.add_0_r.
    - change (concat (replicate (S n) (str "R R ")))
        with (str "R R " ++ concat (replicate n (str "R R "))).
      rewrite foldl_app. subst step. rewrite buildColNum_pair.
      rewrite (proj2 (Z.eqb_neq _ _)) by lia.
      replace (Z.of_nat v + 1)%Z with (Z.of_nat (S v)) by lia.
      rewrite IH by lia. f_equal; [f_equal|f_equal; lia].
      cbn [seq fmap list_fmap concat]. by rewrite <-!app_assoc. }
  pose proof (Hcols size 0 (str " ") ltac:(lia)) as H0.
  change (Z.of_nat 0) with 0%Z in H0. rewrite H0. clear H0 Hcols. simpl Nat.add.
  subst step. rewrite buildColNum_pair, Z.eqb_refl. cbn [fst].
  by rewrite <-!app_assoc.
Qed.

Lemma display_row_step row_idx first g out :
  display_row row_idx first g out = for_each (display_step row_idx g) (out, 0) first.
Proof. reflexivity. Qed.

Lemma display_unfold g :
  display g =
  '(out, space_idx, space) ←
    for_each (display_pass g
                (buildLine (str " G ") (str " % _") (Z.of_nat (getSize g) - 1) ++ str " %  G")
                (buildLine (str " G ") (str " \ /") (Z.of_nat (getSize g) - 1) ++ str " \  G"))
      (buildColNum (buildLine (str " ") (str "R ") ((Z.of_nat (getSize g) + 1) * 2))
                   (Z.of_nat (getSize g)) ++ endl ++
       buildLine (str " ") (str "R ") ((Z.of_nat (getSize g) + 1) * 2) ++ endl, 1%Z, [])
      (seq 0 (getSize g));
  Some (out ++ buildLine (str " ") (str "R ") ((Z.of_nat (getSize g) + 1) * 2) ++ endl ++
        str " " ++ space ++
        buildColNum (buildLine (str " ") (str "R ") ((Z.of_nat (getSize g) + 1) * 2))
                    (Z.of_nat (getSize g)) ++ endl).
Proof. reflexivity. Qed.

Lemma drawNode_wf row col g :
  wf_game g → row < getSize g → col < getSize g →
  drawNode row col g = Some (colour_at g (mkPosition row col)).
Proof.
  intros [Hwf _] Hr Hc. unfold drawNode.
  destruct (getNode_wf row col (base g) Hwf Hr Hc) as (n & Hn & _).
  rewrite Hn. simpl. by destruct (getNode_obs g row col n Hn) as [-> _].
Qed.

(** The loop over one group [ % _] of [first]. *)
Lemma display_step_cell row col g out :
  wf_game g → row < getSize g → col < getSize g →
  for_each (display_step row g) (out, col) (str " % _") =
  Some (out ++ str " " ++ [symbol (colour_at g (mkPosition row col))] ++ str " _", S col).
Proof.
  intros Hwf Hr Hc. simpl. rewrite (drawNode_wf row col g Hwf Hr Hc). simpl.
  by rewrite <-!app_assoc.
Qed.

Lemma display_step_cells row g n :
  wf_game g → row < getSize g →
  ∀ col out, col + n ≤ getSize g →
    for_each (display_step row g) (out, col) (concat (replicate n (str " % _"))) =
    Some (out ++ concat ((λ col, str " " ++ [symbol (colour_at g (mkPosition row col))]
                                 ++ str " _") <$> seq col n),
          col + n).
Proof.
  intros Hwf Hr. induction n as [|n IH]; intros col out Hc.
  - simpl. by rewrite app_nil_r, Nat.add_0_r.
  - change (concat (replicate (S n) (str " % _")))
      with (str " % _" ++ concat (replicate n (str " % _"))).
    rewrite for_each_app, display_step_cell by (done || lia).
    cbn [mbind option_bind]. rewrite IH by lia.
    f_equal. f_equal; [|lia]. cbn [seq fmap list_fmap concat]. by rewrite <-!app_assoc.
Qed.

(** The line of a row between its two numbers. *)
Lemma display_row_cells row g out :
  wf_game g → row < getSize g →
  display_row row
    (buildLine (str " G ") (str " % _") (Z.of_nat (getSize g) - 1) ++ str " %  G") g out =
  Some (out ++ display_cells g row, getSize g).
Proof.
  intros Hwf Hr. rewrite display_row_step, buildLine_concat.
  replace (Z.to_nat (Z.of_nat (getSize g) - 1)) with (getSize g - 1) by lia.
  rewrite <-app_assoc, !for_each_app.
  change (for_each (display_step row g) (out, 0) (str " G "))
    with (Some (((out ++ [" "%char]) ++ ["G"%char]) ++ [" "%char], 0)).
  cbn [mbind option_bind].
  rewrite for_each_app, display_step_cells by (done || lia). cbn [mbind option_bind].
  simpl. rewrite (drawNode_wf row (getSize g - 1) g Hwf Hr) by lia. simpl.
  unfold display_cells. f_equal. f_equal; [|lia].
  rewrite <-!app_assoc. reflexivity.
Qed.

Lemma buildLine_slashes (size : MapSize) :
  buildLine (str " G ") (str " \ /") (Z.of_nat size - 1) ++ str " \  G" =
  display_slashes size.
Proof.
  rewrite buildLine_concat. unfold display_slashes.
  replace (Z.to_nat (Z.of_nat size - 1)) with (size - 1) by lia. by rewrite <-app_assoc.
Qed.

(** One pass of the loop over the rows. *)
Lemma display_pass_block g out row space :
  wf_game g → row < getSize g →
  display_pass g
    (buildLine (str " G ") (str " % _") (Z.of_nat (getSize g) - 1) ++ str " %  G")
    (buildLine (str " G ") (str " \ /") (Z.of_nat (getSize g) - 1) ++ str " \  G")
    (out, Z.of_nat (2 * row + 1), space) row =
  Some (out ++ display_block g row,
        Z.of_nat (if row + 1 =? getSize g then 2 * row + 2 else 2 * (row + 1) + 1),
        replicate (if row + 1 =? getSize g then 2 * row + 1 else 2 * row + 2) " "%char).
Proof.
  intros Hwf Hr. unfold display_pass. cbv zeta.
  rewrite display_row_cells by done. cbn [mbind option_bind].
  rewrite buildLine_slashes. unfold display_block.
  rewrite Nat2Z.id.
  replace (Z.to_nat (Z.of_nat (2 * row + 1) + 1)) with (2 * row + 2) by lia.
  assert (replicate (2 * row + 1) " "%char ++ str " " = replicate (2 * row + 2) " "%char)
    as Hspace.
  { replace (2 * row + 2) with (S (2 * row + 1)) by lia. by rewrite replicate_S_end. }
  destruct (row + 1 =? getSize g); cbn [negb].
  - rewrite <-!app_assoc, Hspace, app_nil_r.
    replace (Z.of_nat (2 * row + 1) + 1)%Z with (Z.of_nat (2 * row + 2)) by lia. done.
  - rewrite <-!app_assoc, (app_assoc (replicate (2 * row + 1) _)), Hspace, <-?app_assoc.
    replace (Z.of_nat (2 * row + 1) + 1 + 1)%Z with (Z.of_nat (2 * (row + 1) + 1)) by lia.
    done.
Qed.

(** The loop over the rows from [row] on. *)
Lemma display_rows g n :
  wf_game g →
  ∀ row out space, row + n = getSize g →
    ∃ space_idx,
      for_each (display_pass g
                  (buildLine (str " G ") (str " % _") (Z.of_nat (getSize g) - 1)
                     ++ str " %  G")
                  (buildLine (str " G ") (str " \ /") (Z.of_nat (getSize g) - 1)
                     ++ str " \  G"))
        (out, Z.of_nat (2 * row + 1), space) (seq row n) =
      Some (out ++ concat (display_block g <$> seq row n), space_idx,
            if n =? 0 then space else replicate (2 * getSize g - 1) " "%char).
Proof.
  intros Hwf. induction n as [|n IH]; intros row out space Hn.
  - eexists. simpl. by rewrite app_nil_r.
  - cbn [seq for_each]. rewrite display_pass_block by (done || lia).
    cbn [mbind option_bind].
    destruct (row + 1 =? getSize g) eqn:Hlast.
    + apply Nat.eqb_eq in Hlast. assert (n = 0) as -> by lia.
      eexists. simpl. rewrite app_nil_r. do 3 f_equal. lia.
    + apply Nat.eqb_neq in Hlast.
      replace (S row) with (row + 1) by lia.
      destruct (IH (row + 1) (out ++ display_block g row) (replicate (2 * row + 2) " "%char))
        as [space_idx Hrun]; [lia|].
      exists space_idx. rewrite Hrun.
      destruct n; [lia|]. cbn [Nat.eqb]. f_equal. f_equal. f_equal.
      cbn [fmap list_fmap concat]. by rewrite <-app_assoc.
Qed.

Lemma display_draws_layout_eq g :
  wf_game g → display g = Some (display_layout g).
Proof.
  intros Hwf. rewrite display_unfold, buildLine_border, buildColNum_columns.
  destruct (display_rows g (getSize g) Hwf 0
              (display_columns (getSize g) ++ endl ++ display_border (getSize g) ++ endl) [])
    as [space_idx Hrun]; [done|].
  change (Z.of_nat (2 * 0 + 1)) with 1%Z in Hrun. rewrite Hrun. cbn [mbind option_bind].
  unfold display_layout. f_equal. rewrite <-!app_assoc. do 5 f_equal.
  destruct (getSize g); [|done]. done.
Qed.

(** X24.  [display] draws every game of the constructor's shape without
    reaching outside the board, and what it writes is the picture
    [display_layout]: the column numbers, the border, for each row its
    line (indented by twice the row, with the row number at both ends and
    in between one character for each node of the row, [.] for an empty
    node, [G] for a green and [R] for a red one), a line of slashes
    between rows, then the border and the column numbers again. *)
Theorem display_draws_layout g :
  wf_game g → display g = Some (display_layout g).
Proof. apply display_draws_layout_eq. Qed.

Lemma display_draws_layout_witness :
  wf_game game3_two_left ∧
  String.string_of_list_ascii <$> display game3_two_left =
  Some ("   0   1   2    " +:+ "
 R R R R R R R R " +:+ "
0 G  G _ G _ .  G 0" +:+ "
   G  \ / \ / \  G" +:+ "
  1 G  G _ . _ G  G 1" +:+ "
     G  \ / \ / \  G" +:+ "
    2 G  R _ R _ R  G 2" +:+ "
       R R R R R R R R " +:+ "
         0   1   2    " +:+ "
").
Proof.
  split; [apply game3_two_left_wf|].
  rewrite (display_draws_layout game3_two_left (proj1 game3_two_left_wf)).
  vm_compute. reflexivity.
Defined.

Lemma symbol_inj c c' : symbol c = symbol c' → c = c'.
Proof. by destruct c, c'. Qed.

Lemma concat_eq_inv {A} (l1 l2 : list (list A)) :
  Forall2 (λ a b, length a = length b) l1 l2 → concat l1 = concat l2 → l1 = l2.
Proof.
  induction 1 as [|a b l1 l2 Hlen _ IH]; [done|].
  simpl. intros Heq. apply app_inj_1 in Heq as [-> Heq]; [|done]. by rewrite IH.
Qed.

Lemma display_block_ext g g' row :
  getSize g' = getSize g → row < getSize g →
  display_block g' row = display_block g row ↔
  ∀ col, col < getSize g →
    colour_at g' (mkPosition row col) = colour_at g (mkPosition row col).
Proof.
  intros Hs Hr. unfold display_block, display_cells. rewrite Hs.
  set (cell := λ (h : HexGame) col,
         str " " ++ [symbol (colour_at h (mkPosition row col))] ++ str " _").
  split.
  - intros Heq.
    apply app_inv_head in Heq. rewrite <-!app_assoc in Heq. apply app_inv_head in Heq.
    apply app_inj_1 in Heq as [Hcells Heq].
    2:{ rewrite !length_concat. f_equal. rewrite <-!list_fmap_compose.
        apply list_fmap_ext. by intros ? ? ?. }
    apply concat_eq_inv in Hcells.
    2:{ apply Forall2_fmap, Forall_Forall2_diag, Forall_forall. by intros ? ?. }
    apply app_inv_head in Heq. injection Heq as Hlast.
    intros col Hcol. apply symbol_inj.
    destruct (decide (col = getSize g - 1)) as [-> |Hne]; [done|].
    assert ((cell g' <$> seq 0 (getSize g - 1)) !! col = Some (cell g' col)) as Hl.
    { rewrite list_lookup_fmap, lookup_seq_lt by lia. done. }
    unfold cell in Hl at 1. rewrite Hcells, list_lookup_fmap, lookup_seq_lt in Hl by lia.
    simpl in Hl. injection Hl as Hl. symmetry. exact Hl.
  - intros Hcol. do 2 f_equal. f_equal. f_equal.
    + f_equal. apply list_fmap_ext. intros i col Hi. apply lookup_seq in Hi as [-> Hi].
      simpl. rewrite Hcol by lia. done.
    + rewrite Hcol by lia. done.
Qed.

Lemma display_layout_ext g g' :
  getSize g' = getSize g →
  display_layout g' = display_layout g ↔
  ∀ p, on_board (getSize g) p → colour_at g' p = colour_at g p.
Proof.
  intros Hs. unfold display_layout. rewrite Hs. split.
  - intros Heq. do 4 apply app_inv_head in Heq. apply app_inv_tail in Heq.
    apply concat_eq_inv in Heq.
    2:{ apply Forall2_fmap, Forall_Forall2_diag, Forall_forall. intros row _.
        unfold display_block, display_cells. rewrite Hs, !length_app, !length_concat.
        do 3 f_equal. f_equal. f_equal. rewrite <-!list_fmap_compose.
        apply list_fmap_ext. by intros ? ? ?. }
    intros [row col] [Hr Hc]. simpl in Hr, Hc.
    apply (display_block_ext g g' row Hs Hr); [|done].
    assert ((display_block g' <$> seq 0 (getSize g)) !! row = Some (display_block g' row))
      as Hl.
    { rewrite list_lookup_fmap, lookup_seq_lt by lia. done. }
    rewrite Heq, list_lookup_fmap, lookup_seq_lt in Hl by lia.
    cbn [fmap option_fmap option_map] in Hl. injection Hl as Hl. symmetry. exact Hl.
  - intros Hcol. do 4 f_equal. f_equal. f_equal.
    apply list_fmap_ext. intros i row Hi. apply lookup_seq in Hi as [Hrow Hi].
    simpl in Hrow. subst i.
    apply (display_block_ext g g' row Hs); [lia|].
    intros col Hc. apply Hcol. split; simpl; lia.
Qed.

(** X25.  The picture shows the colours and nothing else.  Two games of
    the same size are drawn alike by [display] exactly when every node of
    the board has the same colour in both; traverse marks and play
    counters do not show. *)
Theorem display_shows_colours g g' :
  wf_game g → wf_game g' → getSize g' = getSize g →
  display g' = display g ↔
  ∀ p, on_board (getSize g) p → colour_at g' p = colour_at g p.
Proof.
  intros Hwf Hwf' Hs. rewrite !display_draws_layout_eq by done.
  rewrite <-(display_layout_ext g g' Hs).
  split; [intros Heq; apply (inj Some) in Heq; exact Heq|intros Heq; f_equal; exact Heq].
Qed.

Lemma display_shows_colours_witness :
  (wf_game game3_green_row ∧ wf_game game3_marked_green_row ∧
   getSize game3_marked_green_row = getSize game3_green_row) ∧
  display game3_marked_green_row = display game3_green_row.
Proof.
  destruct (play_moves_wf [(FIRST, 0, 0); (FIRST, 0, 1); (FIRST, 0, 2)] game3
              (HexGame_ctor_wf _ 3)) as (Hwf & Hs & _).
  destruct (play_moves_wf [(FIRST, 0, 0); (FIRST, 0, 1); (FIRST, 0, 2)]
              (HexGame_ctor (λ _ _, true) 3) (HexGame_ctor_wf _ 3)) as (Hwf' & Hs' & _).
  assert (getSize game3_marked_green_row = getSize game3_green_row) as Hsize.
  { unfold game3_marked_green_row, game3_green_row. rewrite Hs, Hs'. reflexivity. }
  split; [exact (conj Hwf (conj Hwf' Hsize))|].
  apply (display_shows_colours game3_green_row game3_marked_green_row Hwf Hwf' Hsize).
  unfold game3_green_row at 1. rewrite Hs. change (getSize game3) with 3.
  intros [row col] [Hr Hc]. simpl in Hr, Hc.
  assert (row = 0 ∨ row = 1 ∨ row = 2) as Hrow by lia.
  assert (col = 0 ∨ col = 1 ∨ col = 2) as Hcol by lia.
  destruct Hrow as [-> |[-> | ->]], Hcol as [-> |[-> | ->]]; vm_compute; reflexivity.
Defined.
